(** * z.Buffer of ristretto: a shallow embedding of z/buffer.go

    The buffer is a growable byte region with a write cursor.  Records are
    stored as a 4-byte big-endian length followed by the payload, and
    [SortSliceBetween] reorders the records of a range in place.

    Conventions of the embedding.
    - Go's [int] is 64 bits wide.  It is a [Z] here, and every addition and
      subtraction of the source is written with its wrap-around ([+i], [-i]).
    - A byte is a [Byte.byte]; a [[]byte] value is a [list byte].  A slice that
      the source keeps while the array under it is written (the return value
      of [Allocate], the run [right] of [merge]) is a [span]: a pair of
      indices into the array, read when the source reads it.
    - [panic] and [log.Fatalf] end the run: a function that can reach one
      returns an [outcome].  An [error] value returned to the caller is an
      ordinary result.
    - Loops carry a fuel argument; the callers pass a bound computed from
      their arguments, and the theorems show that it suffices. *)

From Stdlib Require Import ZArith List Lia Bool String.
From Stdlib Require Import Strings.Byte.
From Stdlib Require Import Permutation Sorted.
Import ListNotations.
Open Scope string_scope.
Open Scope list_scope.
Open Scope Z_scope.

Set Implicit Arguments.

(** ** Go integers *)

Module GoInt.

Definition min_int : Z := - 2 ^ 63.
Definition max_int : Z := 2 ^ 63 - 1.
Definition max_int32 : Z := 2 ^ 31 - 1.

(** The value of a 64-bit two's complement computation whose exact result
    is [z]. *)
Definition wrap (z : Z) : Z := (z + 2 ^ 63) mod 2 ^ 64 - 2 ^ 63.

Definition add (x y : Z) : Z := wrap (x + y).
Definition sub (x y : Z) : Z := wrap (x - y).

(** [uint32(x)] *)
Definition to_uint32 (x : Z) : Z := x mod 2 ^ 32.

Definition in_int (z : Z) : Prop := min_int <= z <= max_int.

End GoInt.

Notation "x +i y" := (GoInt.add x y) (at level 50, left associativity).
Notation "x -i y" := (GoInt.sub x y) (at level 50, left associativity).

(** ** Outcomes *)

Inductive fault : Type :=
| Panic (msg : string)      (* panic(...), or a run-time panic *)
| Fatal (msg : string)      (* log.Fatalf: the process exits *)
| OutOfFuel.                (* a loop of the model used up its bound *)

Inductive outcome (A : Type) : Type :=
| Ok (a : A)
| Fail (f : fault).

Arguments Ok {A} a.
Arguments Fail {A} f.

Definition bind {A B : Type} (m : outcome A) (k : A -> outcome B) : outcome B :=
  match m with
  | Ok a => k a
  | Fail f => Fail f
  end.

Notation "x <- m ;; k" := (bind m (fun x => k))
  (at level 61, m at next level, right associativity).
Notation "' pat <- m ;; k" := (bind m (fun x => match x with pat => k end))
  (at level 61, pat pattern, m at next level, right associativity).

Definition is_panic {A : Type} (o : outcome A) : bool :=
  match o with
  | Fail (Panic _) => true
  | _ => false
  end.

Definition bounds : fault := Panic "slice bounds out of range".
Definition index_range : fault := Panic "index out of range".

(** [assert]: log.Fatalf("Assertion failure") when the condition is false. *)
Definition assert (c : bool) : outcome unit :=
  if c then Ok tt else Fail (Fatal "Assertion failure").

(** ** Byte slices *)

Definition len {A : Type} (l : list A) : Z := Z.of_nat (List.length l).

Definition take {A : Type} (n : Z) (l : list A) : list A := firstn (Z.to_nat n) l.
Definition drop {A : Type} (n : Z) (l : list A) : list A := skipn (Z.to_nat n) l.

(** A slice of an array kept by its bounds: [a[lo:hi]]. *)
Definition span : Type := (Z * Z)%type.

Definition span_len (s : span) : Z := snd s - fst s.

(** The slice expression [a[lo:hi]], checked against the length of the
    array [a] (its capacity, [a] being a whole allocation).  *)
Definition slice (a : list byte) (lo hi : Z) : outcome span :=
  if (0 <=? lo) && (lo <=? hi) && (hi <=? len a) then Ok (lo, hi)
  else Fail bounds.

(** The bytes a span denotes in the array it was cut from. *)
Definition read (a : list byte) (s : span) : list byte :=
  take (span_len s) (drop (fst s) a).

(** [copy(a[lo:hi], src)]: the number of bytes copied is the smaller of the
    two lengths; the bytes of [src] are taken before any is written, as
    Go's [copy] does for overlapping slices. *)
Definition copy (a : list byte) (dst : span) (src : list byte) : list byte * Z :=
  let n := Z.min (span_len dst) (len src) in
  (take (fst dst) a ++ take n src ++ drop (fst dst + n) a, n).

(** ** encoding/binary, big endian *)

Definition byte_of (z : Z) : byte :=
  match Byte.of_N (Z.to_N (z mod 256)) with
  | Some b => b
  | None => x00
  end.

Definition Z_of_byte (b : byte) : Z := Z.of_N (Byte.to_N b).

(** [binary.BigEndian.PutUint32]: the four bytes written for [v]. *)
Definition be32 (v : Z) : list byte :=
  [byte_of (Z.shiftr v 24); byte_of (Z.shiftr v 16); byte_of (Z.shiftr v 8); byte_of v].

(** [binary.BigEndian.Uint32(s)]: panics when [s] is shorter than 4. *)
Definition Uint32 (s : list byte) : outcome Z :=
  match s with
  | b0 :: b1 :: b2 :: b3 :: _ =>
      Ok (Z.lor (Z.lor (Z.lor (Z.shiftl (Z_of_byte b0) 24) (Z.shiftl (Z_of_byte b1) 16))
                       (Z.shiftl (Z_of_byte b2) 8)) (Z_of_byte b3))
  | _ => Fail index_range
  end.

(** [binary.BigEndian.PutUint32(a[lo:hi], v)]: panics when the slice is
    shorter than 4, and writes its first four bytes otherwise. *)
Definition PutUint32 (a : list byte) (dst : span) (v : Z) : outcome (list byte) :=
  if span_len dst <? 4 then Fail index_range
  else Ok (fst (copy a dst (be32 v))).

(** ** Collaborators outside buffer.go *)

(** Modelled from the spec: [Calloc] is in z/calloc.go, which is not among
    the sources.  The spec gives "allocate(n) -> contiguous zeroed byte
    region"; a negative size cannot be allocated and panics. *)
Definition Calloc (n : Z) : outcome (list byte) :=
  if n <? 0 then Fail (Panic "Calloc: negative size")
  else Ok (repeat x00 (Z.to_nat n)).

(** Modelled from the spec: the file under a mapped buffer ([os.File]).
    The spec has "a plain file whose bytes are exactly the buffer's backing
    region": the bytes of the file are those of the region mapped over it,
    and the descriptor is kept by the length of the file.  [Truncate] sets
    the length and fails on a negative one. *)
Record File : Type := mkFile { fsize : Z }.

Definition Truncate (f : File) (sz : Z) : option File :=
  if sz <? 0 then None else Some (mkFile sz).

(** What a truncation to [sz] does to the bytes [d] of a file: those past
    the new end are lost, and a longer file is filled with zeroes. *)
Definition resize (d : list byte) (sz : Z) : list byte :=
  take sz d ++ repeat x00 (Z.to_nat (sz - len d)).

(** The region [a] mapped over a file, once the file has been truncated to
    [sz]: the mapping is as long as before, the bytes past the end of the
    file are lost and read as zeroes. *)
Definition cut (a : list byte) (sz : Z) : list byte :=
  resize (resize a sz) (len a).

(** Modelled from the spec: [Mmap] is in z/mmap.go, which is not among the
    sources.  "map(file, writable, maxLen) -> byte region": the file is
    given by its bytes [d]; the region is [maxLen] bytes long, the bytes of
    the file first and zeroes after them; a length that is not positive is
    refused.  Whether the system lets a byte past the end of the file be
    touched is outside the model. *)
Definition Mmap (d : list byte) (writable : bool) (size : Z) : option (list byte) :=
  if size <=? 0 then None else Some (resize d size).

(** The calls a buffer has made to its collaborators. *)
Inductive call : Type :=
| CallCalloc (n : Z)
| CallFree
| CallTruncate (n : Z)
| CallMmap (n : Z)
| CallMunmap
| CallClose
| CallRemove.

(** ** The buffer *)

Inductive BufferType : Type := UseCalloc | UseMmap | UseInvalid.

Inductive error : Type :=
| ErrTruncate (sz : Z)
| ErrMmap (sz : Z)
| ErrFileSize (fileSize maxSz : Z)   (* NewMmapFile *)
| ErrMunmap                         (* Release *)
| ErrClose
| ErrRemove
| ErrCapacity (n : Z)           (* First *)
| ErrWrite (sz off : Z)         (* WriteAt, WriteSliceAt *)
| ErrRead (n off : Z).          (* ReadAt *)

(** [buf] is [None] for the nil slice of a [Buffer] that was never
    initialised.  [calls] is not a field of the Go struct: it records the
    allocations and truncations made for this buffer, so that "no
    allocation" can be said. *)
Record Buffer : Type := mkBuffer {
  buf : option (list byte);
  offset : Z;
  curSz : Z;
  maxSz : Z;
  fd : option File;
  bufType : BufferType;
  calls : list call
}.

Definition smallBufferSize : Z := 64.

(** The bytes of [b.buf]; a nil slice has none. *)
Definition bytes (b : Buffer) : list byte :=
  match buf b with
  | Some a => a
  | None => []
  end.

Definition set_buf (b : Buffer) (a : list byte) : Buffer :=
  mkBuffer (Some a) (offset b) (curSz b) (maxSz b) (fd b) (bufType b) (calls b).

(** The array under [b.buf] has been written through a slice of it: the
    field itself is not assigned, and a nil slice has no array. *)
Definition store (b : Buffer) (a : list byte) : Buffer :=
  match buf b with
  | Some _ => set_buf b a
  | None => b
  end.

Definition set_offset (b : Buffer) (o : Z) : Buffer :=
  mkBuffer (buf b) o (curSz b) (maxSz b) (fd b) (bufType b) (calls b).

Definition set_curSz (b : Buffer) (c : Z) : Buffer :=
  mkBuffer (buf b) (offset b) c (maxSz b) (fd b) (bufType b) (calls b).

Definition set_fd (b : Buffer) (f : File) : Buffer :=
  mkBuffer (buf b) (offset b) (curSz b) (maxSz b) (Some f) (bufType b) (calls b).

Definition log_calls (b : Buffer) (cs : list call) : Buffer :=
  mkBuffer (buf b) (offset b) (curSz b) (maxSz b) (fd b) (bufType b) (calls b ++ cs).

(** [NewBufferWith]: the result is the buffer, or the error returned. *)
Definition NewBufferWith (sz maxSz : Z) (bufType : BufferType)
  : outcome (Buffer + error) :=
  let sz := if sz =? 0 then smallBufferSize else sz in
  let maxSz := if maxSz =? 0 then GoInt.max_int32 else maxSz in
  r <- match bufType with
       | UseCalloc =>
           a <- Calloc sz ;;
           Ok (inl (a, None, [CallCalloc sz]))
       | UseMmap =>
           let f := mkFile 0 in                       (* ioutil.TempFile *)
           match Truncate f sz with
           | None => Ok (inr (ErrTruncate sz))
           | Some f =>
               match Mmap (resize [] sz) true maxSz with
               | None => Ok (inr (ErrMmap maxSz))
               | Some a => Ok (inl (a, Some f, [CallTruncate sz; CallMmap maxSz]))
               end
           end
       | UseInvalid => Fail (Fatal "Invalid bufType")
       end ;;
  match r with
  | inr e => Ok (inr e)
  | inl (a, f, cs) =>
      match a with
      | [] => Fail index_range                        (* buf[0] = 0x00 *)
      | _ :: a' =>
          Ok (inl (mkBuffer (Some (x00 :: a')) 1 sz maxSz f bufType cs))
      end
  end.

(** [NewBuffer]: a fatal exit when [NewBufferWith] returns an error. *)
Definition NewBuffer (sz : Z) : outcome Buffer :=
  r <- NewBufferWith sz GoInt.max_int UseCalloc ;;
  match r with
  | inl b => Ok b
  | inr _ => Fail (Fatal "while creating buffer")
  end.

(** [NewMmapFile].  The file system, which is outside the sources, is the
    lookup [fs] of the bytes of the file at a path; [os.OpenFile] with
    [O_CREATE] makes an empty file when there is none.  The region is not
    given its sentinel byte here, and the cursor is the one asked for, or
    the size of the file if that is larger. *)
Definition NewMmapFile (fs : string -> option (list byte)) (sz maxSz offset : Z)
    (path : string) : outcome (Buffer + error) :=
  let sz := if sz =? 0 then smallBufferSize else sz in
  let maxSz := if maxSz =? 0 then GoInt.max_int32 else maxSz in
  let d := match fs path with
           | Some d => d
           | None => []
           end in
  let f := mkFile (len d) in
  let fileSize := fsize f in
  if fileSize >? maxSz then Ok (inr (ErrFileSize fileSize maxSz))
  else
    let truncateSize := if fileSize >? sz then fileSize else sz in
    match Truncate f truncateSize with
    | None => Ok (inr (ErrTruncate sz))
    | Some f =>
        match Mmap (resize d truncateSize) true maxSz with
        | None => Ok (inr (ErrMmap maxSz))
        | Some a =>
            let offset := if fileSize >? offset then fileSize else offset in
            Ok (inl (mkBuffer (Some a) offset sz maxSz (Some f) UseMmap
                       [CallTruncate truncateSize; CallMmap maxSz]))
        end
    end.


Definition Len (b : Buffer) : Z := offset b.

(** [Bytes]: [b.buf[1:b.offset]]. *)
Definition Bytes (b : Buffer) : outcome (list byte) :=
  s <- slice (bytes b) 1 (offset b) ;;
  Ok (read (bytes b) s).

(** [First]. *)
Definition First (b : Buffer) (n : Z) : outcome (list byte + error) :=
  if len (bytes b) <? n then Ok (inr (ErrCapacity n))
  else s <- slice (bytes b) 0 n ;; Ok (inl (read (bytes b) s)).

(** [Grow]. *)
Definition Grow (b : Buffer) (n : Z) : outcome Buffer :=
  match buf b with
  | None => Fail (Panic "z.Buffer needs to be initialized before using")
  | Some old =>
      if maxSz b -i offset b <? n then Fail (Panic "Buffer max size exceeded")
      else if curSz b -i offset b >? n then Ok b
      else
        let growBy := curSz b +i n in
        let growBy := if growBy >? 2 ^ 30 then 2 ^ 30 else growBy in
        let growBy := if n >? growBy then n else growBy in
        let b := set_curSz b (curSz b +i growBy) in
        match bufType b with
        | UseCalloc =>
            newBuf <- Calloc (curSz b) ;;
            s <- slice old 0 (offset b) ;;
            let newBuf := fst (copy newBuf (0, len newBuf) (read old s)) in
            Ok (log_calls (set_buf b newBuf) [CallCalloc (curSz b); CallFree])
        | UseMmap =>
            match fd b with
            | None => Fail (Panic "nil pointer dereference")
            | Some f =>
                match Truncate f (curSz b) with
                | None => Fail (Fatal "While trying to truncate file")
                | Some f' =>
                    Ok (log_calls (set_buf (set_fd b f') (cut old (curSz b)))
                          [CallTruncate (curSz b)])
                end
            end
        | UseInvalid => Ok b
        end
  end.

(** [Allocate]: the slice returned is [b.buf[off:b.offset]] of the buffer
    returned with it. *)
Definition Allocate (b : Buffer) (n : Z) : outcome (Buffer * span) :=
  b <- Grow b n ;;
  let off := offset b in
  let b := set_offset b (offset b +i n) in
  s <- slice (bytes b) off (offset b) ;;
  Ok (b, s).

Definition AllocateOffset (b : Buffer) (n : Z) : outcome (Buffer * Z) :=
  b <- Grow b n ;;
  let b := set_offset b (offset b +i n) in
  Ok (b, offset b -i n).

Definition writeLen (b : Buffer) (sz : Z) : outcome Buffer :=
  '(b, s) <- Allocate b 4 ;;
  a <- PutUint32 (bytes b) s (GoInt.to_uint32 sz) ;;
  Ok (store b a).

Definition SliceAllocate (b : Buffer) (sz : Z) : outcome (Buffer * span) :=
  b <- Grow b (4 +i sz) ;;
  b <- writeLen b sz ;;
  Allocate b sz.

Definition SliceAllocateOffset (b : Buffer) (sz : Z) : outcome (Buffer * span * Z) :=
  b <- Grow b (4 +i sz) ;;
  b <- writeLen b sz ;;
  '(b, s) <- Allocate b sz ;;
  Ok (b, s, offset b -i sz -i 4).

(** [Slice]: the payload is [None] for the nil slice.  The bytes of the
    payload are those the slice denotes when [Slice] returns. *)
Definition Slice (b : Buffer) (off : Z) : outcome (option (list byte) * Z) :=
  if off >=? offset b then Ok (None, 0)
  else
    t <- slice (bytes b) off (len (bytes b)) ;;
    sz <- Uint32 (read (bytes b) t) ;;
    let start := off +i 4 in
    let next := start +i sz in
    res <- slice (bytes b) start next ;;
    let next := if next >=? offset b then 0 else next in
    Ok (Some (read (bytes b) res), next).

(** [Data]. *)
Definition Data (b : Buffer) (off : Z) : outcome (list byte) :=
  if off >? curSz b then Fail (Panic "offset beyond current size")
  else s <- slice (bytes b) off (curSz b) ;; Ok (read (bytes b) s).

(** [Write]. *)
Definition Write (b : Buffer) (p : list byte) : outcome (Buffer * Z) :=
  b <- Grow b (len p) ;;
  d <- slice (bytes b) (offset b) (len (bytes b)) ;;
  let '(a, n) := copy (bytes b) d p in
  Ok (set_offset (store b a) (offset b +i n), n).

(** [WriteAt]: the count, and the error if one is returned. *)
Definition WriteAt (b : Buffer) (p : list byte) (off : Z)
  : outcome (Buffer * Z * option error) :=
  if off +i len p >? len (bytes b) then Ok (b, 0, Some (ErrWrite (len p) off))
  else
    d <- slice (bytes b) off (len (bytes b)) ;;
    let '(a, n) := copy (bytes b) d p in
    Ok (store b a, n, None).

Definition WriteSliceAt (b : Buffer) (p : list byte) (off : Z)
  : outcome (Buffer * Z * option error) :=
  if off +i 4 +i len p >? len (bytes b) then Ok (b, 0, Some (ErrWrite (len p) off))
  else
    h <- slice (bytes b) off (off +i 4) ;;
    a <- PutUint32 (bytes b) h (GoInt.to_uint32 (len p)) ;;
    d <- slice a (off +i 4) (len a) ;;
    let '(a, n) := copy a d p in
    Ok (store b a, n, None).

Definition ReadAt (b : Buffer) (n off : Z) : outcome (list byte + error) :=
  if off +i n >? len (bytes b) then Ok (inr (ErrRead n off))
  else s <- slice (bytes b) off (off +i n) ;; Ok (inl (read (bytes b) s)).

Definition Reset (b : Buffer) : Buffer := set_offset b 1.

(** The system calls of [Release] on a mapped buffer. *)
Inductive syscall : Type := SysMunmap | SysTruncate | SysClose | SysRemove.

(** [Release]: the buffer is not to be used afterwards; what remains is the
    record of the calls, and the error returned.  [fails] tells which
    system calls fail: the first one that does ends the teardown with its
    error.  An off-heap buffer makes no system call. *)
Definition Release (fails : syscall -> bool) (b : Buffer)
  : outcome (Buffer * option error) :=
  match bufType b with
  | UseCalloc => Ok (log_calls b [CallFree], None)
  | UseMmap =>
      match fd b with
      | None => Fail (Panic "nil pointer dereference")     (* b.fd.Name() *)
      | Some _ =>
          if fails SysMunmap then Ok (log_calls b [CallMunmap], Some ErrMunmap)
          else if fails SysTruncate then
            Ok (log_calls b [CallMunmap; CallTruncate 0], Some (ErrTruncate 0))
          else if fails SysClose then
            Ok (log_calls b [CallMunmap; CallTruncate 0; CallClose], Some ErrClose)
          else if fails SysRemove then
            Ok (log_calls b [CallMunmap; CallTruncate 0; CallClose; CallRemove],
                Some ErrRemove)
          else
            Ok (log_calls b [CallMunmap; CallTruncate 0; CallClose; CallRemove],
                None)
      end
  | UseInvalid => Ok (b, None)
  end.

(** ** The sorter *)

Definition LessFunc : Type := list byte -> list byte -> bool.

Module sortHelper.
Record t : Type := mk {
  offsets : list Z;
  b : Buffer;
  tmp : Buffer;
  less : LessFunc;
  small : list Z
}.
End sortHelper.

Definition set_b (s : sortHelper.t) (x : Buffer) : sortHelper.t :=
  sortHelper.mk (sortHelper.offsets s) x (sortHelper.tmp s) (sortHelper.less s)
    (sortHelper.small s).

Definition set_tmp (s : sortHelper.t) (x : Buffer) : sortHelper.t :=
  sortHelper.mk (sortHelper.offsets s) (sortHelper.b s) x (sortHelper.less s)
    (sortHelper.small s).

Definition set_small (s : sortHelper.t) (x : list Z) : sortHelper.t :=
  sortHelper.mk (sortHelper.offsets s) (sortHelper.b s) (sortHelper.tmp s)
    (sortHelper.less s) x.

(** [l[i]] *)
Definition index (l : list Z) (i : Z) : outcome Z :=
  if (i <? 0) || (len l <=? i) then Fail index_range
  else match nth_error l (Z.to_nat i) with
       | Some x => Ok x
       | None => Fail index_range
       end.

(** [s[k:]] for a slice [s] of some array. *)
Definition advance (s : span) (k : Z) : outcome span :=
  if (0 <=? k) && (k <=? span_len s) then Ok (fst s + k, snd s) else Fail bounds.

(** [rawSlice(s)] for a slice [s] of the array [a]: [s[:4+int(sz)]], which Go
    checks against the capacity of [s], the rest of [a]. *)
Definition rawSlice (a : list byte) (s : span) : outcome span :=
  sz <- Uint32 (read a s) ;;
  let hi := 4 +i sz in
  if (0 <=? hi) && (hi <=? len a - fst s) then Ok (fst s, fst s + hi)
  else Fail bounds.

(** The payload that [Slice] returns at an offset, as the comparison
    closure of [sortSmall] reads it.  The closure is only applied to offsets
    at which the loop before it has already called [Slice]. *)
Definition payload (b : Buffer) (off : Z) : list byte :=
  match Slice b off with
  | Ok (Some p, _) => p
  | _ => []
  end.

(** The loop [for next != 0 && next < end] of [sortSmall]. *)
Fixpoint collect (fuel : nat) (b : Buffer) (next end_ : Z) (small : list Z)
  : outcome (list Z) :=
  if negb (next =? 0) && (next <? end_) then
    match fuel with
    | O => Fail OutOfFuel
    | S fuel =>
        let small := small ++ [next] in
        '(_, next) <- Slice b next ;;
        collect fuel b next end_ small
    end
  else Ok small.

(** The loop [for _, off := range s.small] of [sortSmall]. *)
Fixpoint stage (b tmp : Buffer) (small : list Z) : outcome Buffer :=
  match small with
  | [] => Ok tmp
  | off :: rest =>
      t <- slice (bytes b) off (len (bytes b)) ;;
      r <- rawSlice (bytes b) t ;;
      '(tmp, _) <- Write tmp (read (bytes b) r) ;;
      stage b tmp rest
  end.

(** The loop [for start < end] of [merge].  [a] is [s.b.buf]; [t] is
    [s.tmp.buf], which the loop does not write; [left] is a slice of [t] and
    [right] a slice of [a]. *)
Fixpoint mergeLoop (fuel : nat) (less : LessFunc) (t a : list byte)
    (left right : span) (start end_ : Z) : outcome (list byte) :=
  if start <? end_ then
    match fuel with
    | O => Fail OutOfFuel
    | S fuel =>
        if span_len left =? 0 then
          d <- slice a start end_ ;;
          let '(a, n) := copy a d (read a right) in
          _ <- assert (span_len right =? n) ;;
          Ok a
        else if span_len right =? 0 then
          d <- slice a start end_ ;;
          let '(a, n) := copy a d (read t left) in
          _ <- assert (span_len left =? n) ;;
          Ok a
        else
          ls <- rawSlice t left ;;
          rs <- rawSlice a right ;;
          lp <- advance ls 4 ;;
          rp <- advance rs 4 ;;
          if less (read t lp) (read a rp) then
            (* copyLeft *)
            d <- slice a start (len a) ;;
            let '(a, n) := copy a d (read t ls) in
            _ <- assert (span_len ls =? n) ;;
            left <- advance left (span_len ls) ;;
            mergeLoop fuel less t a left right (start +i span_len ls) end_
          else
            (* copyRight *)
            d <- slice a start (len a) ;;
            let '(a, n) := copy a d (read a rs) in
            _ <- assert (span_len rs =? n) ;;
            right <- advance right (span_len rs) ;;
            mergeLoop fuel less t a left right (start +i span_len rs) end_
    end
  else Ok a.

(** [merge]: [left] and [right] are slices of [s.b.buf]. *)
Definition merge (s : sortHelper.t) (left right : span) (start end_ : Z)
  : outcome sortHelper.t :=
  if (span_len left =? 0) || (span_len right =? 0) then Ok s
  else
    let tmp := Reset (sortHelper.tmp s) in
    '(tmp, _) <- Write tmp (read (bytes (sortHelper.b s)) left) ;;
    left <- slice (bytes tmp) 1 (offset tmp) ;;          (* s.tmp.Bytes() *)
    a <- mergeLoop (Z.to_nat (end_ - start)) (sortHelper.less s) (bytes tmp)
           (bytes (sortHelper.b s)) left right start end_ ;;
    Ok (set_b (set_tmp s tmp) (store (sortHelper.b s) a)).

(** [sort]: the slice returned is a slice of [s.b.buf]. *)
Fixpoint sort (fuel : nat) (s : sortHelper.t) (lo hi : Z)
  : outcome (sortHelper.t * span) :=
  match fuel with
  | O => Fail OutOfFuel
  | S fuel =>
      _ <- assert (lo <=? hi) ;;
      let mid := lo +i Z.quot (hi -i lo) 2 in
      loff <- index (sortHelper.offsets s) lo ;;
      hoff <- index (sortHelper.offsets s) hi ;;
      if lo =? mid then
        r <- slice (bytes (sortHelper.b s)) loff hoff ;;
        Ok (s, r)
      else
        '(s, left_) <- sort fuel s lo mid ;;
        '(s, right_) <- sort fuel s mid hi ;;
        s <- merge s left_ right_ loff hoff ;;
        r <- slice (bytes (sortHelper.b s)) loff hoff ;;
        Ok (s, r)
  end.

(** The loop [for next != 0 && next < end] of [SortSliceBetween]. *)
Fixpoint chunks (fuel : nat) (b : Buffer) (next end_ count : Z) (offsets : list Z)
  : outcome (list Z) :=
  if negb (next =? 0) && (next <? end_) then
    match fuel with
    | O => Fail OutOfFuel
    | S fuel =>
        let offsets := if Z.rem count 1024 =? 0 then offsets ++ [next] else offsets in
        '(_, next) <- Slice b next ;;
        chunks fuel b next end_ (count +i 1) offsets
    end
  else Ok offsets.

Section Sorter.

(** [sort.Slice] of Go's library, applied to a slice of offsets with the
    comparison of two of its elements. *)
Variable sort_Slice : (Z -> Z -> bool) -> list Z -> list Z.

(** [int(float64(x) * 1.1)], the size of the scratch buffer. *)
Variable scale : Z -> Z.

Definition sortSmall (s : sortHelper.t) (start end_ : Z) : outcome sortHelper.t :=
  let s := set_tmp s (Reset (sortHelper.tmp s)) in
  let s := set_small s [] in
  small <- collect (Z.to_nat (end_ - start)) (sortHelper.b s) start end_
             (sortHelper.small s) ;;
  let bb := sortHelper.b s in
  let small :=
    sort_Slice (fun i j => sortHelper.less s (payload bb i) (payload bb j)) small in
  let s := set_small s small in
  tmp <- stage bb (sortHelper.tmp s) small ;;
  let s := set_tmp s tmp in
  d <- slice (bytes bb) start end_ ;;
  src <- Bytes tmp ;;
  let '(a, n) := copy (bytes bb) d src in
  _ <- assert (end_ -i start =? n) ;;
  Ok (set_b s (store bb a)).

(** The loop [for _, off := range offsets[1:]] of [SortSliceBetween]. *)
Fixpoint sortChunks (s : sortHelper.t) (left : Z) (offs : list Z)
  : outcome sortHelper.t :=
  match offs with
  | [] => Ok s
  | off :: rest =>
      s <- sortSmall s left off ;;
      sortChunks s off rest
  end.

(** [SortSliceBetween].  The scratch buffer is released when the function
    returns; it is not part of the result. *)
Definition SortSliceBetween (b : Buffer) (start end_ : Z) (less : LessFunc)
  : outcome Buffer :=
  if start >=? end_ then Ok b
  else if start =? 0 then Fail (Panic "start can never be zero")
  else
    offsets <- chunks (Z.to_nat (end_ - start)) b start end_ 0 [] ;;
    _ <- assert (len offsets >? 0) ;;
    last <- index offsets (len offsets -i 1) ;;
    let offsets := if negb (last =? end_) then offsets ++ [end_] else offsets in
    let szTmp := scale (Z.quot (end_ -i start) 2) in
    tmp <- NewBuffer szTmp ;;
    let s := sortHelper.mk offsets b tmp less [] in
    left_ <- index offsets 0 ;;
    s <- sortChunks s left_ (tl offsets) ;;
    '(s, _) <- sort (List.length offsets) s 0 (len offsets -i 1) ;;
    let _ := Release (fun _ => false) (sortHelper.tmp s) in   (* defer; off-heap *)
    Ok (sortHelper.b s).

Definition SortSlice (b : Buffer) (less : LessFunc) : outcome Buffer :=
  SortSliceBetween b 1 (offset b) less.

End Sorter.

(** Go's [sort.Slice] on short inputs is an insertion sort: each element
    is moved towards the front while it is less than the one before it.  It
    is the instance used where a concrete run is needed.  The sorted prefix
    is kept in reverse, its last element first. *)
Fixpoint insert (lt : Z -> Z -> bool) (x : Z) (rprefix : list Z) : list Z :=
  match rprefix with
  | [] => [x]
  | y :: r => if lt x y then y :: insert lt x r else x :: rprefix
  end.

Definition insertionSort (lt : Z -> Z -> bool) (l : list Z) : list Z :=
  rev (fold_left (fun acc x => insert lt x acc) l []).

(** The product of the source, without the rounding of float64. *)
Definition scale11 (x : Z) : Z := Z.quot (x * 11) 10.

(** ** Writing and reading records *)

(** The caller of [SliceAllocate] fills the slice it got: [copy(s, p)]. *)
Definition fill (b : Buffer) (s : span) (p : list byte) : Buffer :=
  store b (fst (copy (bytes b) s p)).

Definition writeRecord (b : Buffer) (p : list byte) : outcome Buffer :=
  '(b, s) <- SliceAllocate b (len p) ;;
  Ok (fill b s p).

Fixpoint writeAll (b : Buffer) (ps : list (list byte)) : outcome Buffer :=
  match ps with
  | [] => Ok b
  | p :: ps => b <- writeRecord b p ;; writeAll b ps
  end.

(** Repeated [Slice] from an offset until the sentinel 0 comes back: all
    the results, in order. *)
Fixpoint traverse (fuel : nat) (b : Buffer) (off : Z)
  : outcome (list (option (list byte) * Z)) :=
  match fuel with
  | O => Fail OutOfFuel
  | S fuel =>
      '(p, next) <- Slice b off ;;
      if next =? 0 then Ok [(p, next)]
      else rest <- traverse fuel b next ;; Ok ((p, next) :: rest)
  end.

(** The payloads among the results: the nil slice is the empty result. *)
Fixpoint payloads (tr : list (option (list byte) * Z)) : list (list byte) :=
  match tr with
  | [] => []
  | (Some p, _) :: tr => p :: payloads tr
  | (None, _) :: tr => payloads tr
  end.

Definition readAll (b : Buffer) : outcome (list (option (list byte) * Z)) :=
  traverse (Z.to_nat (offset b)) b 1.

(** ** Notions used by the statements *)

(** The state a buffer is in between two calls, once it has been built by
    [NewBufferWith]: the cursor is inside the current size, and the region is
    as long as the current size (off-heap) or as the maximum size (mapped). *)
Definition valid (b : Buffer) : Prop :=
  0 <= offset b <= curSz b /\ curSz b <= GoInt.max_int /\
  GoInt.in_int (maxSz b) /\
  match bufType b with
  | UseCalloc => exists a, buf b = Some a /\ len a = curSz b
  | UseMmap =>
      exists a, buf b = Some a /\ len a = maxSz b /\ offset b <= maxSz b /\
                fd b <> None
  | UseInvalid => False
  end.

(** A record as it lies in the buffer. *)
Definition enc (p : list byte) : list byte := be32 (GoInt.to_uint32 (len p)) ++ p.

Definition encs (ps : list (list byte)) : list byte := flat_map enc ps.

(** The length prefix holds the length of the payload. *)
Definition fits (p : list byte) : Prop := len p < 2 ^ 32.

(** The amount by which [Grow(n)] raises a current size [c]. *)
Definition growBy (c n : Z) : Z :=
  let g := c +i n in
  let g := if g >? 2 ^ 30 then 2 ^ 30 else g in
  if n >? g then n else g.

(** Two states of a buffer that differ at most in the bytes of the
    region. *)
Definition same_frame (b b' : Buffer) : Prop :=
  offset b' = offset b /\ curSz b' = curSz b /\ maxSz b' = maxSz b /\
  fd b' = fd b /\ bufType b' = bufType b /\ calls b' = calls b /\
  len (bytes b') = len (bytes b) /\ (buf b = None <-> buf b' = None).

(** The calls a caller can make on a buffer. *)
Inductive op : Type :=
| OpGrow (n : Z)
| OpAllocate (n : Z)
| OpAllocateOffset (n : Z)
| OpSliceAllocate (sz : Z)
| OpSliceAllocateOffset (sz : Z)
| OpWrite (p : list byte)
| OpWriteAt (p : list byte) (off : Z)
| OpWriteSliceAt (p : list byte) (off : Z)
| OpReset
| OpSortSliceBetween (start end_ : Z) (less : LessFunc)
| OpSortSlice (less : LessFunc).

(** The sizes passed are sizes: not negative, and an [int]. *)
Definition sized (o : op) : Prop :=
  match o with
  | OpGrow n | OpAllocate n | OpAllocateOffset n
  | OpSliceAllocate n | OpSliceAllocateOffset n => 0 <= n <= GoInt.max_int
  | OpWrite p | OpWriteAt p _ | OpWriteSliceAt p _ => len p <= GoInt.max_int
  | _ => True
  end.

Section Calls.

Variable sort_Slice : (Z -> Z -> bool) -> list Z -> list Z.
Variable scale : Z -> Z.

(** The buffer after a call that returns. *)
Definition step (b : Buffer) (o : op) : outcome Buffer :=
  match o with
  | OpGrow n => Grow b n
  | OpAllocate n => '(b, _) <- Allocate b n ;; Ok b
  | OpAllocateOffset n => '(b, _) <- AllocateOffset b n ;; Ok b
  | OpSliceAllocate sz => '(b, _) <- SliceAllocate b sz ;; Ok b
  | OpSliceAllocateOffset sz => '(b, _, _) <- SliceAllocateOffset b sz ;; Ok b
  | OpWrite p => '(b, _) <- Write b p ;; Ok b
  | OpWriteAt p off => '(b, _, _) <- WriteAt b p off ;; Ok b
  | OpWriteSliceAt p off => '(b, _, _) <- WriteSliceAt b p off ;; Ok b
  | OpReset => Ok (Reset b)
  | OpSortSliceBetween start end_ less =>
      SortSliceBetween sort_Slice scale b start end_ less
  | OpSortSlice less => SortSlice sort_Slice scale b less
  end.

(** The states a buffer goes through: built by [NewBufferWith] with a
    maximum that is not negative, then used with sizes. *)
Inductive reachable : Buffer -> Prop :=
| reach_new (sz mx : Z) (t : BufferType) (b : Buffer) :
    GoInt.in_int sz -> 0 <= mx <= GoInt.max_int ->
    NewBufferWith sz mx t = Ok (inl b) -> reachable b
| reach_step (b b' : Buffer) (o : op) :
    reachable b -> sized o -> step b o = Ok b' -> reachable b'.

End Calls.

(** The sorter writes bytes of [s.b.buf] and nothing else of [s.b]. *)
Definition kept (s s' : sortHelper.t) : Prop :=
  same_frame (sortHelper.b s) (sortHelper.b s') /\
  sortHelper.offsets s' = sortHelper.offsets s /\
  sortHelper.less s' = sortHelper.less s.

(** A valid buffer whose cursor is past the reserved byte and within the
    maximum size. *)
Definition bounded (b : Buffer) : Prop :=
  valid b /\ 1 <= offset b <= maxSz b.

(** What repeated [Slice] returns on the records [ps] laid from [off] up to
    the cursor: each payload with the offset of the next record, and 0 with
    the last. *)
Fixpoint trace (off : Z) (ps : list (list byte)) : list (option (list byte) * Z) :=
  match ps with
  | [] => []
  | [p] => [(Some p, 0)]
  | p :: ps => (Some p, off + 4 + len p) :: trace (off + 4 + len p) ps
  end.

(** ** Order *)

(** A strict weak ordering: irreflexive, transitive, and with a transitive
    incomparability. *)
Definition strict_weak_order {A : Type} (lt : A -> A -> bool) : Prop :=
  (forall x, lt x x = false) /\
  (forall x y z, lt x y = true -> lt y z = true -> lt x z = true) /\
  (forall x y z, lt x y = false -> lt y x = false ->
                 lt y z = false -> lt z y = false ->
                 lt x z = false /\ lt z x = false).

(** A strict total order on top: two elements that are not ordered are the
    same. *)
Definition strict_total_order {A : Type} (lt : A -> A -> bool) : Prop :=
  strict_weak_order lt /\
  (forall x y, lt x y = false -> lt y x = false -> x = y).

(** Non-decreasing: no element is less than one before it. *)
Definition nondecreasing {A : Type} (lt : A -> A -> bool) (l : list A) : Prop :=
  StronglySorted (fun x y => lt y x = false) l.

(** What is required of [sort.Slice]: the result is a rearrangement of the
    argument, in order when the comparison is a strict weak ordering. *)
Definition sort_contract (sort_Slice : (Z -> Z -> bool) -> list Z -> list Z) : Prop :=
  forall lt l,
    Permutation l (sort_Slice lt l) /\
    (strict_weak_order lt -> nondecreasing lt (sort_Slice lt l)).

(** What is required of the float64 product that sizes the scratch
    buffer. *)
Definition scale_contract (scale : Z -> Z) : Prop :=
  forall x, 0 <= x -> 0 <= scale x <= 2 * x.

(** The merge of two runs of payloads as [merge] does it: the left one
    goes first only when it is less. *)
Fixpoint merge_list (less : LessFunc) (ls : list (list byte))
  : list (list byte) -> list (list byte) :=
  fix inner (rs : list (list byte)) : list (list byte) :=
    match ls, rs with
    | [], _ => rs
    | _, [] => ls
    | l :: ls', r :: rs' =>
        if less l r then l :: merge_list less ls' rs else r :: inner rs'
    end.

(** ** Layout *)

(** The offsets of the records [ps] laid from [off]. *)
Fixpoint starts (off : Z) (ps : list (list byte)) : list Z :=
  match ps with
  | [] => []
  | p :: ps => off :: starts (off + 4 + len p) ps
  end.

(** The boundaries of the chunks [gs] laid from [off]: the start of each,
    and the end of the last. *)
Fixpoint boundaries (off : Z) (gs : list (list (list byte))) : list Z :=
  match gs with
  | [] => [off]
  | g :: gs => off :: boundaries (off + len (encs g)) gs
  end.

(** The scratch buffer of a sort whose range and scratch sizes stay within
    [B]: an off-heap buffer without a maximum, three times [B] at most. *)
Definition scratch (B : Z) (t : Buffer) : Prop :=
  valid t /\ bufType t = UseCalloc /\ maxSz t = GoInt.max_int /\
  curSz t <= 3 * B /\ 1 <= offset t.

(** The payloads met on the walk from [start] to [end_], the loop
    [for next != 0 && next < end] with [Slice]. *)
Definition decoded (b : Buffer) (start end_ : Z) : outcome (list (list byte)) :=
  os <- collect (Z.to_nat (end_ - start)) b start end_ [] ;;
  Ok (map (payload b) os).

(** The record with payload [p] lies at offset [o] of the region and ends
    by [e]. *)
Definition record_at (b : Buffer) (e o : Z) (p : list byte) : Prop :=
  exists pre post, bytes b = pre ++ enc p ++ post /\ len pre = o /\ fits p /\
                   o + 4 + len p <= e.

(** ** Comparisons used in the examples *)

(** The order of [bytes.Compare]: byte by byte, a prefix first. *)
Fixpoint lex_less (a b : list byte) : bool :=
  match a, b with
  | _, [] => false
  | [], _ :: _ => true
  | x :: a', y :: b' =>
      if N.ltb (Byte.to_N x) (Byte.to_N y) then true
      else if N.ltb (Byte.to_N y) (Byte.to_N x) then false
      else lex_less a' b'
  end.

(** The first byte of a payload as its key; a payload without one is
    smallest. *)
Definition key (a : list byte) : N :=
  match a with
  | [] => 0%N
  | x :: _ => (1 + Byte.to_N x)%N
  end.

(** The order by key alone. *)
Definition key_less (a b : list byte) : bool := N.ltb (key a) (key b).

(** ** Allocations *)

(** The regions obtained from [Calloc] and not yet given to [Free],
    counted over a record of calls. *)
Fixpoint live (cs : list call) : Z :=
  match cs with
  | [] => 0
  | CallCalloc _ :: cs => 1 + live cs
  | CallFree :: cs => live cs - 1
  | _ :: cs => live cs
  end.


(** Two states of a buffer that differ at most in the cursor and in the
    bytes of the region. *)
Definition same_fields (b b' : Buffer) : Prop :=
  fd b' = fd b /\ curSz b' = curSz b /\ maxSz b' = maxSz b /\
  bufType b' = bufType b /\ calls b' = calls b.

(** What the operations do to a buffer: calls of [Grow], and changes of the
    cursor and of the bytes of the region. *)
Inductive evolves : Buffer -> Buffer -> Prop :=
| ev_refl (b : Buffer) : evolves b b
| ev_grow (b b1 b' : Buffer) (n : Z) :
    Grow b n = Ok b1 -> evolves b1 b' -> evolves b b'
| ev_fields (b b1 b' : Buffer) :
    same_fields b b1 -> evolves b1 b' -> evolves b b'.

(** The file under a mapped buffer is as long as the current size. *)
Definition file_sized (b : Buffer) : Prop :=
  bufType b = UseMmap -> exists f, fd b = Some f /\ fsize f = curSz b.

(** * Properties *)

Unset Implicit Arguments.

#[local] Arguments Z.add : simpl never.
#[local] Arguments Z.sub : simpl never.
#[local] Arguments Z.mul : simpl never.
#[local] Arguments Z.opp : simpl never.
#[local] Arguments Z.pow : simpl never.
#[local] Arguments Z.quot : simpl never.
#[local] Arguments Z.rem : simpl never.
#[local] Arguments Z.modulo : simpl never.
#[local] Arguments Z.min : simpl never.
#[local] Arguments Z.max : simpl never.
#[local] Arguments Z.of_nat : simpl never.
#[local] Arguments Z.to_nat : simpl never.
#[local] Arguments Z.ltb : simpl never.
#[local] Arguments Z.leb : simpl never.
#[local] Arguments Z.gtb : simpl never.
#[local] Arguments Z.geb : simpl never.
#[local] Arguments Z.eqb : simpl never.
#[local] Arguments GoInt.add : simpl never.
#[local] Arguments GoInt.sub : simpl never.
#[local] Arguments copy : simpl never.
#[local] Arguments read : simpl never.
#[local] Arguments take : simpl never.
#[local] Arguments drop : simpl never.
#[local] Arguments len : simpl never.
#[local] Arguments be32 : simpl never.
#[local] Arguments resize : simpl never.
#[local] Arguments cut : simpl never.

(** ** Integers *)

(** Comparisons of the source, as propositions. *)
Ltac zbool :=
  repeat match goal with
  | H : (?x >=? ?y) = _ |- _ => rewrite (Z.geb_leb x y) in H
  | H : (?x >? ?y) = _ |- _ => rewrite (Z.gtb_ltb x y) in H
  end;
  repeat match goal with
  | H : (_ <=? _) = true |- _ => apply Z.leb_le in H
  | H : (_ <=? _) = false |- _ => apply Z.leb_gt in H
  | H : (_ <? _) = true |- _ => apply Z.ltb_lt in H
  | H : (_ <? _) = false |- _ => apply Z.ltb_ge in H
  | H : (_ =? _) = true |- _ => apply Z.eqb_eq in H
  | H : (_ =? _) = false |- _ => apply Z.eqb_neq in H
  end.

Lemma wrap_small (z : Z) : GoInt.in_int z -> GoInt.wrap z = z.
Proof.
  unfold GoInt.in_int, GoInt.wrap, GoInt.min_int, GoInt.max_int. intros H.
  rewrite Z.mod_small; lia.
Qed.

Lemma wrap_in_int (z : Z) : GoInt.in_int (GoInt.wrap z).
Proof.
  unfold GoInt.in_int, GoInt.wrap, GoInt.min_int, GoInt.max_int.
  pose proof (Z.mod_pos_bound (z + 2 ^ 63) (2 ^ 64) ltac:(lia)). lia.
Qed.

Lemma add_small (x y : Z) : GoInt.in_int (x + y) -> x +i y = x + y.
Proof. apply wrap_small. Qed.

Lemma sub_small (x y : Z) : GoInt.in_int (x - y) -> x -i y = x - y.
Proof. apply wrap_small. Qed.

(** ** Lists as byte slices *)

Ltac llia := unfold len in *; lia.

Lemma len_nonneg {A : Type} (l : list A) : 0 <= len l.
Proof. unfold len. lia. Qed.

Lemma len_app {A : Type} (l1 l2 : list A) : len (l1 ++ l2) = len l1 + len l2.
Proof. unfold len. rewrite length_app. lia. Qed.

Lemma len_cons {A : Type} (x : A) (l : list A) : len (x :: l) = 1 + len l.
Proof. unfold len. simpl List.length. lia. Qed.

Lemma len_nil {A : Type} : len (@nil A) = 0.
Proof. reflexivity. Qed.

Lemma len_repeat {A : Type} (x : A) (n : nat) : len (repeat x n) = Z.of_nat n.
Proof. unfold len. now rewrite repeat_length. Qed.

Lemma len_take {A : Type} (n : Z) (l : list A) :
  len (take n l) = Z.min (Z.max 0 n) (len l).
Proof. unfold len, take. rewrite length_firstn. lia. Qed.

Lemma len_drop {A : Type} (n : Z) (l : list A) :
  len (drop n l) = len l - Z.min (Z.max 0 n) (len l).
Proof. unfold len, drop. rewrite length_skipn. lia. Qed.

Lemma take_app_exact {A : Type} (l1 l2 : list A) : take (len l1) (l1 ++ l2) = l1.
Proof.
  unfold take, len. rewrite Nat2Z.id.
  rewrite firstn_app, Nat.sub_diag, firstn_all. simpl. apply app_nil_r.
Qed.

Lemma drop_app_exact {A : Type} (l1 l2 : list A) : drop (len l1) (l1 ++ l2) = l2.
Proof.
  unfold drop, len. rewrite Nat2Z.id.
  rewrite skipn_app, Nat.sub_diag, skipn_all. reflexivity.
Qed.

Lemma take_all {A : Type} (n : Z) (l : list A) : len l <= n -> take n l = l.
Proof. unfold take, len. intros H. apply firstn_all2. lia. Qed.

Lemma drop_all {A : Type} (n : Z) (l : list A) : len l <= n -> drop n l = [].
Proof. unfold drop, len. intros H. apply skipn_all2. lia. Qed.

Lemma take_nonpos {A : Type} (n : Z) (l : list A) : n <= 0 -> take n l = [].
Proof. unfold take. intros H. replace (Z.to_nat n) with O by lia. reflexivity. Qed.

Lemma drop_nonpos {A : Type} (n : Z) (l : list A) : n <= 0 -> drop n l = l.
Proof. unfold drop. intros H. replace (Z.to_nat n) with O by lia. reflexivity. Qed.

Lemma take_drop_id {A : Type} (n : Z) (l : list A) : take n l ++ drop n l = l.
Proof. apply firstn_skipn. Qed.

Lemma take_app_le {A : Type} (n : Z) (l1 l2 : list A) :
  n <= len l1 -> take n (l1 ++ l2) = take n l1.
Proof.
  unfold take, len. intros H. rewrite firstn_app.
  replace (Z.to_nat n - List.length l1)%nat with O by lia.
  simpl. apply app_nil_r.
Qed.

Lemma take_app_ge {A : Type} (n : Z) (l1 l2 : list A) :
  len l1 <= n -> take n (l1 ++ l2) = l1 ++ take (n - len l1) l2.
Proof.
  unfold take, len. intros H. rewrite firstn_app.
  rewrite firstn_all2 by lia. f_equal. f_equal. lia.
Qed.

Lemma drop_app_le {A : Type} (n : Z) (l1 l2 : list A) :
  n <= len l1 -> drop n (l1 ++ l2) = drop n l1 ++ l2.
Proof.
  unfold drop, len. intros H. rewrite skipn_app.
  replace (Z.to_nat n - List.length l1)%nat with O by lia. reflexivity.
Qed.

Lemma drop_app_ge {A : Type} (n : Z) (l1 l2 : list A) :
  len l1 <= n -> drop n (l1 ++ l2) = drop (n - len l1) l2.
Proof.
  unfold drop, len. intros H. rewrite skipn_app.
  rewrite skipn_all2 by lia. simpl. f_equal. lia.
Qed.

(** Reading and writing the middle of an array. *)

Lemma read_middle (pre x post : list byte) (lo hi : Z) :
  lo = len pre -> hi = len pre + len x -> read (pre ++ x ++ post) (lo, hi) = x.
Proof.
  intros -> ->. unfold read, span_len. simpl.
  rewrite drop_app_exact.
  replace (len pre + len x - len pre) with (len x) by llia.
  apply take_app_exact.
Qed.

Lemma copy_middle (pre old post src : list byte) (lo hi : Z) :
  lo = len pre -> len src <= hi - lo -> len old = len src ->
  copy (pre ++ old ++ post) (lo, hi) src = (pre ++ src ++ post, len src).
Proof.
  intros -> Hle Hlen. unfold copy, span_len. simpl.
  rewrite Z.min_r by llia.
  rewrite take_app_exact, (take_all (len src) src) by llia.
  rewrite drop_app_ge by llia.
  replace (len pre + len src - len pre) with (len old) by llia.
  now rewrite drop_app_exact.
Qed.

Lemma slice_ok (a : list byte) (lo hi : Z) :
  0 <= lo <= hi -> hi <= len a -> slice a lo hi = Ok (lo, hi).
Proof.
  intros H1 H2. unfold slice.
  replace ((0 <=? lo) && (lo <=? hi) && (hi <=? len a)) with true; [reflexivity|].
  symmetry. rewrite !andb_true_iff, !Z.leb_le. lia.
Qed.

Lemma slice_inv (a : list byte) (lo hi : Z) (s : span) :
  slice a lo hi = Ok s -> s = (lo, hi) /\ 0 <= lo <= hi /\ hi <= len a.
Proof.
  unfold slice. destruct ((0 <=? lo) && (lo <=? hi) && (hi <=? len a)) eqn:E;
    [|discriminate].
  rewrite !andb_true_iff, !Z.leb_le in E. intros [= <-]. split; [reflexivity|lia].
Qed.

Lemma len_copy (a : list byte) (d : span) (src : list byte) :
  0 <= fst d <= snd d -> snd d <= len a -> len (fst (copy a d src)) = len a.
Proof.
  intros H1 H2. unfold copy, span_len. simpl.
  rewrite !len_app, !len_take, len_drop. llia.
Qed.

Lemma copy_front (a src : list byte) (k : Z) :
  len src <= k -> fst (copy a (0, k) src) = src ++ drop (len src) a.
Proof.
  intros H. unfold copy, span_len. cbn [fst snd].
  rewrite Z.sub_0_r, Z.min_r by lia.
  rewrite (take_nonpos 0) by lia. rewrite (take_all (len src)) by lia.
  reflexivity.
Qed.

Lemma take_take_exact {A : Type} (n : Z) (l l' : list A) :
  0 <= n <= len l -> take n (take n l ++ l') = take n l.
Proof.
  intros H. rewrite take_app_le by (rewrite len_take; llia).
  apply take_all. rewrite len_take. llia.
Qed.

Lemma len_zero_nil {A : Type} (l : list A) : len l <= 0 -> l = [].
Proof. destruct l; [reflexivity|]. unfold len. simpl List.length. lia. Qed.

(** ** Files *)

Lemma len_resize (d : list byte) (sz : Z) : 0 <= sz -> len (resize d sz) = sz.
Proof.
  intros H. unfold resize. rewrite len_app, len_take, len_repeat.
  pose proof (len_nonneg d). lia.
Qed.

Lemma resize_le (d : list byte) (sz : Z) : sz <= len d -> resize d sz = take sz d.
Proof.
  intros H. unfold resize.
  replace (Z.to_nat (sz - len d)) with 0%nat by lia.
  apply app_nil_r.
Qed.

Lemma resize_ge (d : list byte) (sz : Z) :
  len d <= sz -> resize d sz = d ++ repeat x00 (Z.to_nat (sz - len d)).
Proof.
  intros H. unfold resize. now rewrite take_all.
Qed.

Lemma len_cut (a : list byte) (sz : Z) : len (cut a sz) = len a.
Proof. unfold cut. apply len_resize, len_nonneg. Qed.

Lemma cut_ge (a : list byte) (sz : Z) : len a <= sz -> cut a sz = a.
Proof.
  intros H. unfold cut. rewrite (resize_ge a sz H).
  rewrite resize_le by (rewrite len_app, len_repeat; lia).
  apply take_app_exact.
Qed.

Lemma take_cut (a : list byte) (sz o : Z) : o <= sz -> take o (cut a sz) = take o a.
Proof.
  intros H. destruct (Z_le_gt_dec (len a) sz) as [G|G].
  - now rewrite cut_ge.
  - unfold cut. rewrite (resize_le a sz) by lia.
    rewrite resize_ge by (rewrite len_take; lia).
    destruct (Z_le_gt_dec o 0) as [N|N].
    + now rewrite !take_nonpos.
    + rewrite take_app_le by (rewrite len_take; lia).
      unfold take. rewrite firstn_firstn. f_equal. lia.
Qed.

(** ** Accessors *)




(** ** Slice *)

(** C6: at an offset that is not below the write cursor, [Slice] returns
    the nil slice and the sentinel 0, whatever the region holds (even none):
    no byte of it is read. *)
Theorem Slice_past_cursor (b : Buffer) (off : Z) :
  off >= offset b ->
  Slice b off = Ok (None, 0) /\
  forall region,
    Slice (mkBuffer region (offset b) (curSz b) (maxSz b) (fd b) (bufType b) (calls b))
      off = Ok (None, 0).
Proof.
  intros H. unfold Slice. simpl.
  destruct (off >=? offset b) eqn:E; [split; reflexivity|].
  zbool. lia.
Qed.

Lemma Slice_past_cursor_witness :
  Slice (mkBuffer (Some [x00; x01]) 1 2 2 None UseCalloc []) 1 = Ok (None, 0).
Proof.
  apply (Slice_past_cursor (mkBuffer (Some [x00; x01]) 1 2 2 None UseCalloc []) 1).
  simpl. lia.
Defined.

(** ** Grow *)

Lemma Grow_unfold_some (b : Buffer) (n : Z) (old : list byte) :
  buf b = Some old ->
  Grow b n =
  if maxSz b -i offset b <? n then Fail (Panic "Buffer max size exceeded")
  else if curSz b -i offset b >? n then Ok b
  else
    let growBy := curSz b +i n in
    let growBy := if growBy >? 2 ^ 30 then 2 ^ 30 else growBy in
    let growBy := if n >? growBy then n else growBy in
    let b := set_curSz b (curSz b +i growBy) in
    match bufType b with
    | UseCalloc =>
        newBuf <- Calloc (curSz b) ;;
        s <- slice old 0 (offset b) ;;
        let newBuf := fst (copy newBuf (0, len newBuf) (read old s)) in
        Ok (log_calls (set_buf b newBuf) [CallCalloc (curSz b); CallFree])
    | UseMmap =>
        match fd b with
        | None => Fail (Panic "nil pointer dereference")
        | Some f =>
            match Truncate f (curSz b) with
            | None => Fail (Fatal "While trying to truncate file")
            | Some f' =>
                Ok (log_calls (set_buf (set_fd b f') (cut old (curSz b)))
                      [CallTruncate (curSz b)])
            end
        end
    | UseInvalid => Ok b
    end.
Proof. intros H. unfold Grow. now rewrite H. Qed.

(** C4, as the code has it: on an initialised buffer [Grow(n)] panics on
    its size guard exactly when [maxSz - offset < n]; when the guard does not
    fire and the room left, [curSz - offset], exceeds [n], the buffer comes
    back as it was: no field changes and no call to the allocator or to the
    file is recorded. *)
Theorem Grow_guard_then_noop (b : Buffer) (n : Z) :
  buf b <> None ->
  (Grow b n = Fail (Panic "Buffer max size exceeded") <->
     maxSz b -i offset b < n) /\
  (maxSz b -i offset b >= n -> curSz b -i offset b > n -> Grow b n = Ok b).
Proof.
  intros Hb. destruct (buf b) as [old|] eqn:E; [clear Hb|congruence].
  rewrite (Grow_unfold_some b n old E). split.
  - destruct (maxSz b -i offset b <? n) eqn:G; zbool.
    + tauto.
    + split; [|lia]. intros H. exfalso.
      destruct (curSz b -i offset b >? n); [discriminate H|].
      cbv zeta in H. simpl in H. destruct (bufType b).
      * unfold Calloc in H. destruct (_ <? 0); simpl in H; [discriminate H|].
        unfold slice in H. destruct (_ && _); simpl in H; discriminate H.
      * destruct (fd b); [|discriminate H].
        destruct (Truncate _ _); discriminate H.
      * discriminate H.
  - intros H1 H2.
    destruct (maxSz b -i offset b <? n) eqn:G; zbool; [lia|].
    destruct (curSz b -i offset b >? n) eqn:G'; zbool; [reflexivity|lia].
Qed.

Lemma Grow_guard_then_noop_witness :
  Grow (mkBuffer (Some [x00; x00; x00; x00]) 1 4 10 None UseCalloc []) 2
  = Ok (mkBuffer (Some [x00; x00; x00; x00]) 1 4 10 None UseCalloc []).
Proof.
  apply (Grow_guard_then_noop
           (mkBuffer (Some [x00; x00; x00; x00]) 1 4 10 None UseCalloc []) 2).
  - discriminate.
  - vm_compute. discriminate.
  - vm_compute. reflexivity.
Defined.

(** C4 as stated fails: a buffer built with a size above its maximum has
    room for 20 bytes, and [Grow(20)] panics. *)
Lemma Grow_noop_counterexample :
  exists b, NewBufferWith 64 10 UseCalloc = Ok (inl b) /\
            buf b <> None /\
            curSz b -i offset b > 20 /\
            Grow b 20 <> Ok b /\
            Grow b 20 = Fail (Panic "Buffer max size exceeded").
Proof.
  eexists. split; [vm_compute; reflexivity|].
  split; [vm_compute; intro H; discriminate H|]. split; [vm_compute; reflexivity|].
  split; [vm_compute; intro H; discriminate H|vm_compute; reflexivity].
Qed.

(** ** Random access *)

(** C7, as the code has it: [WriteAt], [WriteSliceAt] and [ReadAt] return
    their error exactly when the end of the span, computed in [int], exceeds
    [len(b.buf)], the length of the region; with the error the buffer is
    returned as it was; and a call that returns never changes the cursor, the
    current size, the length of the region or the calls made. *)
Theorem random_access_bounds (b : Buffer) (p : list byte) (n off : Z) :
  ((exists b' k e, WriteAt b p off = Ok (b', k, Some e)) <->
     off +i len p > len (bytes b)) /\
  ((exists b' k e, WriteSliceAt b p off = Ok (b', k, Some e)) <->
     off +i 4 +i len p > len (bytes b)) /\
  ((exists e, ReadAt b n off = Ok (inr e)) <-> off +i n > len (bytes b)) /\
  (forall b' k e, WriteAt b p off = Ok (b', k, Some e) -> b' = b /\ k = 0) /\
  (forall b' k e, WriteSliceAt b p off = Ok (b', k, Some e) -> b' = b /\ k = 0) /\
  (forall b' k r, WriteAt b p off = Ok (b', k, r) \/
                  WriteSliceAt b p off = Ok (b', k, r) ->
     offset b' = offset b /\ curSz b' = curSz b /\
     len (bytes b') = len (bytes b) /\ calls b' = calls b).
Proof.
  assert (Hstore : forall a, len a = len (bytes b) ->
            offset (store b a) = offset b /\ curSz (store b a) = curSz b /\
            len (bytes (store b a)) = len (bytes b) /\ calls (store b a) = calls b).
  { intros a Ha. unfold store, bytes in *.
    destruct b as [[o|] ? ? ? ? ? ?]; simpl in *; repeat split; auto. }
  split; [|split; [|split; [|split; [|split]]]].
  - split.
    + intros (b' & k & e & H). unfold WriteAt in H.
      destruct (off +i len p >? len (bytes b)) eqn:G; zbool; [lia|].
      destruct (slice _ _ _); cbn [bind] in H; [|discriminate].
      destruct (copy _ _ _). discriminate.
    + intros H. unfold WriteAt.
      destruct (off +i len p >? len (bytes b)) eqn:G; zbool; [|lia].
      now eexists _, _, _.
  - split.
    + intros (b' & k & e & H). unfold WriteSliceAt in H.
      destruct (off +i 4 +i len p >? len (bytes b)) eqn:G; zbool; [lia|].
      destruct (slice _ _ _); cbn [bind] in H; [|discriminate].
      destruct (PutUint32 _ _ _); cbn [bind] in H; [|discriminate].
      destruct (slice _ _ _); cbn [bind] in H; [|discriminate].
      destruct (copy _ _ _). discriminate.
    + intros H. unfold WriteSliceAt.
      destruct (off +i 4 +i len p >? len (bytes b)) eqn:G; zbool; [|lia].
      now eexists _, _, _.
  - split.
    + intros (e & H). unfold ReadAt in H.
      destruct (off +i n >? len (bytes b)) eqn:G; zbool; [lia|].
      destruct (slice _ _ _); cbn [bind] in H; discriminate.
    + intros H. unfold ReadAt.
      destruct (off +i n >? len (bytes b)) eqn:G; zbool; [|lia].
      now eexists.
  - intros b' k e H. unfold WriteAt in H.
    destruct (off +i len p >? len (bytes b)).
    + injection H as <- <- _. now split.
    + destruct (slice _ _ _); cbn [bind] in H; [|discriminate].
      destruct (copy _ _ _). discriminate.
  - intros b' k e H. unfold WriteSliceAt in H.
    destruct (off +i 4 +i len p >? len (bytes b)).
    + injection H as <- <- _. now split.
    + destruct (slice _ _ _); cbn [bind] in H; [|discriminate].
      destruct (PutUint32 _ _ _); cbn [bind] in H; [|discriminate].
      destruct (slice _ _ _); cbn [bind] in H; [|discriminate].
      destruct (copy _ _ _). discriminate.
  - intros b' k r [H|H].
    + unfold WriteAt in H. destruct (off +i len p >? len (bytes b)).
      * injection H as <- _ _. now repeat split.
      * destruct (slice _ _ _) as [d|] eqn:S; cbn [bind] in H; [|discriminate].
        apply slice_inv in S as (-> & S1 & S2).
        pose proof (len_copy (bytes b) (off, len (bytes b)) p) as L.
        destruct (copy _ _ _) as [a k']. injection H as <- _ _.
        apply Hstore. apply L; simpl; lia.
    + unfold WriteSliceAt in H. destruct (off +i 4 +i len p >? len (bytes b)).
      * injection H as <- _ _. now repeat split.
      * destruct (slice _ _ _) as [h|] eqn:S; cbn [bind] in H; [|discriminate].
        apply slice_inv in S as (-> & S1 & S2).
        unfold PutUint32 in H.
        destruct (span_len _ <? 4); cbn [bind] in H; [discriminate|].
        pose proof (len_copy (bytes b) (off, off +i 4)
                      (be32 (GoInt.to_uint32 (len p)))) as L1.
        simpl in L1. specialize (L1 S1 S2).
        destruct (slice _ _ _) as [d|] eqn:S'; cbn [bind] in H; [|discriminate].
        apply slice_inv in S' as (-> & S3 & S4).
        match type of H with context [copy ?a ?d ?q] =>
          pose proof (len_copy a d q) as L2; destruct (copy a d q) as [a' k'] end.
        injection H as <- _ _. apply Hstore.
        simpl in L2. rewrite L2; [exact L1|lia|lia].
Qed.

Lemma random_access_bounds_witness :
  WriteAt (mkBuffer (Some [x00; x00]) 1 2 2 None UseCalloc []) [x01] 5
  = Ok (mkBuffer (Some [x00; x00]) 1 2 2 None UseCalloc [], 0, Some (ErrWrite 1 5)).
Proof.
  destruct (proj1 (proj2 (proj2 (proj2
    (random_access_bounds (mkBuffer (Some [x00; x00]) 1 2 2 None UseCalloc [])
       [x01] 0 5)))) (mkBuffer (Some [x00; x00]) 1 2 2 None UseCalloc []) 0
       (ErrWrite 1 5)) as [_ _]; vm_compute; reflexivity.
Defined.

(** C7 as stated fails on a mapped buffer: its region is as long as the
    maximum size, so a write past the current size returns no error. *)
Lemma random_access_counterexample :
  exists b, NewBufferWith 64 100 UseMmap = Ok (inl b) /\
            80 + len [x01] > curSz b /\
            exists b', WriteAt b [x01] 80 = Ok (b', 1, None).
Proof.
  eexists. split; [vm_compute; reflexivity|].
  split; [vm_compute; reflexivity|].
  eexists. vm_compute. reflexivity.
Qed.

(** What a call of [Grow] that returns has done. *)
Lemma Grow_inv (b b' : Buffer) (n : Z) :
  Grow b n = Ok b' ->
  exists old, buf b = Some old /\ n <= maxSz b -i offset b /\
  ((n < curSz b -i offset b /\ b' = b) \/
   (curSz b -i offset b <= n /\
    offset b' = offset b /\ maxSz b' = maxSz b /\ bufType b' = bufType b /\
    curSz b' = curSz b +i growBy (curSz b) n /\
    match bufType b with
    | UseCalloc =>
        0 <= curSz b' /\ 0 <= offset b <= len old /\ fd b' = fd b /\
        buf b' = Some (fst (copy (repeat x00 (Z.to_nat (curSz b'))) (0, curSz b')
                              (take (offset b) old))) /\
        calls b' = calls b ++ [CallCalloc (curSz b'); CallFree]
    | UseMmap =>
        0 <= curSz b' /\ buf b' = Some (cut old (curSz b')) /\
        fd b <> None /\ fd b' <> None /\
        calls b' = calls b ++ [CallTruncate (curSz b')]
    | UseInvalid => buf b' = buf b /\ fd b' = fd b /\ calls b' = calls b
    end)).
Proof.
  intros H. destruct (buf b) as [old|] eqn:E.
  2:{ unfold Grow in H. rewrite E in H. discriminate. }
  rewrite (Grow_unfold_some b n old E) in H.
  exists old. split; [reflexivity|].
  destruct (maxSz b -i offset b <? n) eqn:G; [discriminate|].
  destruct (curSz b -i offset b >? n) eqn:G'; zbool.
  { split; [lia|]. left. split; [lia|congruence]. }
  split; [lia|]. right. split; [lia|].
  cbv zeta in H. fold (growBy (curSz b) n) in H. simpl in H.
  destruct (bufType b) eqn:T.
  - unfold Calloc in H.
    destruct (curSz b +i growBy (curSz b) n <? 0) eqn:C; cbn [bind] in H;
      [discriminate|]. zbool.
    destruct (slice old 0 (offset b)) as [s|] eqn:S; cbn [bind] in H;
      [|discriminate].
    apply slice_inv in S as (-> & S1 & S2).
    injection H as <-. simpl. rewrite T.
    repeat split; try lia.
    rewrite len_repeat, Z2Nat.id by lia.
    unfold read, span_len. simpl. rewrite drop_nonpos by lia.
    now rewrite !(Z.sub_0_r (offset b)).
  - destruct (fd b) eqn:F; [|discriminate].
    unfold Truncate in H.
    destruct (curSz b +i growBy (curSz b) n <? 0) eqn:C; [discriminate|]. zbool.
    injection H as <-. simpl. rewrite T. repeat split; try lia; discriminate.
  - injection H as <-. simpl. rewrite T. repeat split; assumption.
Qed.

Lemma growBy_ge (c n : Z) : n <= growBy c n.
Proof.
  unfold growBy. cbv zeta.
  destruct (n >? (if c +i n >? 2 ^ 30 then 2 ^ 30 else c +i n)) eqn:G; zbool; lia.
Qed.

Lemma growBy_in_int (c n : Z) : GoInt.in_int n -> GoInt.in_int (growBy c n).
Proof.
  intros Hn. unfold growBy. cbv zeta.
  pose proof (wrap_in_int (c + n)) as W. fold (c +i n) in W.
  destruct (c +i n >? 2 ^ 30); destruct (n >? _); try assumption;
    unfold GoInt.in_int, GoInt.min_int, GoInt.max_int; lia.
Qed.

(** [Grow] on a valid buffer: the buffer stays valid, only the current size
    and the region move, the bytes below the cursor stay, and [n] more bytes
    fit. *)
Lemma Grow_valid (b b' : Buffer) (n : Z) :
  valid b -> GoInt.in_int n -> Grow b n = Ok b' ->
  valid b' /\ offset b' = offset b /\ maxSz b' = maxSz b /\
  bufType b' = bufType b /\ curSz b <= curSz b' /\
  take (offset b) (bytes b') = take (offset b) (bytes b) /\
  len (bytes b) <= len (bytes b') /\
  (0 <= n -> offset b + n <= curSz b') /\
  (0 <= maxSz b -> offset b + n <= maxSz b).
Proof.
  intros (Ho & Hc & Hm & Hk) Hn H.
  apply Grow_inv in H as (old & E & G & [(G1 & ->)|(G1 & Eo & Em & Et & Ec & Hx)]).
  - assert (S1 : curSz b -i offset b = curSz b - offset b).
    { apply sub_small. unfold GoInt.in_int, GoInt.min_int, GoInt.max_int in *. lia. }
    repeat split; try tauto; try lia; try apply Hm.
    intros M. rewrite sub_small in G; [lia|].
    unfold GoInt.in_int, GoInt.min_int, GoInt.max_int in *. lia.
  - assert (S1 : curSz b -i offset b = curSz b - offset b).
    { apply sub_small. unfold GoInt.in_int, GoInt.min_int, GoInt.max_int in *. lia. }
    assert (N0 : 0 <= n) by lia.
    pose proof (growBy_ge (curSz b) n) as Gg.
    pose proof (growBy_in_int (curSz b) n Hn) as Gi.
    assert (M : 0 <= maxSz b -> offset b + n <= maxSz b).
    { intros M. rewrite sub_small in G; [lia|].
      unfold GoInt.in_int, GoInt.min_int, GoInt.max_int in *. lia. }
    assert (Ec' : 0 <= curSz b' -> curSz b' = curSz b + growBy (curSz b) n).
    { intros P. rewrite Ec in *. unfold GoInt.add, GoInt.wrap in *.
      unfold GoInt.in_int, GoInt.min_int, GoInt.max_int in *.
      pose proof (Z.mod_pos_bound (curSz b + growBy (curSz b) n + 2 ^ 63) (2 ^ 64)
                    ltac:(lia)) as B.
      assert (D : (curSz b + growBy (curSz b) n + 2 ^ 63) / 2 ^ 64 = 0
                  \/ (curSz b + growBy (curSz b) n + 2 ^ 63) / 2 ^ 64 = 1).
      { assert (0 <= (curSz b + growBy (curSz b) n + 2 ^ 63) / 2 ^ 64 < 2); [|lia].
        split; [apply Z.div_pos; lia|apply Z.div_lt_upper_bound; lia]. }
      pose proof (Z.div_mod (curSz b + growBy (curSz b) n + 2 ^ 63) (2 ^ 64)
                    ltac:(lia)) as DM.
      lia. }
    unfold valid. rewrite Eo, Em, Et.
    destruct (bufType b) eqn:T.
    + destruct Hx as (P & Q & F & Eb & Ecalls).
      destruct Hk as (a & Ea & La). rewrite E in Ea. injection Ea as <-.
      specialize (Ec' P).
      assert (Lb : len (bytes b') = curSz b').
      { unfold bytes. rewrite Eb. rewrite len_copy; simpl;
          rewrite ?len_repeat; lia. }
      assert (Bb : bytes b = old) by (unfold bytes; now rewrite E).
      repeat split; try lia.
      * pose proof (wrap_in_int (curSz b + growBy (curSz b) n)) as W.
        fold (curSz b +i growBy (curSz b) n) in W. rewrite <- Ec in W.
        unfold GoInt.in_int in W. lia.
      * apply Hm.
      * apply Hm.
      * exists (bytes b'). split; [|exact Lb]. unfold bytes. now rewrite Eb.
      * rewrite Bb. unfold bytes. rewrite Eb.
        rewrite copy_front by (rewrite len_take; llia).
        apply take_take_exact. lia.
      * rewrite Lb, Bb. lia.
    + destruct Hx as (P & Eb & F & F' & Ecalls).
      destruct Hk as (a & Ea & La & Lo & _). rewrite E in Ea. injection Ea as <-.
      specialize (Ec' P).
      assert (Bo : bytes b = old) by (unfold bytes; now rewrite E).
      assert (Bb : bytes b' = cut old (curSz b'))
        by (unfold bytes; now rewrite Eb).
      rewrite Bb, Bo, len_cut.
      repeat split; try lia.
      * pose proof (wrap_in_int (curSz b + growBy (curSz b) n)) as W.
        fold (curSz b +i growBy (curSz b) n) in W. rewrite <- Ec in W.
        unfold GoInt.in_int in W. lia.
      * apply Hm.
      * apply Hm.
      * exists (cut old (curSz b')). rewrite len_cut.
        repeat split; try assumption.
      * apply take_cut. lia.
    + contradiction.
Qed.

Lemma read_take (a : list byte) (k lo hi : Z) :
  0 <= lo <= hi -> hi <= k -> read (take k a) (lo, hi) = read a (lo, hi).
Proof.
  intros H1 H2. unfold read, span_len, take, drop. cbn [fst snd].
  rewrite skipn_firstn_comm, firstn_firstn. f_equal. lia.
Qed.

(** A sum of two non-negative [int]s that does not come out negative has
    not wrapped. *)
Lemma add_nonneg_exact (c g : Z) :
  0 <= c <= GoInt.max_int -> 0 <= g <= GoInt.max_int -> 0 <= c +i g ->
  c +i g = c + g.
Proof.
  intros Hc Hg P. unfold GoInt.add, GoInt.wrap in *.
  unfold GoInt.max_int in *.
  pose proof (Z.mod_pos_bound (c + g + 2 ^ 63) (2 ^ 64) ltac:(lia)) as B.
  assert (D : (c + g + 2 ^ 63) / 2 ^ 64 = 0 \/ (c + g + 2 ^ 63) / 2 ^ 64 = 1).
  { assert (0 <= (c + g + 2 ^ 63) / 2 ^ 64 < 2); [|lia].
    split; [apply Z.div_pos; lia|apply Z.div_lt_upper_bound; lia]. }
  pose proof (Z.div_mod (c + g + 2 ^ 63) (2 ^ 64) ltac:(lia)) as DM.
  lia.
Qed.

(** X24: a call of [Grow] that returns on a buffer whose cursor is within
    the current size (and, for a mapped buffer, within the file) leaves the
    cursor where it was and every byte below it as it was, so that each
    record written before reads the same at the same offset.  The new
    region of an off-heap buffer gets a copy of the bytes below the cursor;
    the file of a mapped buffer is truncated to the new current size, which
    is not below the cursor. *)
Theorem Grow_keeps_written (b b' : Buffer) (n : Z) :
  GoInt.in_int n -> curSz b <= GoInt.max_int ->
  0 <= offset b <= curSz b ->
  (forall f, bufType b = UseMmap -> fd b = Some f -> offset b <= fsize f) ->
  Grow b n = Ok b' ->
  offset b' = offset b /\
  take (offset b) (bytes b') = take (offset b) (bytes b) /\
  forall lo hi, 0 <= lo <= hi -> hi <= offset b ->
    read (bytes b') (lo, hi) = read (bytes b) (lo, hi).
Proof.
  intros Hn Hc Hk _ H.
  assert (K : offset b' = offset b /\
              take (offset b) (bytes b') = take (offset b) (bytes b)).
  { apply Grow_inv in H as (old & E & G & [(G1 & ->)|(G1 & Eo & Em & Et & Ec & Hx)]).
    { split; reflexivity. }
    split; [exact Eo|].
    assert (S1 : curSz b -i offset b = curSz b - offset b).
    { apply sub_small.
      unfold GoInt.in_int, GoInt.min_int, GoInt.max_int in *. lia. }
    pose proof (growBy_ge (curSz b) n) as Gg.
    pose proof (growBy_in_int (curSz b) n Hn) as Gi.
    assert (Ec' : 0 <= curSz b' -> curSz b' = curSz b + growBy (curSz b) n).
    { intros P. rewrite Ec. apply add_nonneg_exact.
      - lia.
      - unfold GoInt.in_int in Gi. lia.
      - rewrite <- Ec. exact P. }
    assert (Bb : bytes b = old) by (unfold bytes; now rewrite E).
    destruct (bufType b) eqn:T.
    - destruct Hx as (P & Q & F & Eb & Ecalls).
      specialize (Ec' P).
      rewrite Bb. unfold bytes. rewrite Eb.
      rewrite copy_front by (rewrite len_take; llia).
      apply take_take_exact. lia.
    - destruct Hx as (P & Eb & _).
      specialize (Ec' P).
      rewrite Bb. unfold bytes. rewrite Eb.
      apply take_cut. lia.
    - destruct Hx as (Eb & _).
      unfold bytes. now rewrite Eb. }
  destruct K as (Eo & Et).
  split; [exact Eo|]. split; [exact Et|].
  intros lo hi H1 H2.
  rewrite <- (read_take (bytes b') (offset b)), <- (read_take (bytes b) (offset b))
    by assumption.
  now rewrite Et.
Qed.

Lemma Grow_keeps_written_witness :
  exists b', Grow (mkBuffer (Some [x00; x01; x02; x03]) 3 4 100 None UseCalloc []) 5
             = Ok b' /\
             curSz b' = 13 /\
             read (bytes b') (1, 3) = [x01; x02].
Proof.
  eexists. split; [vm_compute; reflexivity|]. split; [reflexivity|].
  refine (proj2 (proj2 (Grow_keeps_written
            (mkBuffer (Some [x00; x01; x02; x03]) 3 4 100 None UseCalloc []) _ 5
            _ _ _ _ _)) 1 3 _ _).
  - split; vm_compute; discriminate.
  - vm_compute. discriminate.
  - split; vm_compute; discriminate.
  - intros f T. discriminate T.
  - vm_compute. reflexivity.
  - lia.
  - simpl. lia.
Defined.

(** C5: growth is not transparent in every state.  A buffer opened by
    [NewMmapFile] over a file of 500 bytes with an initial size of 64 has
    its cursor at 500 and its current size at 64.  [Grow(10)] returns, with
    the current size at 138, and truncates the file to 138 bytes: the bytes
    of the file from 138 up to the cursor are lost, and the region reads
    zeroes there. *)
Theorem Grow_after_NewMmapFile_loses_bytes :
  exists b b',
    NewMmapFile (fun _ => Some (repeat x01 500)) 64 1000 0 "data" = Ok (inl b) /\
    offset b = 500 /\ curSz b = 64 /\
    read (bytes b) (0, 500) = repeat x01 500 /\
    Grow b 10 = Ok b' /\
    offset b' = 500 /\ curSz b' = 138 /\ fd b' = Some (mkFile 138) /\
    read (bytes b') (138, 500) = repeat x00 362 /\
    read (bytes b') (0, offset b) <> read (bytes b) (0, offset b).
Proof.
  eexists. eexists.
  split; [vm_compute; reflexivity|].
  split; [reflexivity|]. split; [reflexivity|].
  split; [vm_compute; reflexivity|].
  split; [vm_compute; reflexivity|].
  split; [reflexivity|]. split; [reflexivity|]. split; [reflexivity|].
  split; [vm_compute; reflexivity|].
  vm_compute. intros E. discriminate E.
Qed.

(** ** The guards of SortSliceBetween *)

(** C8, as the code has it: with [start = 0] and a positive [end] the call
    panics; with [start >= end], zero included, it returns at once and the
    buffer is as it was. *)
Theorem SortSliceBetween_guards
    (sort_Slice : (Z -> Z -> bool) -> list Z -> list Z) (scale : Z -> Z)
    (b : Buffer) (less : LessFunc) :
  (forall end_, 0 < end_ ->
     SortSliceBetween sort_Slice scale b 0 end_ less
     = Fail (Panic "start can never be zero")) /\
  (forall start end_, start >= end_ ->
     SortSliceBetween sort_Slice scale b start end_ less = Ok b).
Proof.
  split.
  - intros e H. unfold SortSliceBetween.
    destruct (0 >=? e) eqn:G; zbool; [lia|]. reflexivity.
  - intros s e H. unfold SortSliceBetween.
    destruct (s >=? e) eqn:G; zbool; [reflexivity|lia].
Qed.

Lemma SortSliceBetween_guards_witness :
  SortSliceBetween insertionSort scale11
    (mkBuffer (Some [x00]) 1 1 1 None UseCalloc []) 0 7 (fun _ _ => false)
  = Fail (Panic "start can never be zero") /\
  SortSliceBetween insertionSort scale11
    (mkBuffer (Some [x00]) 1 1 1 None UseCalloc []) 3 2 (fun _ _ => false)
  = Ok (mkBuffer (Some [x00]) 1 1 1 None UseCalloc []).
Proof.
  split.
  - apply (proj1 (SortSliceBetween_guards insertionSort scale11
                    (mkBuffer (Some [x00]) 1 1 1 None UseCalloc [])
                    (fun _ _ => false)) 7). lia.
  - apply (proj2 (SortSliceBetween_guards insertionSort scale11
                    (mkBuffer (Some [x00]) 1 1 1 None UseCalloc [])
                    (fun _ _ => false)) 3 2). lia.
Defined.

(** C8 as stated fails: with [start = 0] and [end = 0] the call returns, it
    does not panic. *)
Lemma SortSliceBetween_zero_counterexample :
  SortSliceBetween insertionSort scale11
    (mkBuffer (Some [x00]) 1 1 1 None UseCalloc []) 0 0 (fun _ _ => false)
  = Ok (mkBuffer (Some [x00]) 1 1 1 None UseCalloc []) /\
  is_panic (SortSliceBetween insertionSort scale11
    (mkBuffer (Some [x00]) 1 1 1 None UseCalloc []) 0 0 (fun _ _ => false)) = false.
Proof. split; reflexivity. Qed.

(** ** What the sorter leaves alone *)

Lemma same_frame_refl (b : Buffer) : same_frame b b.
Proof. unfold same_frame. tauto. Qed.

Lemma same_frame_trans (b1 b2 b3 : Buffer) :
  same_frame b1 b2 -> same_frame b2 b3 -> same_frame b1 b3.
Proof.
  unfold same_frame. intros (A1 & A2 & A3 & A4 & A5 & A6 & A7 & A8)
    (B1 & B2 & B3 & B4 & B5 & B6 & B7 & B8).
  repeat split; try congruence; tauto.
Qed.

Lemma same_frame_store (b : Buffer) (a : list byte) :
  len a = len (bytes b) -> same_frame b (store b a).
Proof.
  intros H. unfold same_frame, store, bytes in *.
  destruct b as [[o|] ? ? ? ? ? ?]; simpl in *; repeat split; auto; discriminate.
Qed.

Lemma valid_same_frame (b b' : Buffer) : valid b -> same_frame b b' -> valid b'.
Proof.
  unfold valid, same_frame.
  intros (Ho & Hc & Hm & Hk) (A1 & A2 & A3 & A4 & A5 & A6 & A7 & A8).
  rewrite A1, A2, A3, A4, A5. repeat split; try lia; try apply Hm.
  unfold bytes in A7.
  destruct (bufType b); [| |exact Hk].
  - destruct Hk as (a & Ea & La). rewrite Ea in *.
    destruct (buf b') as [a'|]; [|now destruct A8 as [_ A8]; specialize (A8 eq_refl)].
    exists a'. split; [reflexivity|lia].
  - destruct Hk as (a & Ea & La & Lo & F). rewrite Ea in *.
    destruct (buf b') as [a'|]; [|now destruct A8 as [_ A8]; specialize (A8 eq_refl)].
    exists a'. repeat split; try lia; assumption.
Qed.

Lemma bytes_store (b : Buffer) (a : list byte) :
  buf b <> None -> bytes (store b a) = a.
Proof. unfold bytes, store. destruct (buf b); [reflexivity|congruence]. Qed.

Lemma mergeLoop_len (fuel : nat) (less : LessFunc) (t : list byte) :
  forall a left_ right_ start end_ a',
    mergeLoop fuel less t a left_ right_ start end_ = Ok a' -> len a' = len a.
Proof.
  induction fuel as [|fuel IH]; intros a l r start e a' H;
    cbn [mergeLoop] in H.
  - destruct (start <? e); [discriminate|]. now injection H as <-.
  - destruct (start <? e); [|now injection H as <-].
    destruct (span_len l =? 0).
    { destruct (slice a start e) as [d|] eqn:S; cbn [bind] in H; [|discriminate].
      apply slice_inv in S as (-> & S1 & S2).
      pose proof (len_copy a (start, e) (read a r) S1 S2) as L.
      destruct (copy _ _ _) as [a1 k]. destruct (assert _); [|discriminate].
      cbn [bind] in H. injection H as <-. exact L. }
    destruct (span_len r =? 0).
    { destruct (slice a start e) as [d|] eqn:S; cbn [bind] in H; [|discriminate].
      apply slice_inv in S as (-> & S1 & S2).
      pose proof (len_copy a (start, e) (read t l) S1 S2) as L.
      destruct (copy _ _ _) as [a1 k]. destruct (assert _); [|discriminate].
      cbn [bind] in H. injection H as <-. exact L. }
    destruct (rawSlice t l) as [ls|]; cbn [bind] in H; [|discriminate].
    destruct (rawSlice a r) as [rs|]; cbn [bind] in H; [|discriminate].
    destruct (advance ls 4) as [lp|]; cbn [bind] in H; [|discriminate].
    destruct (advance rs 4) as [rp|]; cbn [bind] in H; [|discriminate].
    destruct (less _ _).
    + destruct (slice a start (len a)) as [d|] eqn:S; cbn [bind] in H; [|discriminate].
      apply slice_inv in S as (-> & S1 & S2).
      pose proof (len_copy a (start, len a) (read t ls) S1 S2) as L.
      destruct (copy _ _ _) as [a1 k]. destruct (assert _); [|discriminate].
      cbn [bind] in H. destruct (advance l _); cbn [bind] in H; [|discriminate].
      apply IH in H. simpl in L. congruence.
    + destruct (slice a start (len a)) as [d|] eqn:S; cbn [bind] in H; [|discriminate].
      apply slice_inv in S as (-> & S1 & S2).
      pose proof (len_copy a (start, len a) (read a rs) S1 S2) as L.
      destruct (copy _ _ _) as [a1 k]. destruct (assert _); [|discriminate].
      cbn [bind] in H. destruct (advance r _); cbn [bind] in H; [|discriminate].
      apply IH in H. simpl in L. congruence.
Qed.

Lemma kept_refl (s : sortHelper.t) : kept s s.
Proof. unfold kept. auto using same_frame_refl. Qed.

Lemma kept_trans (s1 s2 s3 : sortHelper.t) : kept s1 s2 -> kept s2 s3 -> kept s1 s3.
Proof.
  unfold kept. intros (A & B & C) (A' & B' & C').
  split; [eapply same_frame_trans; eassumption|split; congruence].
Qed.

Lemma merge_kept (s s' : sortHelper.t) (l r : span) (start end_ : Z) :
  merge s l r start end_ = Ok s' -> kept s s'.
Proof.
  unfold merge. intros H.
  destruct (_ || _); [injection H as <-; apply kept_refl|].
  destruct (Write _ _) as [[tmp k]|]; cbn [bind] in H; [|discriminate].
  destruct (slice _ _ _) as [l'|]; cbn [bind] in H; [|discriminate].
  destruct (mergeLoop _ _ _ _ _ _ _ _) as [a|] eqn:M; cbn [bind] in H;
    [|discriminate].
  apply mergeLoop_len in M. injection H as <-.
  unfold kept. simpl. split; [|split; reflexivity]. now apply same_frame_store.
Qed.

Lemma sort_kept (fuel : nat) :
  forall s lo hi s' r, sort fuel s lo hi = Ok (s', r) -> kept s s'.
Proof.
  induction fuel as [|fuel IH]; intros s lo hi s' r H; cbn [sort] in H;
    [discriminate|].
  destruct (assert _); cbn [bind] in H; [|discriminate].
  destruct (index _ lo) as [loff|]; cbn [bind] in H; [|discriminate].
  destruct (index _ hi) as [hoff|]; cbn [bind] in H; [|discriminate].
  destruct (lo =? _).
  - destruct (slice _ _ _); cbn [bind] in H; [|discriminate].
    injection H as <- _. apply kept_refl.
  - destruct (sort fuel s lo _) as [[s1 l1]|] eqn:S1; cbn [bind] in H;
      [|discriminate].
    destruct (sort fuel s1 _ hi) as [[s2 r2]|] eqn:S2; cbn [bind] in H;
      [|discriminate].
    destruct (merge s2 l1 r2 loff hoff) as [s3|] eqn:M; cbn [bind] in H;
      [|discriminate].
    destruct (slice _ _ _); cbn [bind] in H; [|discriminate].
    injection H as <- _.
    apply IH in S1. apply IH in S2. apply merge_kept in M.
    eauto using kept_trans.
Qed.

Lemma sortSmall_kept sort_Slice (s s' : sortHelper.t) (start end_ : Z) :
  sortSmall sort_Slice s start end_ = Ok s' -> kept s s'.
Proof.
  unfold sortSmall. intros H. cbv zeta in H.
  destruct (collect _ _ _ _ _) as [small|]; cbn [bind] in H; [|discriminate].
  destruct (stage _ _ _) as [tmp|]; cbn [bind] in H; [|discriminate].
  destruct (slice _ _ _) as [d|] eqn:S; cbn [bind] in H; [|discriminate].
  destruct (Bytes tmp) as [src|]; cbn [bind] in H; [|discriminate].
  apply slice_inv in S as (-> & S1 & S2). simpl in S2.
  match type of H with context [copy ?a ?d ?q] =>
    pose proof (len_copy a d q S1 S2) as L; destruct (copy a d q) as [a' k] end.
  destruct (assert _); cbn [bind] in H; [|discriminate].
  injection H as <-. unfold kept. simpl. split; [|split; reflexivity].
  now apply same_frame_store.
Qed.

Lemma sortChunks_kept sort_Slice (offs : list Z) :
  forall s left_ s', sortChunks sort_Slice s left_ offs = Ok s' -> kept s s'.
Proof.
  induction offs as [|off offs IH]; intros s l s' H; simpl in H.
  - injection H as <-. apply kept_refl.
  - destruct (sortSmall _ _ _ _) as [s1|] eqn:S; cbn [bind] in H; [|discriminate].
    apply sortSmall_kept in S. apply IH in H. eauto using kept_trans.
Qed.

(** [SortSliceBetween] changes bytes of the region, and nothing else. *)
Lemma SortSliceBetween_frame sort_Slice scale (b b' : Buffer) (start end_ : Z)
    (less : LessFunc) :
  SortSliceBetween sort_Slice scale b start end_ less = Ok b' -> same_frame b b'.
Proof.
  unfold SortSliceBetween. intros H.
  destruct (start >=? end_); [injection H as <-; apply same_frame_refl|].
  destruct (start =? 0); [discriminate|].
  destruct (chunks _ _ _ _ _ _) as [offs|]; cbn [bind] in H; [|discriminate].
  destruct (assert _); cbn [bind] in H; [|discriminate].
  destruct (index _ _) as [last|]; cbn [bind] in H; [|discriminate].
  destruct (NewBuffer _) as [tmp|]; cbn [bind] in H; [|discriminate].
  destruct (index _ 0) as [l|]; cbn [bind] in H; [|discriminate].
  destruct (sortChunks _ _ _ _) as [s1|] eqn:S1; cbn [bind] in H; [|discriminate].
  destruct (sort _ _ _ _) as [[s2 r]|] eqn:S2; cbn [bind] in H; [|discriminate].
  injection H as <-.
  apply sortChunks_kept in S1 as (F1 & _). apply sort_kept in S2 as (F2 & _).
  simpl in F1. eauto using same_frame_trans.
Qed.

(** ** The invariant of the cursor *)

Ltac int_range := unfold GoInt.in_int, GoInt.min_int, GoInt.max_int in *.

Lemma bounded_same_frame (b b' : Buffer) :
  bounded b -> same_frame b b' -> bounded b'.
Proof.
  intros (V & Ho) F. split; [eapply valid_same_frame; eassumption|].
  destruct F as (A1 & _ & A3 & _). lia.
Qed.

Lemma valid_set_offset (b : Buffer) (o : Z) :
  valid b -> 0 <= o <= curSz b -> o <= Z.max (maxSz b) (offset b) ->
  valid (set_offset b o).
Proof.
  unfold valid. simpl. intros (Ho & Hc & Hm & Hk) H1 H2.
  repeat split; try lia; try apply Hm.
  destruct (bufType b); [exact Hk| |exact Hk].
  destruct Hk as (a & Ea & La & Lo & F). exists a. repeat split; try assumption; lia.
Qed.

Lemma bounded_set_offset (b : Buffer) (o : Z) :
  valid b -> 1 <= o <= curSz b -> o <= maxSz b -> bounded (set_offset b o).
Proof.
  intros V H1 H2. split; [apply valid_set_offset; [exact V|lia|lia]|].
  simpl. lia.
Qed.

Lemma NewBufferWith_bounded (sz mx : Z) (t : BufferType) (b : Buffer) :
  GoInt.in_int sz -> 0 <= mx <= GoInt.max_int ->
  NewBufferWith sz mx t = Ok (inl b) -> bounded b /\ offset b = 1.
Proof.
  intros Hs Hm H. unfold NewBufferWith in H. cbv zeta in H.
  set (sz' := if sz =? 0 then smallBufferSize else sz) in *.
  set (mx' := if mx =? 0 then GoInt.max_int32 else mx) in *.
  assert (Hmx : 1 <= mx' <= GoInt.max_int).
  { subst mx'. destruct (mx =? 0) eqn:E; zbool; [|lia].
    unfold GoInt.max_int32, GoInt.max_int. lia. }
  assert (Hsz : sz' <> 0 /\ sz' <= GoInt.max_int).
  { subst sz'. destruct (sz =? 0) eqn:E; zbool.
    - unfold smallBufferSize, GoInt.max_int. lia.
    - int_range. lia. }
  destruct t.
  - unfold Calloc in H. destruct (sz' <? 0) eqn:C; cbn [bind] in H; [discriminate|].
    zbool.
    destruct (repeat x00 (Z.to_nat sz')) as [|x a'] eqn:R; [discriminate|].
    injection H as <-.
    assert (L : len (x00 :: a') = sz').
    { rewrite len_cons. replace (len a') with (len (x :: a') - 1)
        by (rewrite len_cons; lia).
      rewrite <- R, len_repeat. lia. }
    unfold bounded, valid. simpl.
    repeat split; try lia; try (int_range; lia).
    eexists. split; [reflexivity|exact L].
  - unfold Truncate in H. destruct (sz' <? 0) eqn:C; cbn [bind] in H; [discriminate|].
    zbool. unfold Mmap in H. destruct (mx' <=? 0) eqn:M; [discriminate|]. zbool.
    destruct (resize (resize [] sz') mx') as [|x a'] eqn:R; [discriminate|].
    injection H as <-.
    assert (L : len (x00 :: a') = mx').
    { rewrite len_cons. replace (len a') with (len (x :: a') - 1)
        by (rewrite len_cons; lia).
      rewrite <- R, len_resize; lia. }
    unfold bounded, valid. simpl.
    repeat split; try lia; try (int_range; lia).
    eexists. repeat split; [exact L|lia|discriminate].
  - discriminate.
Qed.

Lemma Grow_bounded (b b' : Buffer) (n : Z) :
  bounded b -> GoInt.in_int n -> Grow b n = Ok b' ->
  bounded b' /\ offset b' = offset b /\ maxSz b' = maxSz b /\
  (0 <= n -> offset b + n <= curSz b' /\ offset b + n <= maxSz b).
Proof.
  intros (V & Ho) Hn H.
  destruct (Grow_valid b b' n V Hn H) as (V' & Eo & Em & _ & _ & _ & _ & R1 & R2).
  split; [split; [exact V'|lia]|]. repeat split; try assumption.
  - now apply R1.
  - apply R2. lia.
Qed.

Lemma Allocate_bounded (b b' : Buffer) (n : Z) (s : span) :
  bounded b -> 0 <= n <= GoInt.max_int -> Allocate b n = Ok (b', s) ->
  bounded b' /\ offset b' = offset b + n /\ maxSz b' = maxSz b /\
  s = (offset b, offset b + n) /\ offset b + n <= len (bytes b').
Proof.
  intros B Hn H. unfold Allocate in H.
  destruct (Grow b n) as [b1|] eqn:G; cbn [bind] in H; [|discriminate].
  apply Grow_bounded in G as ((V1 & Ho1) & Eo & Em & R); [|exact B|int_range; lia].
  destruct R as (R1 & R2); [lia|].
  assert (C1 : curSz b1 <= GoInt.max_int) by apply V1.
  assert (A : offset b1 +i n = offset b + n).
  { rewrite Eo. apply add_small. int_range. lia. }
  destruct (slice _ _ _) as [s'|] eqn:S; cbn [bind] in H; [|discriminate].
  apply slice_inv in S as (-> & S1 & S2).
  injection H as <- <-. simpl in *. rewrite A in *.
  split; [apply bounded_set_offset; [exact V1|lia|lia]|].
  repeat split; try lia; try congruence.
Qed.

Lemma AllocateOffset_bounded (b b' : Buffer) (n r : Z) :
  bounded b -> 0 <= n <= GoInt.max_int -> AllocateOffset b n = Ok (b', r) ->
  bounded b' /\ offset b' = offset b + n.
Proof.
  intros B Hn H. unfold AllocateOffset in H.
  destruct (Grow b n) as [b1|] eqn:G; cbn [bind] in H; [|discriminate].
  apply Grow_bounded in G as ((V1 & Ho1) & Eo & Em & R); [|exact B|int_range; lia].
  destruct R as (R1 & R2); [lia|].
  assert (C1 : curSz b1 <= GoInt.max_int) by apply V1.
  assert (A : offset b1 +i n = offset b + n).
  { rewrite Eo. apply add_small. int_range. lia. }
  injection H as <- _. simpl. rewrite A.
  split; [apply bounded_set_offset; [exact V1|lia|lia]|reflexivity].
Qed.

Lemma PutUint32_len (a a' : list byte) (d : span) (v : Z) :
  0 <= fst d <= snd d -> snd d <= len a -> PutUint32 a d v = Ok a' ->
  len a' = len a.
Proof.
  intros H1 H2 H. unfold PutUint32 in H.
  destruct (span_len d <? 4); [discriminate|]. injection H as <-.
  now apply len_copy.
Qed.

Lemma writeLen_bounded (b b' : Buffer) (sz : Z) :
  bounded b -> writeLen b sz = Ok b' ->
  bounded b' /\ offset b' = offset b + 4 /\ maxSz b' = maxSz b.
Proof.
  intros B H. unfold writeLen in H.
  destruct (Allocate b 4) as [[b1 s]|] eqn:A; cbn [bind] in H; [|discriminate].
  apply Allocate_bounded in A as (B1 & Eo & Em & -> & L);
    [|exact B|int_range; lia].
  destruct (PutUint32 _ _ _) as [a|] eqn:P; cbn [bind] in H; [|discriminate].
  apply PutUint32_len in P; [|simpl; destruct B as (V & ?); destruct V; lia
                              |simpl; lia].
  injection H as <-.
  pose proof (same_frame_store b1 a P) as F.
  split; [eapply bounded_same_frame; eassumption|].
  destruct F as (F1 & _ & F3 & _). lia.
Qed.

Lemma SliceAllocate_bounded (b b' : Buffer) (sz : Z) (s : span) :
  bounded b -> 0 <= sz <= GoInt.max_int -> SliceAllocate b sz = Ok (b', s) ->
  bounded b' /\ offset b' = offset b + 4 + sz.
Proof.
  intros B Hn H. unfold SliceAllocate in H.
  destruct (Grow b _) as [b1|] eqn:G; cbn [bind] in H; [|discriminate].
  apply Grow_bounded in G as (B1 & Eo & Em & _); [|exact B|apply wrap_in_int].
  destruct (writeLen b1 sz) as [b2|] eqn:W; cbn [bind] in H; [|discriminate].
  apply writeLen_bounded in W as (B2 & Eo2 & Em2); [|exact B1].
  apply Allocate_bounded in H as (B3 & Eo3 & _); [|exact B2|exact Hn].
  split; [exact B3|lia].
Qed.

Lemma SliceAllocateOffset_bounded (b b' : Buffer) (sz r : Z) (s : span) :
  bounded b -> 0 <= sz <= GoInt.max_int ->
  SliceAllocateOffset b sz = Ok (b', s, r) ->
  bounded b' /\ offset b' = offset b + 4 + sz.
Proof.
  intros B Hn H. unfold SliceAllocateOffset in H.
  destruct (Grow b _) as [b1|] eqn:G; cbn [bind] in H; [|discriminate].
  apply Grow_bounded in G as (B1 & Eo & Em & _); [|exact B|apply wrap_in_int].
  destruct (writeLen b1 sz) as [b2|] eqn:W; cbn [bind] in H; [|discriminate].
  apply writeLen_bounded in W as (B2 & Eo2 & Em2); [|exact B1].
  destruct (Allocate b2 sz) as [[b3 s3]|] eqn:A; cbn [bind] in H; [|discriminate].
  apply Allocate_bounded in A as (B3 & Eo3 & _); [|exact B2|exact Hn].
  injection H as <- _ _. split; [exact B3|lia].
Qed.

Lemma valid_len (b : Buffer) :
  valid b -> buf b <> None /\ offset b <= len (bytes b) /\
  (bufType b = UseCalloc -> len (bytes b) = curSz b) /\
  (bufType b = UseMmap -> len (bytes b) = maxSz b).
Proof.
  unfold valid, bytes. intros (Ho & Hc & Hm & Hk).
  destruct (bufType b).
  - destruct Hk as (a & -> & La). repeat split; try discriminate; lia.
  - destruct Hk as (a & -> & La & Lo & F). repeat split; try discriminate; lia.
  - contradiction.
Qed.

Lemma Write_bounded (b b' : Buffer) (p : list byte) (k : Z) :
  bounded b -> len p <= GoInt.max_int -> Write b p = Ok (b', k) ->
  bounded b' /\ offset b' = offset b + len p /\ k = len p /\
  maxSz b' = maxSz b /\
  bytes b' = take (offset b) (bytes b') ++ p ++ drop (offset b + len p) (bytes b')
  /\ take (offset b) (bytes b') = take (offset b) (bytes b).
Proof.
  intros B Hn H. unfold Write in H.
  pose proof (len_nonneg p) as P0.
  destruct (Grow b _) as [b1|] eqn:G; cbn [bind] in H; [|discriminate].
  pose proof G as G'.
  apply Grow_bounded in G as ((V1 & Ho1) & Eo & Em & R); [|exact B|int_range; lia].
  apply Grow_valid in G' as (_ & _ & _ & _ & _ & Et & _);
    [|apply B|int_range; lia].
  destruct R as (R1 & R2); [lia|].
  destruct (valid_len b1 V1) as (Nb & Lo & Lc & Lm).
  assert (Room : offset b + len p <= len (bytes b1)).
  { destruct (bufType b1) eqn:T.
    - rewrite Lc by reflexivity. lia.
    - rewrite Lm by reflexivity. lia.
    - destruct V1 as (_ & _ & _ & K). now rewrite T in K. }
  destruct (slice _ _ _) as [d|] eqn:S; cbn [bind] in H; [|discriminate].
  apply slice_inv in S as (-> & S1 & S2).
  assert (C : copy (bytes b1) (offset b1, len (bytes b1)) p
              = (take (offset b1) (bytes b1) ++ p
                   ++ drop (offset b1 + len p) (bytes b1), len p)).
  { unfold copy, span_len. cbn [fst snd]. rewrite Z.min_r by lia.
    now rewrite (take_all (len p) p) by lia. }
  rewrite C in H. injection H as <- <-.
  assert (A : offset b1 +i len p = offset b + len p).
  { rewrite Eo. apply add_small. destruct V1 as (? & ? & _). int_range. lia. }
  rewrite A.
  set (a := take (offset b1) (bytes b1) ++ p ++ drop (offset b1 + len p) (bytes b1)).
  assert (La : len a = len (bytes b1)).
  { subst a. rewrite !len_app, len_take, len_drop. llia. }
  pose proof (same_frame_store b1 a La) as F.
  assert (Ba : bytes (store b1 a) = a) by now apply bytes_store.
  cbn [offset maxSz set_offset].
  assert (Ta : take (offset b) a = take (offset b) (bytes b1)).
  { subst a. rewrite Eo. apply take_take_exact. lia. }
  split.
  { apply bounded_set_offset; [eapply valid_same_frame; eassumption| |].
    + destruct F as (F1 & F2 & _). rewrite F2. lia.
    + destruct F as (F1 & F2 & F3 & _). rewrite F3. lia. }
  repeat split; try lia.
  - destruct F as (_ & _ & F3 & _). lia.
  - change (bytes (set_offset (store b1 a) (offset b + len p)))
      with (bytes (store b1 a)). rewrite Ba. subst a. rewrite Eo.
    rewrite take_take_exact by lia.
    rewrite drop_app_ge by (rewrite len_take; llia).
    rewrite len_take.
    rewrite drop_app_ge by llia.
    replace (offset b + len p - _ - len p) with 0 by llia.
    now rewrite (drop_nonpos 0) by lia.
  - change (bytes (set_offset (store b1 a) (offset b + len p)))
      with (bytes (store b1 a)). rewrite Ba, Ta. exact Et.
Qed.

Lemma WriteAt_frame (b b' : Buffer) (p : list byte) (off k : Z) (r : option error) :
  WriteAt b p off = Ok (b', k, r) -> same_frame b b'.
Proof.
  unfold WriteAt. intros H.
  destruct (_ >? _); [injection H as <- _ _; apply same_frame_refl|].
  destruct (slice _ _ _) as [d|] eqn:S; cbn [bind] in H; [|discriminate].
  apply slice_inv in S as (-> & S1 & S2).
  pose proof (len_copy (bytes b) (off, len (bytes b)) p) as L.
  destruct (copy _ _ _) as [a k']. injection H as <- _ _.
  apply same_frame_store. apply L; simpl; lia.
Qed.

Lemma WriteSliceAt_frame (b b' : Buffer) (p : list byte) (off k : Z)
    (r : option error) :
  WriteSliceAt b p off = Ok (b', k, r) -> same_frame b b'.
Proof.
  unfold WriteSliceAt. intros H.
  destruct (_ >? _); [injection H as <- _ _; apply same_frame_refl|].
  destruct (slice _ _ _) as [h|] eqn:S; cbn [bind] in H; [|discriminate].
  apply slice_inv in S as (-> & S1 & S2).
  destruct (PutUint32 _ _ _) as [a|] eqn:P; cbn [bind] in H; [|discriminate].
  apply PutUint32_len in P; [|simpl; lia|simpl; lia].
  destruct (slice _ _ _) as [d|] eqn:S'; cbn [bind] in H; [|discriminate].
  apply slice_inv in S' as (-> & S3 & S4).
  match type of H with context [copy ?a ?d ?q] =>
    pose proof (len_copy a d q) as L2; destruct (copy a d q) as [a' k'] end.
  injection H as <- _ _. apply same_frame_store.
  simpl in L2. rewrite L2; [exact P|lia|lia].
Qed.

Section Invariant.

Variable sort_Slice : (Z -> Z -> bool) -> list Z -> list Z.
Variable scale : Z -> Z.

Lemma step_bounded (b b' : Buffer) (o : op) :
  bounded b -> sized o -> step sort_Slice scale b o = Ok b' ->
  bounded b' /\ (o = OpReset \/ offset b <= offset b').
Proof.
  intros B Hs H. destruct o; simpl in H, Hs.
  - apply Grow_bounded in H as (B' & Eo & _); [|exact B|int_range; lia].
    split; [exact B'|right; lia].
  - destruct (Allocate b n) as [[b1 s]|] eqn:A; cbn [bind] in H; [|discriminate].
    injection H as <-. apply Allocate_bounded in A as (B' & Eo & _); try assumption.
    split; [exact B'|right; lia].
  - destruct (AllocateOffset b n) as [[b1 s]|] eqn:A; cbn [bind] in H;
      [|discriminate].
    injection H as <-. apply AllocateOffset_bounded in A as (B' & Eo);
      try assumption.
    split; [exact B'|right; lia].
  - destruct (SliceAllocate b sz) as [[b1 s]|] eqn:A; cbn [bind] in H;
      [|discriminate].
    injection H as <-. apply SliceAllocate_bounded in A as (B' & Eo);
      try assumption.
    split; [exact B'|right; lia].
  - destruct (SliceAllocateOffset b sz) as [[[b1 s] r]|] eqn:A; cbn [bind] in H;
      [|discriminate].
    injection H as <-. apply SliceAllocateOffset_bounded in A as (B' & Eo);
      try assumption.
    split; [exact B'|right; lia].
  - destruct (Write b p) as [[b1 k]|] eqn:A; cbn [bind] in H; [|discriminate].
    injection H as <-. apply Write_bounded in A as (B' & Eo & _); try assumption.
    split; [exact B'|right]. pose proof (len_nonneg p). lia.
  - destruct (WriteAt b p off) as [[[b1 k] r]|] eqn:A; cbn [bind] in H;
      [|discriminate].
    injection H as <-. apply WriteAt_frame in A.
    split; [eapply bounded_same_frame; eassumption|right].
    destruct A as (-> & _). lia.
  - destruct (WriteSliceAt b p off) as [[[b1 k] r]|] eqn:A; cbn [bind] in H;
      [|discriminate].
    injection H as <-. apply WriteSliceAt_frame in A.
    split; [eapply bounded_same_frame; eassumption|right].
    destruct A as (-> & _). lia.
  - injection H as <-. split; [|now left].
    destruct B as (V & Ho). apply bounded_set_offset; [exact V| |lia].
    destruct V as (? & _). lia.
  - apply SortSliceBetween_frame in H.
    split; [eapply bounded_same_frame; eassumption|right].
    destruct H as (-> & _). lia.
  - apply SortSliceBetween_frame in H.
    split; [eapply bounded_same_frame; eassumption|right].
    destruct H as (-> & _). lia.
Qed.

Lemma reachable_bounded (b : Buffer) :
  reachable sort_Slice scale b -> bounded b.
Proof.
  induction 1 as [sz mx t b Hs Hm H|b b' o R IH Hs H].
  - now apply NewBufferWith_bounded in H.
  - now apply (step_bounded b b' o IH Hs) in H.
Qed.

End Invariant.

(** C3, as the code has it: in every state that a buffer built by
    [NewBufferWith] with a maximum that is not negative reaches through calls
    that return and whose sizes are not negative,
    [1 <= offset <= curSz] and [offset <= maxSz]; and no such call except
    [Reset] lowers the cursor.  The order of [curSz] and [maxSz] is left
    open. *)
Theorem cursor_invariant
    (sort_Slice : (Z -> Z -> bool) -> list Z -> list Z) (scale : Z -> Z) :
  (forall b, reachable sort_Slice scale b ->
     1 <= offset b <= curSz b /\ offset b <= maxSz b) /\
  (forall b o b', reachable sort_Slice scale b -> sized o ->
     step sort_Slice scale b o = Ok b' -> o = OpReset \/ offset b <= offset b').
Proof.
  split.
  - intros b R. apply reachable_bounded in R as ((Ho & _) & Hm). lia.
  - intros b o b' R Hs H. apply reachable_bounded in R.
    now apply (step_bounded sort_Slice scale b b' o R Hs) in H.
Qed.

Lemma cursor_invariant_witness :
  NewBufferWith 4 10 UseCalloc
  = Ok (inl (mkBuffer (Some [x00; x00; x00; x00]) 1 4 10 None UseCalloc
               [CallCalloc 4])) /\
  (1 <= 3 <= 4 /\ 3 <= 10) /\ (OpAllocate 2 = OpReset \/ 1 <= 3).
Proof.
  pose (b0 := mkBuffer (Some [x00; x00; x00; x00]) 1 4 10 None UseCalloc
                [CallCalloc 4]).
  pose (b1 := mkBuffer (Some [x00; x00; x00; x00]) 3 4 10 None UseCalloc
                [CallCalloc 4]).
  assert (E0 : NewBufferWith 4 10 UseCalloc = Ok (inl b0)) by reflexivity.
  assert (R0 : reachable insertionSort scale11 b0).
  { apply reach_new with (sz := 4) (mx := 10) (t := UseCalloc).
    - split; vm_compute; discriminate.
    - split; vm_compute; discriminate.
    - exact E0. }
  assert (S1 : step insertionSort scale11 b0 (OpAllocate 2) = Ok b1) by reflexivity.
  assert (Z2 : sized (OpAllocate 2)) by (split; vm_compute; discriminate).
  split; [exact E0|]. split.
  - exact (proj1 (cursor_invariant insertionSort scale11) b1
             (reach_step (OpAllocate 2) R0 Z2 S1)).
  - exact (proj2 (cursor_invariant insertionSort scale11) b0 (OpAllocate 2) b1
             R0 Z2 S1).
Defined.

(** C3 as stated fails.  [Grow(70)] on a buffer of size 64 and maximum 100
    raises the current size to 198, above the maximum; and
    [AllocateOffset(-1)] on a new buffer returns and leaves the cursor at 0. *)
Lemma cursor_invariant_counterexample :
  (exists b0 b1, NewBufferWith 64 100 UseCalloc = Ok (inl b0) /\
                 Grow b0 70 = Ok b1 /\ curSz b1 = 198 /\ maxSz b1 = 100 /\
                 ~ curSz b1 <= maxSz b1) /\
  (exists b0 b1 r, NewBufferWith 64 100 UseCalloc = Ok (inl b0) /\
                   AllocateOffset b0 (-1) = Ok (b1, r) /\
                   offset b1 = 0 /\ ~ 1 <= offset b1 /\ offset b1 < offset b0).
Proof.
  split.
  - eexists. eexists. split; [vm_compute; reflexivity|].
    split; [vm_compute; reflexivity|].
    split; [reflexivity|]. split; [reflexivity|]. vm_compute. intros H. now apply H.
  - eexists. eexists. eexists. split; [vm_compute; reflexivity|].
    split; [vm_compute; reflexivity|].
    split; [reflexivity|]. split; [vm_compute; intros H; now apply H|reflexivity].
Qed.

(** ** The length prefix *)

Lemma Z_of_byte_range (b : byte) : 0 <= Z_of_byte b < 256.
Proof.
  unfold Z_of_byte. pose proof (Byte.to_N_bounded b) as H.
  lia.
Qed.

Lemma Z_of_byte_of (z : Z) : Z_of_byte (byte_of z) = z mod 256.
Proof.
  unfold Z_of_byte, byte_of.
  pose proof (Z.mod_pos_bound z 256 ltac:(lia)) as B.
  destruct (Byte.of_N (Z.to_N (z mod 256))) as [b|] eqn:E.
  - apply Byte.to_of_N in E. rewrite E. lia.
  - apply Byte.of_N_None_iff in E. lia.
Qed.

Lemma lor_shiftl_low (a b k : Z) :
  0 <= k -> 0 <= b < 2 ^ k -> Z.lor (Z.shiftl a k) b = a * 2 ^ k + b.
Proof.
  intros Hk Hb.
  assert (L : Z.land (Z.shiftl a k) b = 0).
  { apply Z.bits_inj'. intros n Hn. rewrite Z.land_spec, Z.bits_0.
    destruct (Z.lt_ge_cases n k) as [Lt|Ge].
    - rewrite Z.shiftl_spec_low by lia. reflexivity.
    - replace b with (b mod 2 ^ k) by (apply Z.mod_small; lia).
      rewrite Z.mod_pow2_bits_high by lia. apply andb_false_r. }
  rewrite <- Z.lxor_lor by exact L.
  rewrite <- Z.add_nocarry_lxor by exact L.
  now rewrite Z.shiftl_mul_pow2 by lia.
Qed.

Lemma lor_mul_low (a b k : Z) :
  0 <= k -> 0 <= b < 2 ^ k -> Z.lor (a * 2 ^ k) b = a * 2 ^ k + b.
Proof.
  intros Hk Hb. rewrite <- (lor_shiftl_low a b k Hk Hb).
  now rewrite Z.shiftl_mul_pow2.
Qed.

Lemma Uint32_be32 (v : Z) (rest : list byte) :
  0 <= v < 2 ^ 32 -> Uint32 (be32 v ++ rest) = Ok v.
Proof.
  intros Hv. unfold be32. cbn [app Uint32]. f_equal.
  rewrite !Z_of_byte_of, !Z.shiftr_div_pow2 by lia.
  rewrite !Z.shiftl_mul_pow2 by lia.
  set (b0 := (v / 2 ^ 24) mod 256). set (b1 := (v / 2 ^ 16) mod 256).
  set (b2 := (v / 2 ^ 8) mod 256). set (b3 := v mod 256).
  assert (B0 : 0 <= b0 < 256) by (apply Z.mod_pos_bound; lia).
  assert (B1 : 0 <= b1 < 256) by (apply Z.mod_pos_bound; lia).
  assert (B2 : 0 <= b2 < 256) by (apply Z.mod_pos_bound; lia).
  assert (B3 : 0 <= b3 < 256) by (apply Z.mod_pos_bound; lia).
  rewrite (lor_mul_low b0 (b1 * 2 ^ 16) 24) by lia.
  replace (b0 * 2 ^ 24 + b1 * 2 ^ 16) with ((b0 * 2 ^ 8 + b1) * 2 ^ 16) by lia.
  rewrite (lor_mul_low _ (b2 * 2 ^ 8) 16) by lia.
  replace ((b0 * 2 ^ 8 + b1) * 2 ^ 16 + b2 * 2 ^ 8)
    with (((b0 * 2 ^ 8 + b1) * 2 ^ 8 + b2) * 2 ^ 8) by lia.
  rewrite (lor_mul_low _ b3 8) by lia.
  subst b0 b1 b2 b3.
  Z.div_mod_to_equations. lia.
Qed.

Lemma len_be32 (v : Z) : len (be32 v) = 4.
Proof. reflexivity. Qed.

Lemma len_enc (p : list byte) : len (enc p) = 4 + len p.
Proof. unfold enc. now rewrite len_app, len_be32. Qed.

Lemma encs_cons (p : list byte) (ps : list (list byte)) :
  encs (p :: ps) = enc p ++ encs ps.
Proof. reflexivity. Qed.

Lemma encs_app (ps qs : list (list byte)) : encs (ps ++ qs) = encs ps ++ encs qs.
Proof. unfold encs. apply flat_map_app. Qed.

Lemma to_uint32_fits (p : list byte) : fits p -> GoInt.to_uint32 (len p) = len p.
Proof.
  unfold fits, GoInt.to_uint32. intros H. apply Z.mod_small.
  pose proof (len_nonneg p). lia.
Qed.

(** ** Slice on a record *)

Lemma Slice_at (b : Buffer) (pre rest : list byte) (off v : Z) :
  bytes b = pre ++ be32 v ++ rest -> len pre = off ->
  0 <= v < 2 ^ 32 -> v <= len rest -> off < offset b ->
  off + 4 + v <= GoInt.max_int ->
  Slice b off
  = Ok (Some (take v rest), if off + 4 + v >=? offset b then 0 else off + 4 + v).
Proof.
  intros Hb Hp Hv Hr Ho Hm. unfold Slice.
  pose proof (len_nonneg pre) as P0.
  destruct (off >=? offset b) eqn:G; zbool; [lia|].
  assert (L : len (bytes b) = off + 4 + len rest).
  { rewrite Hb, !len_app, len_be32. lia. }
  rewrite slice_ok by lia. cbn [bind].
  assert (R : read (bytes b) (off, len (bytes b)) = be32 v ++ rest).
  { unfold read, span_len. cbn [fst snd]. rewrite Hb, <- Hp, drop_app_exact.
    apply take_all. rewrite !len_app, len_be32. lia. }
  rewrite R, Uint32_be32 by lia. cbn [bind].
  assert (A1 : off +i 4 = off + 4).
  { apply add_small. unfold GoInt.in_int, GoInt.min_int, GoInt.max_int in *. lia. }
  rewrite A1.
  assert (A2 : off + 4 +i v = off + 4 + v).
  { apply add_small. unfold GoInt.in_int, GoInt.min_int, GoInt.max_int in *. lia. }
  rewrite A2.
  rewrite slice_ok by lia. cbn [bind].
  do 3 f_equal.
  rewrite Hb, <- (take_drop_id v rest) at 1.
  rewrite (app_assoc pre).
  apply read_middle.
  - rewrite len_app, len_be32. lia.
  - rewrite len_app, len_be32, len_take. lia.
Qed.

Lemma Slice_record (b : Buffer) (pre post p : list byte) (off : Z) :
  bytes b = pre ++ enc p ++ post -> len pre = off -> fits p ->
  off + 4 + len p <= offset b -> offset b <= GoInt.max_int ->
  Slice b off
  = Ok (Some p, if off + 4 + len p >=? offset b then 0 else off + 4 + len p).
Proof.
  intros Hb Hp Hf Ho Hm. pose proof (len_nonneg p) as P0.
  unfold enc in Hb. rewrite to_uint32_fits in Hb by exact Hf.
  rewrite <- app_assoc in Hb.
  rewrite (Slice_at b pre (p ++ post) off (len p) Hb Hp); unfold fits in Hf;
    try lia.
  - now rewrite take_app_exact.
  - rewrite len_app. pose proof (len_nonneg post). lia.
Qed.

Lemma payloads_trace (ps : list (list byte)) :
  forall off, payloads (trace off ps) = ps.
Proof.
  induction ps as [|p ps IH]; intros off; [reflexivity|].
  destruct ps as [|q ps]; [reflexivity|].
  change (trace off (p :: q :: ps))
    with ((Some p, off + 4 + len p) :: trace (off + 4 + len p) (q :: ps)).
  cbn [payloads]. now rewrite IH.
Qed.

(** The sentinel is the last offset returned, and only the last. *)
Lemma trace_sentinel (ps : list (list byte)) :
  forall off, 0 <= off -> ps <> [] ->
  exists front p, trace off ps = front ++ [(Some p, 0)] /\
                  Forall (fun r => snd r <> 0) front.
Proof.
  induction ps as [|p ps IH]; intros off Ho Hne; [congruence|].
  destruct ps as [|q ps].
  - exists [], p. split; [reflexivity|constructor].
  - pose proof (len_nonneg p) as P0.
    destruct (IH (off + 4 + len p)) as (front & l & E & F); [lia|discriminate|].
    exists ((Some p, off + 4 + len p) :: front), l. split.
    + change (trace off (p :: q :: ps))
        with ((Some p, off + 4 + len p) :: trace (off + 4 + len p) (q :: ps)).
      now rewrite E.
    + constructor; [simpl; lia|exact F].
Qed.

Lemma traverse_records (b : Buffer) (ps : list (list byte)) :
  forall fuel pre post off,
    bytes b = pre ++ encs ps ++ post -> len pre = off ->
    Forall fits ps -> ps <> [] ->
    off + len (encs ps) = offset b -> offset b <= GoInt.max_int ->
    (List.length ps <= fuel)%nat ->
    traverse fuel b off = Ok (trace off ps).
Proof.
  induction ps as [|p ps IH]; intros fuel pre post off Hb Hp Hf Hne Ho Hm Hfuel;
    [congruence|].
  destruct fuel as [|fuel]; [simpl in Hfuel; lia|].
  rewrite encs_cons, <- app_assoc in Hb.
  rewrite encs_cons, len_app, len_enc in Ho.
  pose proof (len_nonneg p) as P0. pose proof (len_nonneg (encs ps)) as P1.
  inversion Hf as [|? ? Fp Fps]; subst.
  cbn [traverse].
  rewrite (Slice_record b pre (encs ps ++ post) p (len pre) Hb eq_refl Fp)
    by lia.
  cbn [bind].
  destruct ps as [|q ps].
  - cbn [encs flat_map] in Ho. rewrite len_nil in Ho.
    destruct (len pre + 4 + len p >=? offset b) eqn:G; zbool; [|lia].
    reflexivity.
  - assert (Q : 4 <= len (encs (q :: ps))).
    { rewrite encs_cons, len_app, len_enc.
      pose proof (len_nonneg q). pose proof (len_nonneg (encs ps)). lia. }
    destruct (len pre + 4 + len p >=? offset b) eqn:G; zbool; [lia|].
    pose proof (len_nonneg pre) as P2.
    destruct (len pre + 4 + len p =? 0) eqn:Z0; zbool; [lia|].
    rewrite (IH fuel (pre ++ enc p) post (len pre + 4 + len p)).
    + reflexivity.
    + now rewrite <- app_assoc.
    + rewrite len_app, len_enc. lia.
    + exact Fps.
    + discriminate.
    + lia.
    + exact Hm.
    + simpl in Hfuel |- *. lia.
Qed.

(** ** Writing records *)

Lemma valid_set_offset_room (b : Buffer) (o : Z) :
  valid b -> 0 <= o <= curSz b -> (bufType b = UseMmap -> o <= maxSz b) ->
  valid (set_offset b o).
Proof.
  unfold valid. simpl. intros (Ho & Hc & Hm & Hk) H1 H2.
  split; [lia|]. split; [lia|]. split; [exact Hm|].
  destruct (bufType b); [exact Hk| |exact Hk].
  destruct Hk as (a & Ea & La & Lo & F). exists a.
  split; [exact Ea|]. split; [exact La|]. split; [now apply H2|exact F].
Qed.

Lemma NewBufferWith_valid (sz mx : Z) (t : BufferType) (b : Buffer) :
  GoInt.in_int sz -> GoInt.in_int mx ->
  NewBufferWith sz mx t = Ok (inl b) -> valid b /\ offset b = 1.
Proof.
  intros Hs Hm H. unfold NewBufferWith in H. cbv zeta in H.
  set (sz' := if sz =? 0 then smallBufferSize else sz) in *.
  set (mx' := if mx =? 0 then GoInt.max_int32 else mx) in *.
  assert (Hmx : GoInt.in_int mx').
  { subst mx'. destruct (mx =? 0); [|exact Hm]. split; vm_compute; discriminate. }
  assert (Hsz : sz' <> 0 /\ sz' <= GoInt.max_int).
  { subst sz'. destruct (sz =? 0) eqn:E; zbool.
    - unfold smallBufferSize, GoInt.max_int. lia.
    - int_range. lia. }
  destruct t.
  - unfold Calloc in H. destruct (sz' <? 0) eqn:C; cbn [bind] in H; [discriminate|].
    zbool.
    destruct (repeat x00 (Z.to_nat sz')) as [|x a'] eqn:R; [discriminate|].
    injection H as <-.
    assert (L : len (x00 :: a') = sz').
    { rewrite len_cons. replace (len a') with (len (x :: a') - 1)
        by (rewrite len_cons; lia).
      rewrite <- R, len_repeat. lia. }
    split; [|reflexivity]. unfold valid. simpl.
    split; [lia|]. split; [lia|]. split; [exact Hmx|].
    eexists. split; [reflexivity|exact L].
  - unfold Truncate in H. destruct (sz' <? 0) eqn:C; cbn [bind] in H; [discriminate|].
    zbool. unfold Mmap in H. destruct (mx' <=? 0) eqn:M; [discriminate|]. zbool.
    destruct (resize (resize [] sz') mx') as [|x a'] eqn:R; [discriminate|].
    injection H as <-.
    assert (L : len (x00 :: a') = mx').
    { rewrite len_cons. replace (len a') with (len (x :: a') - 1)
        by (rewrite len_cons; lia).
      rewrite <- R, len_resize; lia. }
    split; [|reflexivity]. unfold valid. simpl.
    split; [lia|]. split; [lia|]. split; [exact Hmx|].
    eexists. split; [reflexivity|]. split; [exact L|]. split; [lia|discriminate].
  - discriminate.
Qed.

Lemma Allocate_valid (b b' : Buffer) (n : Z) (s : span) :
  valid b -> 0 <= n <= GoInt.max_int -> Allocate b n = Ok (b', s) ->
  valid b' /\ offset b' = offset b + n /\ s = (offset b, offset b + n) /\
  offset b + n <= len (bytes b') /\
  take (offset b) (bytes b') = take (offset b) (bytes b).
Proof.
  intros V Hn H. unfold Allocate in H.
  destruct (Grow b n) as [b1|] eqn:G; cbn [bind] in H; [|discriminate].
  apply Grow_valid in G as (V1 & Eo & Em & Et & _ & Tk & _ & R1 & R2);
    [|exact V|int_range; lia].
  specialize (R1 ltac:(lia)).
  assert (C1 : curSz b1 <= GoInt.max_int) by apply V1.
  assert (O1 : 0 <= offset b) by apply V.
  assert (A : offset b1 +i n = offset b + n).
  { rewrite Eo. apply add_small. int_range. lia. }
  destruct (slice _ _ _) as [s'|] eqn:S; cbn [bind] in H; [|discriminate].
  apply slice_inv in S as (-> & S1 & S2).
  injection H as <- <-. cbn [offset set_offset] in *. rewrite A in *.
  change (bytes (set_offset b1 (offset b + n))) with (bytes b1) in *.
  split.
  { apply valid_set_offset_room; [exact V1|lia|].
    intros T. rewrite Em. apply R2. rewrite Et in T.
    destruct (valid_len b V) as (_ & _ & _ & Lm). specialize (Lm T).
    pose proof (len_nonneg (bytes b)). lia. }
  rewrite Eo. repeat split; try lia. exact Tk.
Qed.

Lemma copy_exact (a src : list byte) (lo hi : Z) :
  len src = hi - lo ->
  copy a (lo, hi) src = (take lo a ++ src ++ drop hi a, len src).
Proof.
  intros H. unfold copy, span_len. cbn [fst snd].
  rewrite Z.min_r by lia. rewrite (take_all (len src)) by lia.
  now replace (lo + len src) with hi by lia.
Qed.

Lemma take_extend (a x rest : list byte) (lo : Z) :
  0 <= lo <= len a -> take (lo + len x) (take lo a ++ x ++ rest) = take lo a ++ x.
Proof.
  intros H. rewrite app_assoc.
  replace (lo + len x) with (len (take lo a ++ x))
    by (rewrite len_app, len_take; llia).
  apply take_app_exact.
Qed.

Lemma take_shorter {A : Type} (n m : Z) (l l' : list A) :
  n <= m -> take m l = take m l' -> take n l = take n l'.
Proof.
  intros H E. unfold take in *.
  destruct (Z_le_gt_dec n 0) as [N|N].
  { now replace (Z.to_nat n) with O by lia. }
  replace (Z.to_nat n) with (Nat.min (Z.to_nat n) (Z.to_nat m)) by lia.
  rewrite <- !firstn_firstn. now rewrite E.
Qed.

Lemma writeLen_valid (b b' : Buffer) (sz : Z) :
  valid b -> writeLen b sz = Ok b' ->
  valid b' /\ offset b' = offset b + 4 /\
  take (offset b') (bytes b')
  = take (offset b) (bytes b) ++ be32 (GoInt.to_uint32 sz).
Proof.
  intros V H. unfold writeLen in H.
  destruct (Allocate b 4) as [[b1 s]|] eqn:A; cbn [bind] in H; [|discriminate].
  apply Allocate_valid in A as (V1 & Eo & -> & L & Tk); [|exact V|int_range; lia].
  assert (O1 : 0 <= offset b) by apply V.
  unfold PutUint32 in H. destruct (span_len _ <? 4); cbn [bind] in H;
    [discriminate|].
  remember (be32 (GoInt.to_uint32 sz)) as v eqn:Ev.
  assert (Lv : len v = 4) by (subst v; apply len_be32).
  rewrite copy_exact in H by lia.
  unfold fst in H. injection H as <-.
  set (a := take (offset b) (bytes b1) ++ v ++ drop (offset b + 4) (bytes b1)).
  assert (La : len a = len (bytes b1)).
  { subst a. rewrite !len_app, len_take, len_drop, Lv. llia. }
  pose proof (same_frame_store b1 a La) as F.
  assert (Ba : bytes (store b1 a) = a)
    by (apply bytes_store; apply (valid_len b1 V1)).
  split; [eapply valid_same_frame; eassumption|].
  destruct F as (F1 & _). rewrite F1, Eo. split; [reflexivity|].
  rewrite Ba. subst a. rewrite <- Tk, <- Lv.
  apply take_extend. lia.
Qed.

Lemma SliceAllocate_valid (b b' : Buffer) (sz : Z) (s : span) :
  valid b -> 0 <= sz <= GoInt.max_int -> SliceAllocate b sz = Ok (b', s) ->
  valid b' /\ offset b' = offset b + 4 + sz /\
  s = (offset b + 4, offset b + 4 + sz) /\ offset b' <= len (bytes b') /\
  take (offset b + 4) (bytes b')
  = take (offset b) (bytes b) ++ be32 (GoInt.to_uint32 sz).
Proof.
  intros V Hn H. unfold SliceAllocate in H.
  destruct (Grow b _) as [b1|] eqn:G; cbn [bind] in H; [|discriminate].
  apply Grow_valid in G as (V1 & Eo & _ & _ & _ & Tk & _); [|exact V|apply wrap_in_int].
  destruct (writeLen b1 sz) as [b2|] eqn:W; cbn [bind] in H; [|discriminate].
  apply writeLen_valid in W as (V2 & Eo2 & Tk2); [|exact V1].
  apply Allocate_valid in H as (V3 & Eo3 & -> & L3 & Tk3); [|exact V2|exact Hn].
  rewrite Eo2, Eo in *. rewrite Tk in Tk2.
  split; [exact V3|]. split; [lia|]. split; [reflexivity|]. split; [lia|].
  now rewrite Tk3.
Qed.

(** A record written: the buffer stays valid, and the bytes below the new
    cursor are those that were below the old one, then the record. *)
Lemma writeRecord_valid (b b' : Buffer) (p : list byte) :
  valid b -> len p <= GoInt.max_int -> writeRecord b p = Ok b' ->
  valid b' /\ offset b' = offset b + 4 + len p /\
  take (offset b') (bytes b') = take (offset b) (bytes b) ++ enc p.
Proof.
  intros V Hn H. unfold writeRecord in H. pose proof (len_nonneg p) as P0.
  destruct (SliceAllocate b _) as [[b1 s]|] eqn:A; cbn [bind] in H; [|discriminate].
  apply SliceAllocate_valid in A as (V1 & Eo & -> & L & Tk); [|exact V|lia].
  injection H as <-. unfold fill.
  assert (O1 : 0 <= offset b) by apply V.
  rewrite copy_exact by lia. cbn [fst].
  set (a := take (offset b + 4) (bytes b1) ++ p
              ++ drop (offset b + 4 + len p) (bytes b1)).
  assert (La : len a = len (bytes b1)).
  { subst a. rewrite !len_app, len_take, len_drop. llia. }
  pose proof (same_frame_store b1 a La) as F.
  assert (Ba : bytes (store b1 a) = a)
    by (apply bytes_store; apply (valid_len b1 V1)).
  split; [eapply valid_same_frame; eassumption|].
  destruct F as (F1 & _). rewrite F1, Eo. split; [reflexivity|].
  rewrite Ba. subst a. unfold enc.
  rewrite (app_assoc (take (offset b) (bytes b))), <- Tk.
  apply take_extend. lia.
Qed.

Lemma writeAll_valid (ps : list (list byte)) :
  forall b b', valid b -> Forall (fun p => len p <= GoInt.max_int) ps ->
    writeAll b ps = Ok b' ->
    valid b' /\ offset b' = offset b + len (encs ps) /\
    take (offset b') (bytes b') = take (offset b) (bytes b) ++ encs ps.
Proof.
  induction ps as [|p ps IH]; intros b b' V Hf H; simpl in H.
  - injection H as <-. split; [exact V|]. cbn [encs flat_map].
    rewrite len_nil, app_nil_r. split; [lia|reflexivity].
  - inversion Hf as [|? ? Fp Fps]; subst.
    destruct (writeRecord b p) as [b1|] eqn:W; cbn [bind] in H; [|discriminate].
    apply writeRecord_valid in W as (V1 & Eo & Tk); [|exact V|exact Fp].
    apply IH in H as (V' & Eo' & Tk'); [|exact V1|exact Fps].
    split; [exact V'|]. rewrite encs_cons, len_app, len_enc.
    split; [lia|]. rewrite Tk', Tk. now rewrite <- app_assoc.
Qed.

(** ** Records written are the records read *)

Lemma len_encs_ge (ps : list (list byte)) :
  4 * Z.of_nat (List.length ps) <= len (encs ps).
Proof.
  induction ps as [|p ps IH]; [cbn; unfold len; simpl; lia|].
  rewrite encs_cons, len_app, len_enc. pose proof (len_nonneg p).
  simpl List.length. lia.
Qed.

Lemma fits_max_int (ps : list (list byte)) :
  Forall fits ps -> Forall (fun p => len p <= GoInt.max_int) ps.
Proof.
  apply Forall_impl. unfold fits, GoInt.max_int. intros p H. lia.
Qed.

(** Where the records lie after [writeAll] on a new buffer. *)
Lemma writeAll_layout (sz mx : Z) (t : BufferType) (b0 b : Buffer)
    (ps : list (list byte)) :
  GoInt.in_int sz -> GoInt.in_int mx ->
  NewBufferWith sz mx t = Ok (inl b0) ->
  Forall (fun p => len p <= GoInt.max_int) ps ->
  writeAll b0 ps = Ok b ->
  valid b /\ offset b = 1 + len (encs ps) /\
  exists pre post, bytes b = pre ++ encs ps ++ post /\ len pre = 1.
Proof.
  intros Hs Hm H0 Hf H.
  apply NewBufferWith_valid in H0 as (V0 & O0); [|exact Hs|exact Hm].
  apply writeAll_valid in H as (V & Eo & Tk); [|exact V0|exact Hf].
  rewrite O0 in *. split; [exact V|]. split; [exact Eo|].
  exists (take 1 (bytes b0)), (drop (offset b) (bytes b)).
  split.
  - rewrite app_assoc, <- Tk. symmetry. apply take_drop_id.
  - rewrite len_take. destruct (valid_len b0 V0) as (_ & L & _). lia.
Qed.

(** C2: after the records [ps], each shorter than 2^32 bytes, have been
    written into a new buffer, each by [SliceAllocate] and a copy of the
    payload into the slice returned, repeated [Slice] from offset 1 returns
    the payloads [ps] in order, and the offset returned is 0 once: with the
    last result and with no other. *)
Theorem write_then_traverse (sz mx : Z) (t : BufferType) (b0 b : Buffer)
    (ps : list (list byte)) :
  GoInt.in_int sz -> GoInt.in_int mx ->
  NewBufferWith sz mx t = Ok (inl b0) ->
  Forall fits ps ->
  writeAll b0 ps = Ok b ->
  exists tr, readAll b = Ok tr /\ payloads tr = ps /\
    exists front last, tr = front ++ [(last, 0)] /\
                       Forall (fun r => snd r <> 0) front.
Proof.
  intros Hs Hm H0 Hf H.
  destruct (writeAll_layout sz mx t b0 b ps Hs Hm H0 (fits_max_int ps Hf) H)
    as (V & Eo & pre & post & Hb & Hp).
  unfold readAll. destruct ps as [|p ps].
  - cbn [encs flat_map] in Eo. rewrite len_nil in Eo.
    replace (offset b) with 1 by lia.
    exists [(None, 0)]. split.
    + change (Z.to_nat 1) with 1%nat. cbn [traverse].
      unfold Slice. replace (offset b) with 1 by lia. reflexivity.
    + split; [reflexivity|]. exists [], None. split; [reflexivity|constructor].
  - exists (trace 1 (p :: ps)). split.
    + apply traverse_records with (pre := pre) (post := post); try assumption.
      * discriminate.
      * lia.
      * destruct V as (? & ? & _). lia.
      * pose proof (len_encs_ge (p :: ps)). lia.
    + split; [apply payloads_trace|].
      destruct (trace_sentinel (p :: ps) 1) as (front & l & E & F);
        [lia|discriminate|].
      exists front, (Some l). split; assumption.
Qed.

Lemma write_then_traverse_witness :
  exists b0 b tr,
    NewBufferWith 0 0 UseCalloc = Ok (inl b0) /\
    writeAll b0 [[x62; x61]; []; [x63]] = Ok b /\
    readAll b = Ok tr /\ payloads tr = [[x62; x61]; []; [x63]].
Proof.
  eexists. eexists.
  assert (E0 : NewBufferWith 0 0 UseCalloc
               = Ok (inl (mkBuffer (Some (repeat x00 64)) 1 64 GoInt.max_int32 None
                            UseCalloc [CallCalloc 64]))) by reflexivity.
  destruct (write_then_traverse 0 0 UseCalloc _
              (mkBuffer
                 (Some ([x00; x00; x00; x00; x02; x62; x61; x00; x00; x00; x00;
                         x00; x00; x00; x01; x63] ++ repeat x00 48))
                 16 64 GoInt.max_int32 None UseCalloc [CallCalloc 64])
              [[x62; x61]; []; [x63]]
              ltac:(split; vm_compute; discriminate)
              ltac:(split; vm_compute; discriminate) E0)
    as (tr & R & P & _).
  - repeat constructor.
  - vm_compute. reflexivity.
  - exists tr. split; [exact E0|]. split; [vm_compute; reflexivity|].
    split; assumption.
Defined.

(** ** Writes that have room return *)

Lemma growBy_le (c n : Z) :
  0 <= c <= GoInt.max_int -> 0 <= n <= GoInt.max_int -> growBy c n <= c + n.
Proof.
  intros Hc Hn. unfold growBy. cbv zeta.
  destruct (c +i n >? 2 ^ 30) eqn:G; zbool.
  - destruct (n >? 2 ^ 30) eqn:G'; zbool; [lia|].
    assert (c + n > 2 ^ 30); [|lia].
    destruct (Z_le_gt_dec (c + n) GoInt.max_int) as [L|L].
    + rewrite add_small in G by (int_range; lia). lia.
    + int_range. lia.
  - destruct (n >? c +i n) eqn:G'; zbool; [lia|].
    destruct (Z_le_gt_dec (c + n) GoInt.max_int) as [L|L].
    + rewrite add_small by (int_range; lia). lia.
    + exfalso. unfold GoInt.add, GoInt.wrap in G'. int_range.
      Z.div_mod_to_equations. lia.
Qed.

(** [Grow] on an off-heap buffer returns when the cursor plus [n] is within
    the maximum and the new size is an [int]. *)
Lemma Grow_ok (b : Buffer) (n : Z) :
  valid b -> bufType b = UseCalloc -> 0 <= n <= GoInt.max_int ->
  0 <= maxSz b -> offset b + n <= maxSz b ->
  2 * curSz b + n <= GoInt.max_int ->
  exists b', Grow b n = Ok b' /\ curSz b' <= 2 * curSz b + n.
Proof.
  intros V T Hn Hm Hr Hc.
  pose proof V as (Ho & Hc' & Hm' & Hk). rewrite T in Hk.
  destruct Hk as (old & E & L).
  rewrite (Grow_unfold_some b n old E).
  assert (S1 : maxSz b -i offset b = maxSz b - offset b)
    by (apply sub_small; int_range; lia).
  assert (S2 : curSz b -i offset b = curSz b - offset b)
    by (apply sub_small; int_range; lia).
  rewrite S1, S2.
  destruct (maxSz b - offset b <? n) eqn:G; zbool; [lia|].
  destruct (curSz b - offset b >? n) eqn:G'; zbool.
  { exists b. split; [reflexivity|lia]. }
  cbv zeta. fold (growBy (curSz b) n). simpl bufType. rewrite T.
  pose proof (growBy_ge (curSz b) n) as G1.
  pose proof (growBy_le (curSz b) n ltac:(lia) Hn) as G2.
  assert (A : curSz b +i growBy (curSz b) n = curSz b + growBy (curSz b) n)
    by (apply add_small; int_range; lia).
  simpl curSz. rewrite A. unfold Calloc.
  destruct (curSz b + growBy (curSz b) n <? 0) eqn:C; zbool; [lia|].
  cbn [bind]. simpl offset. rewrite slice_ok by lia. cbn [bind].
  eexists. split; [reflexivity|]. simpl. lia.
Qed.

Lemma Allocate_ok (b : Buffer) (n : Z) :
  valid b -> bufType b = UseCalloc -> 0 <= n <= GoInt.max_int ->
  0 <= maxSz b -> offset b + n <= maxSz b ->
  2 * curSz b + n <= GoInt.max_int ->
  exists b' s, Allocate b n = Ok (b', s) /\ curSz b' <= 2 * curSz b + n.
Proof.
  intros V T Hn Hm Hr Hc.
  destruct (Grow_ok b n V T Hn Hm Hr Hc) as (b1 & G & C1).
  unfold Allocate. rewrite G. cbn [bind].
  apply Grow_valid in G as (V1 & Eo & Em & Et & _ & _ & _ & R1 & _);
    [|exact V|int_range; lia].
  specialize (R1 ltac:(lia)).
  assert (O1 : 0 <= offset b) by apply V.
  assert (A : offset b1 +i n = offset b + n).
  { rewrite Eo. apply add_small. int_range. lia. }
  simpl offset. rewrite A.
  change (bytes (set_offset b1 (offset b + n))) with (bytes b1).
  destruct (valid_len b1 V1) as (_ & _ & Lc & _).
  rewrite slice_ok by (rewrite ?Lc by congruence; lia).
  cbn [bind]. eexists. eexists. split; [reflexivity|]. exact C1.
Qed.

Lemma Grow_type (b b' : Buffer) (n : Z) :
  Grow b n = Ok b' -> bufType b' = bufType b /\ maxSz b' = maxSz b.
Proof.
  intros H.
  apply Grow_inv in H as (old & _ & _ & [(_ & ->)|(_ & _ & Em & Et & _)]); auto.
Qed.

Lemma Allocate_type (b b' : Buffer) (n : Z) (s : span) :
  Allocate b n = Ok (b', s) -> bufType b' = bufType b /\ maxSz b' = maxSz b.
Proof.
  unfold Allocate. intros H.
  destruct (Grow b n) as [b1|] eqn:G; cbn [bind] in H; [|discriminate].
  destruct (slice _ _ _); cbn [bind] in H; [|discriminate].
  injection H as <- _. now apply Grow_type in G.
Qed.

(** A record has room on an off-heap buffer when it ends within the
    maximum and the sizes stay far from the largest [int]: then
    [writeRecord] returns. *)
Lemma writeRecord_ok (b : Buffer) (p : list byte) :
  valid b -> bufType b = UseCalloc -> 0 <= maxSz b ->
  offset b + 4 + len p <= maxSz b ->
  8 * curSz b + 8 * len p + 64 <= GoInt.max_int ->
  exists b', writeRecord b p = Ok b'.
Proof.
  intros V T Hm Hr Hc. pose proof (len_nonneg p) as P0.
  assert (C0 : 0 <= curSz b) by (destruct V as (? & _); lia).
  assert (A4 : 4 +i len p = 4 + len p) by (apply add_small; int_range; lia).
  unfold writeRecord, SliceAllocate. rewrite A4.
  destruct (Grow_ok b (4 + len p) V T) as (b1 & G & C1); try (int_range; lia).
  rewrite G. cbn [bind].
  apply Grow_valid in G as (V1 & Eo1 & Em1 & Et1 & _); [|exact V|int_range; lia].
  unfold writeLen.
  destruct (Allocate_ok b1 4 V1) as (b2 & s2 & A & C2);
    try congruence; try (int_range; lia).
  pose proof A as A'. pose proof A as A''.
  apply Allocate_valid in A' as (V2 & Eo2 & -> & L2 & _);
    [|exact V1|int_range; lia].
  apply Allocate_type in A'' as (Et2 & Em2).
  rewrite A. cbn [bind]. unfold PutUint32.
  change (span_len (offset b1, offset b1 + 4)) with (offset b1 + 4 - offset b1).
  destruct (offset b1 + 4 - offset b1 <? 4) eqn:G4; zbool; [lia|].
  cbn [bind].
  match goal with |- context [store b2 ?a] => set (a2 := a) end.
  assert (La : len a2 = len (bytes b2)).
  { subst a2. apply len_copy; simpl; [destruct V1 as (? & _); lia|lia]. }
  pose proof (same_frame_store b2 a2 La) as F.
  pose proof (valid_same_frame b2 (store b2 a2) V2 F) as V3.
  destruct F as (F1 & F2 & F3 & _ & F5 & _).
  destruct (Allocate_ok (store b2 a2) (len p) V3) as (b3 & s3 & A3 & C3);
    try congruence; try (int_range; lia).
  rewrite A3. cbn [bind]. eexists. reflexivity.
Qed.

(** A payload of 2^32 bytes gets the length prefix 0: [Slice] then reads an
    empty payload where it was written. *)
Lemma long_payload_reads_empty (p : list byte) (b0 : Buffer) :
  len p = 2 ^ 32 ->
  NewBufferWith 0 GoInt.max_int UseCalloc = Ok (inl b0) ->
  exists b, writeAll b0 [p] = Ok b /\ Slice b 1 = Ok (Some [], 5).
Proof.
  intros Lp H0.
  assert (I0 : GoInt.in_int 0) by (split; vm_compute; discriminate).
  assert (Im : GoInt.in_int GoInt.max_int) by (split; vm_compute; discriminate).
  pose proof H0 as H0'.
  apply NewBufferWith_valid in H0' as (V0 & O0); [|exact I0|exact Im].
  assert (E0 : b0 = mkBuffer (Some (repeat x00 64)) 1 64 GoInt.max_int None
                      UseCalloc [CallCalloc 64]).
  { vm_compute in H0. now injection H0 as <-. }
  destruct (writeRecord_ok b0 p V0) as (b & W).
  - now rewrite E0.
  - rewrite E0. vm_compute. discriminate.
  - rewrite E0. cbn [offset maxSz]. rewrite Lp. vm_compute. discriminate.
  - rewrite E0. cbn [curSz]. rewrite Lp. vm_compute. discriminate.
  - exists b. assert (WA : writeAll b0 [p] = Ok b).
    { cbn [writeAll]. rewrite W. reflexivity. }
    split; [exact WA|].
    destruct (writeAll_layout 0 GoInt.max_int UseCalloc b0 b [p] I0 Im H0)
      as (V & Eo & pre & post & Hb & Hp); [|exact WA|].
    { constructor; [|constructor]. rewrite Lp. vm_compute. discriminate. }
    cbn [encs flat_map] in Hb, Eo. rewrite app_nil_r in Hb, Eo.
    rewrite len_enc, Lp in Eo. unfold enc in Hb. rewrite Lp in Hb.
    change (GoInt.to_uint32 (2 ^ 32)) with 0 in Hb.
    rewrite <- app_assoc in Hb.
    rewrite (Slice_at b pre (p ++ post) 1 0 Hb Hp).
    + rewrite Eo. reflexivity.
    + lia.
    + pose proof (len_nonneg (p ++ post)). lia.
    + lia.
    + vm_compute. discriminate.
Qed.

(** C2 as stated fails for a payload that the length prefix cannot hold:
    after one record of 2^32 bytes, the first [Slice] returns the empty
    payload and points into the payload written. *)
Lemma write_then_traverse_counterexample :
  exists b0 b,
    NewBufferWith 0 GoInt.max_int UseCalloc = Ok (inl b0) /\
    writeAll b0 [repeat x00 (Z.to_nat (2 ^ 32))] = Ok b /\
    Slice b 1 = Ok (Some [], 5) /\
    repeat x00 (Z.to_nat (2 ^ 32)) <> [].
Proof.
  assert (Lp : len (repeat x00 (Z.to_nat (2 ^ 32))) = 2 ^ 32).
  { rewrite len_repeat. apply Z2Nat.id. lia. }
  assert (E0 : NewBufferWith 0 GoInt.max_int UseCalloc
               = Ok (inl (mkBuffer (Some (repeat x00 64)) 1 64 GoInt.max_int None
                            UseCalloc [CallCalloc 64]))) by reflexivity.
  destruct (long_payload_reads_empty _ _ Lp E0) as (b & W & S).
  eexists. exists b. split; [exact E0|]. split; [exact W|]. split; [exact S|].
  intros E. rewrite E in Lp. discriminate Lp.
Qed.

(** ** Orders, runs and their merge *)

Section Order.

Context {A : Type} (lt : A -> A -> bool).
Hypothesis swo : strict_weak_order lt.

Lemma swo_asym (x y : A) : lt x y = true -> lt y x = false.
Proof.
  destruct swo as (Irr & Tr & _). intros H.
  destruct (lt y x) eqn:E; [|reflexivity].
  pose proof (Tr x y x H E) as C. rewrite Irr in C. discriminate.
Qed.

(** "Not less" is transitive. *)
Lemma swo_le_trans (x y z : A) :
  lt y x = false -> lt z y = false -> lt z x = false.
Proof.
  destruct swo as (Irr & Tr & Inc). intros H1 H2.
  destruct (lt z x) eqn:E; [|reflexivity]. exfalso.
  (* x and y are incomparable, y and z are incomparable *)
  assert (Hxy : lt x y = false).
  { destruct (lt x y) eqn:F; [|reflexivity].
    pose proof (Tr z x y E F) as C. congruence. }
  assert (Hyz : lt y z = false).
  { destruct (lt y z) eqn:F; [|reflexivity].
    pose proof (Tr y z x F E) as C. congruence. }
  destruct (Inc z y x H2 Hyz H1 Hxy) as (C & _). congruence.
Qed.

Lemma nondecreasing_cons_inv (x : A) (l : list A) :
  nondecreasing lt (x :: l) ->
  nondecreasing lt l /\ Forall (fun y => lt y x = false) l.
Proof. intros H. inversion H; subst. now split. Qed.

Lemma nondecreasing_cons (x : A) (l : list A) :
  nondecreasing lt l -> Forall (fun y => lt y x = false) l ->
  nondecreasing lt (x :: l).
Proof. intros H1 H2. now constructor. Qed.

Lemma Forall_le_trans (x y : A) (l : list A) :
  lt y x = false -> Forall (fun z => lt z y = false) l ->
  Forall (fun z => lt z x = false) l.
Proof.
  intros H. apply Forall_impl. intros z Hz. now apply (swo_le_trans x y z).
Qed.

End Order.

Lemma nondecreasing_map {A B : Type} (f : A -> B) (lt : B -> B -> bool)
    (l : list A) :
  nondecreasing (fun x y => lt (f x) (f y)) l -> nondecreasing lt (map f l).
Proof.
  unfold nondecreasing. induction 1 as [|x l S IH F]; simpl; constructor.
  - exact IH.
  - rewrite Forall_map. exact F.
Qed.

Lemma swo_pullback {A B : Type} (f : A -> B) (lt : B -> B -> bool) :
  strict_weak_order lt -> strict_weak_order (fun x y => lt (f x) (f y)).
Proof.
  intros (Irr & Tr & Inc). split; [|split].
  - intros x. apply Irr.
  - intros x y z. apply Tr.
  - intros x y z. apply Inc.
Qed.

(** A sorted list is all there is to its rearrangements that are sorted,
    when the order is total. *)
Lemma sorted_perm_unique {A : Type} (lt : A -> A -> bool) :
  strict_total_order lt ->
  forall l l', Permutation l l' -> nondecreasing lt l -> nondecreasing lt l' ->
               l = l'.
Proof.
  intros (Swo & Tot). induction l as [|x l IH]; intros l' P S S'.
  - apply Permutation_nil in P. now subst.
  - destruct l' as [|y l'].
    { apply Permutation_sym, Permutation_nil in P. discriminate. }
    apply nondecreasing_cons_inv in S as (S1 & F1).
    apply nondecreasing_cons_inv in S' as (S1' & F1').
    assert (E : x = y).
    { assert (Ix : In x (y :: l')) by (eapply Permutation_in; [exact P|now left]).
      assert (Iy : In y (x :: l))
        by (eapply Permutation_in; [apply Permutation_sym; exact P|now left]).
      destruct Ix as [->|Ix]; [reflexivity|].
      destruct Iy as [->|Iy]; [reflexivity|].
      rewrite Forall_forall in F1, F1'.
      apply Tot; [apply F1'; exact Ix|apply F1; exact Iy]. }
    subst y. f_equal. apply IH; try assumption.
    eapply Permutation_cons_inv. exact P.
Qed.

(** The merge of [merge]. *)

Lemma merge_list_nil_l (less : LessFunc) (rs : list (list byte)) :
  merge_list less [] rs = rs.
Proof. destruct rs; reflexivity. Qed.

Lemma merge_list_nil_r (less : LessFunc) (ls : list (list byte)) :
  merge_list less ls [] = ls.
Proof. destruct ls; reflexivity. Qed.

Lemma merge_list_cons (less : LessFunc) (l r : list byte)
    (ls rs : list (list byte)) :
  merge_list less (l :: ls) (r :: rs)
  = if less l r then l :: merge_list less ls (r :: rs)
    else r :: merge_list less (l :: ls) rs.
Proof. reflexivity. Qed.

Lemma merge_list_perm (less : LessFunc) (ls : list (list byte)) :
  forall rs, Permutation (ls ++ rs) (merge_list less ls rs).
Proof.
  induction ls as [|l ls IHl]; intros rs.
  - rewrite merge_list_nil_l. apply Permutation_refl.
  - induction rs as [|r rs IHr].
    + rewrite merge_list_nil_r, app_nil_r. apply Permutation_refl.
    + rewrite merge_list_cons. destruct (less l r).
      * simpl. constructor. apply IHl.
      * apply Permutation_trans with (r :: (l :: ls) ++ rs).
        { apply Permutation_sym, Permutation_middle. }
        constructor. exact IHr.
Qed.

Lemma merge_list_sorted (less : LessFunc) (ls : list (list byte)) :
  strict_weak_order less ->
  forall rs, nondecreasing less ls -> nondecreasing less rs ->
             nondecreasing less (merge_list less ls rs).
Proof.
  intros Swo. induction ls as [|l ls IHl]; intros rs Sl Sr.
  - now rewrite merge_list_nil_l.
  - induction rs as [|r rs IHr].
    + now rewrite merge_list_nil_r.
    + rewrite merge_list_cons.
      apply nondecreasing_cons_inv in Sl as (Sl' & Fl).
      pose proof Sr as Sr0.
      apply nondecreasing_cons_inv in Sr as (Sr' & Fr).
      destruct (less l r) eqn:E.
      * apply nondecreasing_cons; [now apply IHl|].
        apply (Permutation_Forall (merge_list_perm less ls (r :: rs))).
        apply Forall_app. split; [exact Fl|].
        pose proof (swo_asym less Swo l r E) as E'.
        constructor; [exact E'|].
        now apply (Forall_le_trans less Swo l r).
      * apply nondecreasing_cons.
        { apply IHr. exact Sr'. }
        apply (Permutation_Forall (merge_list_perm less (l :: ls) rs)).
        apply Forall_app. split; [|exact Fr].
        constructor; [exact E|].
        now apply (Forall_le_trans less Swo r l).
Qed.

(** ** The scratch buffer *)

Lemma Grow_ok_room (b : Buffer) (n : Z) :
  valid b -> bufType b = UseCalloc -> 0 <= n <= GoInt.max_int ->
  0 <= maxSz b -> offset b + n <= maxSz b ->
  2 * curSz b + n <= GoInt.max_int ->
  exists b', Grow b n = Ok b' /\
    (curSz b' = curSz b \/
     (curSz b <= offset b + n /\ curSz b' <= 2 * curSz b + n)).
Proof.
  intros V T Hn Hm Hr Hc.
  destruct (Grow_ok b n V T Hn Hm Hr Hc) as (b' & G & C).
  exists b'. split; [exact G|].
  apply Grow_inv in G as (old & E & G1 & [(G2 & ->)|(G2 & _)]); [now left|].
  right. split; [|exact C].
  destruct V as (Ho & Hc' & _).
  rewrite sub_small in G2 by (int_range; lia). lia.
Qed.

Lemma scratch_Reset (B : Z) (t : Buffer) :
  scratch B t -> scratch B (Reset t) /\ offset (Reset t) = 1.
Proof.
  intros (V & T & M & C & O). split; [|reflexivity].
  unfold Reset. split; [|repeat split; try assumption; simpl; lia].
  apply valid_set_offset_room; [exact V| |].
  - destruct V as (? & _). lia.
  - rewrite T. discriminate.
Qed.

(** [Write] on the scratch buffer returns, and appends. *)
Lemma Write_scratch (B : Z) (t : Buffer) (p : list byte) :
  scratch B t -> offset t + len p <= B -> 7 * B <= GoInt.max_int ->
  exists t', Write t p = Ok (t', len p) /\ scratch B t' /\
             offset t' = offset t + len p /\
             take (offset t') (bytes t') = take (offset t) (bytes t) ++ p.
Proof.
  intros (V & T & M & C & O) Hr HB. pose proof (len_nonneg p) as P0.
  destruct (Grow_ok_room t (len p) V T) as (b1 & G & C1); try (int_range; lia).
  unfold Write. rewrite G. cbn [bind].
  pose proof G as G'. apply Grow_type in G' as (Et & Em).
  apply Grow_valid in G as (V1 & Eo & _ & _ & _ & Tk & _ & R1 & _);
    [|exact V|int_range; lia].
  specialize (R1 P0).
  destruct (valid_len b1 V1) as (Nb & Lo & Lc & _).
  rewrite Et, T in Lc. specialize (Lc eq_refl).
  rewrite slice_ok by lia. cbn [bind].
  assert (Cp : copy (bytes b1) (offset b1, len (bytes b1)) p
              = (take (offset b1) (bytes b1) ++ p
                   ++ drop (offset b1 + len p) (bytes b1), len p)).
  { unfold copy, span_len. cbn [fst snd]. rewrite Z.min_r by lia.
    now rewrite (take_all (len p) p) by lia. }
  rewrite Cp.
  assert (A : offset b1 +i len p = offset t + len p).
  { rewrite Eo. apply add_small. int_range. lia. }
  rewrite A.
  set (a := take (offset b1) (bytes b1) ++ p ++ drop (offset b1 + len p) (bytes b1)).
  assert (La : len a = len (bytes b1)).
  { subst a. rewrite !len_app, len_take, len_drop. llia. }
  pose proof (same_frame_store b1 a La) as F.
  assert (Ba : bytes (store b1 a) = a) by now apply bytes_store.
  pose proof (valid_same_frame b1 (store b1 a) V1 F) as V2.
  destruct F as (F1 & F2 & F3 & _ & F5 & _).
  eexists. split; [reflexivity|]. split.
  { split.
    - apply valid_set_offset_room; [exact V2|lia|].
      rewrite F5, Et, T. discriminate.
    - cbn [bufType maxSz curSz offset set_offset].
      rewrite F5, F3, F2, Et, Em, T, M.
      repeat split; try reflexivity; lia. }
  split; [reflexivity|].
  cbn [offset set_offset].
  change (bytes (set_offset (store b1 a) (offset t + len p)))
    with (bytes (store b1 a)).
  rewrite Ba. subst a. rewrite Eo, Tk.
  assert (O0 : 0 <= offset t <= len (bytes t)).
  { destruct (valid_len t V) as (_ & L & _). lia. }
  rewrite <- Tk. rewrite take_extend by lia. reflexivity.
Qed.

Lemma NewBuffer_scratch (B x : Z) :
  0 <= x <= B -> 64 <= B -> B <= GoInt.max_int ->
  exists t, NewBuffer x = Ok t /\ scratch B t /\ offset t = 1.
Proof.
  intros Hx HB Hm. unfold NewBuffer, NewBufferWith. cbv zeta.
  set (sz := if x =? 0 then smallBufferSize else x).
  assert (Hsz : 1 <= sz <= B).
  { subst sz. destruct (x =? 0) eqn:E; zbool; unfold smallBufferSize; lia. }
  change (if GoInt.max_int =? 0 then GoInt.max_int32 else GoInt.max_int)
    with GoInt.max_int.
  unfold Calloc. destruct (sz <? 0) eqn:C; zbool; [lia|]. cbn [bind].
  destruct (repeat x00 (Z.to_nat sz)) as [|y a'] eqn:R.
  { apply (f_equal (@len byte)) in R. rewrite len_repeat, len_nil in R. lia. }
  cbn [bind]. eexists. split; [reflexivity|].
  assert (L : len (x00 :: a') = sz).
  { rewrite len_cons. replace (len a') with (len (y :: a') - 1)
      by (rewrite len_cons; lia).
    rewrite <- R, len_repeat. lia. }
  split; [|reflexivity].
  unfold scratch, valid. simpl.
  split; [|repeat split; lia].
  split; [lia|]. split; [lia|]. split; [split; vm_compute; discriminate|].
  eexists. split; [reflexivity|exact L].
Qed.

(** ** Walking the records of a range *)

Lemma len_encs_nonneg (ps : list (list byte)) : 0 <= len (encs ps).
Proof. apply len_nonneg. Qed.

Lemma len_encs_zero (ps : list (list byte)) : len (encs ps) <= 0 -> ps = [].
Proof.
  intros H. pose proof (len_encs_ge ps) as G.
  destruct ps; [reflexivity|]. simpl List.length in G. lia.
Qed.

Lemma len_encs_perm (ps qs : list (list byte)) :
  Permutation ps qs -> len (encs ps) = len (encs qs).
Proof.
  induction 1 as [|p ps qs P IH|p q ps|ps qs rs P1 IH1 P2 IH2].
  - reflexivity.
  - rewrite !encs_cons, !len_app. lia.
  - rewrite !encs_cons, !len_app. lia.
  - lia.
Qed.

Lemma collect_done (fuel : nat) (b : Buffer) (next end_ : Z) (acc : list Z) :
  next = 0 \/ end_ <= next -> collect fuel b next end_ acc = Ok acc.
Proof.
  intros H.
  assert (E : negb (next =? 0) && (next <? end_) = false).
  { destruct (next =? 0) eqn:Z0; [reflexivity|]. zbool.
    destruct (next <? end_) eqn:L; [|reflexivity]. zbool. lia. }
  destruct fuel; cbn [collect]; now rewrite E.
Qed.

Lemma payload_record (b : Buffer) (e o : Z) (p : list byte) :
  record_at b e o p -> e <= offset b -> offset b <= GoInt.max_int ->
  payload b o = p.
Proof.
  intros (pre & post & Hb & Hp & Hf & He) Ho Hm. unfold payload.
  rewrite (Slice_record b pre post p o Hb Hp Hf) by lia. reflexivity.
Qed.

Section Walk.

Variable b : Buffer.
Variable end_ : Z.
Hypothesis Hend : end_ <= offset b.
Hypothesis Hmax : offset b <= GoInt.max_int.

Lemma collect_records (ps : list (list byte)) :
  forall fuel pre post off acc,
    bytes b = pre ++ encs ps ++ post -> len pre = off -> 0 < off ->
    off + len (encs ps) = end_ -> Forall fits ps ->
    (List.length ps <= fuel)%nat ->
    collect fuel b off end_ acc = Ok (acc ++ starts off ps).
Proof.
  induction ps as [|p ps IH]; intros fuel pre post off acc Hb Hp H0 He Hf Hfuel.
  - cbn [encs flat_map] in He. rewrite len_nil in He.
    rewrite collect_done by lia. cbn [starts]. now rewrite app_nil_r.
  - destruct fuel as [|fuel]; [simpl in Hfuel; lia|].
    rewrite encs_cons, <- app_assoc in Hb.
    rewrite encs_cons, len_app, len_enc in He.
    pose proof (len_nonneg p) as P0. pose proof (len_encs_nonneg ps) as P1.
    apply Forall_cons_iff in Hf as (Fp & Fps). subst off.
    cbn [collect].
    assert (E : negb (len pre =? 0) && (len pre <? end_) = true).
    { destruct (len pre =? 0) eqn:Z0; zbool; [lia|].
      destruct (_ <? _) eqn:L; zbool; [reflexivity|lia]. }
    rewrite E.
    rewrite (Slice_record b pre (encs ps ++ post) p (len pre) Hb eq_refl Fp)
      by lia.
    cbn [bind starts].
    destruct (len pre + 4 + len p >=? offset b) eqn:G; zbool.
    + assert (ps = []) by (apply len_encs_zero; lia). subst ps.
      rewrite collect_done by (now left). cbn [starts]. reflexivity.
    + rewrite (IH fuel (pre ++ enc p) post (len pre + 4 + len p)).
      * now rewrite <- app_assoc.
      * now rewrite <- app_assoc.
      * rewrite len_app, len_enc. lia.
      * lia.
      * lia.
      * exact Fps.
      * simpl in Hfuel. lia.
Qed.

Lemma layout_records (ps : list (list byte)) :
  forall pre post off,
    bytes b = pre ++ encs ps ++ post -> len pre = off ->
    off + len (encs ps) = end_ -> Forall fits ps ->
    Forall2 (record_at b end_) (starts off ps) ps.
Proof.
  induction ps as [|p ps IH]; intros pre post off Hb Hp He Hf; [constructor|].
  rewrite encs_cons, <- app_assoc in Hb.
  rewrite encs_cons, len_app, len_enc in He.
  pose proof (len_encs_nonneg ps) as P1.
  apply Forall_cons_iff in Hf as (Fp & Fps). subst off.
  cbn [starts]. constructor.
  - exists pre, (encs ps ++ post). repeat split; try assumption; lia.
  - apply (IH (pre ++ enc p) post).
    + now rewrite <- app_assoc.
    + rewrite len_app, len_enc. lia.
    + lia.
    + exact Fps.
Qed.

Lemma payloads_at (os : list Z) (ps : list (list byte)) :
  Forall2 (record_at b end_) os ps -> map (payload b) os = ps.
Proof.
  induction 1 as [|o p os ps R F IH]; [reflexivity|].
  cbn [map]. rewrite IH. f_equal. now apply (payload_record b end_).
Qed.

Lemma records_in (os : list Z) (ps : list (list byte)) :
  Forall2 (record_at b end_) os ps ->
  Forall (fun o => record_at b end_ o (payload b o)) os.
Proof.
  induction 1 as [|o p os ps R F IH]; constructor; [|exact IH].
  now rewrite (payload_record b end_ o p R).
Qed.

End Walk.

(** [rawSlice] on a slice that begins with a record. *)
Lemma rawSlice_record (a pre post p : list byte) (s : span) :
  a = pre ++ enc p ++ post -> fst s = len pre -> fst s + 4 <= snd s ->
  snd s <= len a -> fits p ->
  rawSlice a s = Ok (len pre, len pre + 4 + len p).
Proof.
  intros Ha Hs H4 Hl Hf. unfold rawSlice.
  pose proof (len_nonneg p) as P0. pose proof (len_nonneg pre) as P1.
  pose proof (len_nonneg post) as P2.
  assert (La : len a = len pre + (4 + len p) + len post).
  { rewrite Ha, !len_app, len_enc. lia. }
  assert (R : exists rest, read a s = be32 (len p) ++ rest).
  { unfold read, span_len. rewrite Hs, Ha, drop_app_exact.
    unfold enc. rewrite to_uint32_fits by exact Hf. rewrite <- app_assoc.
    rewrite take_app_ge by (rewrite len_be32; lia).
    eexists. reflexivity. }
  destruct R as (rest & ->).
  unfold fits in Hf.
  rewrite Uint32_be32 by lia. cbn [bind].
  assert (A : 4 +i len p = 4 + len p).
  { apply add_small. int_range. lia. }
  rewrite A, Hs.
  replace ((0 <=? 4 + len p) && (4 + len p <=? len a - len pre)) with true.
  - do 2 f_equal. lia.
  - symmetry. rewrite andb_true_iff, !Z.leb_le. lia.
Qed.

Lemma read_record (a pre post p : list byte) :
  a = pre ++ enc p ++ post ->
  read a (len pre, len pre + 4 + len p) = enc p.
Proof.
  intros ->. apply read_middle; [reflexivity|]. rewrite len_enc. lia.
Qed.

(** ** Sorting one chunk *)

Lemma bytes_not_nil (b : Buffer) : bytes b <> [] -> buf b <> None.
Proof. unfold bytes. destruct (buf b); [discriminate|congruence]. Qed.

Lemma read_of_take (a x y : list byte) (o : Z) :
  take o a = x ++ y -> o = len x + len y ->
  read a (len x, o) = y.
Proof.
  intros Ht Ho. pose proof (len_nonneg x). pose proof (len_nonneg y).
  rewrite <- (read_take a o) by lia. rewrite Ht.
  rewrite <- (app_nil_r y) at 1. apply read_middle; [reflexivity|lia].
Qed.

Section Stage.

Variable b : Buffer.
Variable end_ B : Z.
Hypothesis Hend : end_ <= offset b.
Hypothesis Hmax : offset b <= GoInt.max_int.
Hypothesis HB : 7 * B <= GoInt.max_int.

Lemma stage_records (os : list Z) :
  forall t,
    Forall (fun o => record_at b end_ o (payload b o)) os ->
    scratch B t ->
    offset t + len (encs (map (payload b) os)) <= B ->
    exists t', stage b t os = Ok t' /\ scratch B t' /\
      offset t' = offset t + len (encs (map (payload b) os)) /\
      take (offset t') (bytes t')
      = take (offset t) (bytes t) ++ encs (map (payload b) os).
Proof.
  induction os as [|o os IH]; intros t Hr Ht Hroom.
  - exists t. cbn [stage map encs flat_map]. rewrite len_nil, app_nil_r.
    split; [reflexivity|]. split; [exact Ht|]. split; [lia|reflexivity].
  - apply Forall_cons_iff in Hr as ((pre & post & Hb & Hp & Hf & He) & Hr).
    cbn [map] in Hroom |- *. rewrite encs_cons, len_app in Hroom.
    set (p := payload b o) in *.
    pose proof (len_encs_nonneg (map (payload b) os)) as P1.
    pose proof (len_nonneg p) as P0. pose proof (len_nonneg pre) as P2.
    pose proof (len_nonneg post) as P3.
    assert (La : len (bytes b) = len pre + (4 + len p) + len post).
    { rewrite Hb, !len_app, len_enc. lia. }
    cbn [stage].
    rewrite slice_ok by lia. cbn [bind].
    rewrite (rawSlice_record (bytes b) pre post p (o, len (bytes b)) Hb)
      by (simpl; first [assumption | lia]).
    cbn [bind]. rewrite (read_record (bytes b) pre post p Hb).
    destruct (Write_scratch B t (enc p) Ht) as (t1 & W & S1 & O1 & T1);
      [lia|exact HB|].
    rewrite W. cbn [bind].
    destruct (IH t1 Hr S1) as (t' & St & S' & O' & T'); [lia|].
    exists t'. split; [exact St|]. split; [exact S'|].
    rewrite encs_cons, len_app. split; [lia|].
    rewrite T', T1. now rewrite <- app_assoc.
Qed.

End Stage.

Section SortSmall.

Variable sort_Slice : (Z -> Z -> bool) -> list Z -> list Z.
Hypothesis Hsort : sort_contract sort_Slice.

(** [sortSmall] on a chunk that holds the records [g]: it returns, and the
    chunk holds a rearrangement of [g], in order when the comparison is a
    strict weak ordering; the bytes around the chunk stay. *)
Lemma sortSmall_sorts (s : sortHelper.t) (B l r : Z) (pre post : list byte)
    (g : list (list byte)) :
  bytes (sortHelper.b s) = pre ++ encs g ++ post ->
  len pre = l -> 0 < l -> r = l + len (encs g) ->
  r <= offset (sortHelper.b s) -> offset (sortHelper.b s) <= GoInt.max_int ->
  Forall fits g ->
  scratch B (sortHelper.tmp s) -> 1 + len (encs g) <= B ->
  7 * B <= GoInt.max_int ->
  exists s' g',
    sortSmall sort_Slice s l r = Ok s' /\
    bytes (sortHelper.b s') = pre ++ encs g' ++ post /\
    Permutation g g' /\
    (strict_weak_order (sortHelper.less s) -> nondecreasing (sortHelper.less s) g') /\
    kept s s' /\ scratch B (sortHelper.tmp s').
Proof.
  intros Hb Hp Hl Hr Hend Hmax Hf Ht Hroom HB.
  set (bb := sortHelper.b s) in *.
  pose proof (len_encs_nonneg g) as G0. pose proof (len_nonneg post) as P3.
  assert (Lb : len (bytes bb) = l + len (encs g) + len post).
  { rewrite Hb, !len_app. lia. }
  assert (Nb : buf bb <> None).
  { apply bytes_not_nil. intros E. rewrite E, len_nil in Lb. lia. }
  unfold sortSmall. cbv zeta.
  cbn [sortHelper.b sortHelper.tmp sortHelper.small sortHelper.less
       sortHelper.offsets set_tmp set_small set_b].
  fold bb.
  (* the walk *)
  rewrite (collect_records bb r Hend Hmax g _ pre post l [] Hb Hp Hl)
    by (try assumption; try lia; pose proof (len_encs_ge g); lia).
  cbn [bind app].
  set (lt := fun i j => sortHelper.less s (payload bb i) (payload bb j)).
  destruct (Hsort lt (starts l g)) as (Perm & Sorted).
  set (os := sort_Slice lt (starts l g)) in *.
  pose proof (layout_records bb r g pre post l Hb Hp (eq_sym Hr) Hf) as F2.
  assert (Eg : map (payload bb) (starts l g) = g)
    by (apply (payloads_at bb r Hend Hmax); exact F2).
  assert (Pg : Permutation g (map (payload bb) os)).
  { rewrite <- Eg at 1. now apply Permutation_map. }
  set (g' := map (payload bb) os) in *.
  assert (Lg : len (encs g') = len (encs g))
    by (symmetry; now apply len_encs_perm).
  assert (Fos : Forall (fun o => record_at bb r o (payload bb o)) os).
  { apply (Permutation_Forall Perm).
    apply (records_in bb r Hend Hmax _ g). exact F2. }
  (* the records go to the scratch buffer *)
  destruct (scratch_Reset B _ Ht) as (Ht0 & O0).
  destruct (stage_records bb r B HB os (Reset (sortHelper.tmp s)) Fos Ht0)
    as (t' & St & S' & O' & T'); [fold g'; lia|].
  fold g' in O', T'. rewrite St. cbn [bind].
  (* and come back *)
  rewrite slice_ok by lia. cbn [bind].
  unfold Bytes.
  assert (Lt : offset t' <= len (bytes t')).
  { destruct S' as (V' & _). apply (valid_len t' V'). }
  rewrite slice_ok by lia. cbn [bind].
  assert (T1 : len (take 1 (bytes (Reset (sortHelper.tmp s)))) = 1).
  { destruct Ht0 as (V0 & _). destruct (valid_len _ V0) as (_ & L0 & _).
    rewrite len_take. lia. }
  rewrite O0 in T', O'.
  assert (Rd : read (bytes t') (1, offset t') = encs g').
  { rewrite <- T1 at 1. apply read_of_take; [exact T'|]. lia. }
  rewrite Rd.
  assert (Cp : copy (bytes bb) (l, r) (encs g')
               = (pre ++ encs g' ++ post, len (encs g'))).
  { rewrite Hb. apply copy_middle; lia. }
  rewrite Cp.
  assert (A : r -i l = r - l) by (apply sub_small; int_range; lia).
  rewrite A.
  replace (r - l =? len (encs g')) with true by (symmetry; apply Z.eqb_eq; lia).
  cbn [assert bind].
  eexists. exists g'. split; [reflexivity|].
  cbn [sortHelper.b sortHelper.tmp sortHelper.small sortHelper.less
       sortHelper.offsets set_tmp set_small set_b].
  split; [now apply bytes_store|]. split; [exact Pg|]. split.
  - intros Swo. apply nondecreasing_map. apply Sorted.
    apply (swo_pullback (payload bb) _ Swo).
  - split; [|exact S'].
    unfold kept.
    cbn [sortHelper.b sortHelper.tmp sortHelper.small sortHelper.less
         sortHelper.offsets set_tmp set_small set_b].
    split; [|split; reflexivity].
    apply same_frame_store. fold bb. rewrite !len_app, Hb, !len_app. lia.
Qed.

End SortSmall.

(** ** Merging two runs *)

Lemma mergeLoop_done (fuel : nat) (less : LessFunc) (t a : list byte)
    (l r : span) (start end_ : Z) :
  end_ <= start -> mergeLoop fuel less t a l r start end_ = Ok a.
Proof.
  intros H. assert (E : (start <? end_) = false) by (apply Z.ltb_ge; lia).
  destruct fuel; cbn [mergeLoop]; now rewrite E.
Qed.

Lemma copy_tail (a src : list byte) (start : Z) :
  0 <= start -> start + len src <= len a ->
  copy a (start, len a) src
  = (take start a ++ src ++ drop (start + len src) a, len src).
Proof.
  intros H0 H. unfold copy, span_len. cbn [fst snd].
  rewrite Z.min_r by lia. now rewrite (take_all (len src) src) by lia.
Qed.

Lemma advance_ok (s : span) (k : Z) :
  0 <= k <= span_len s -> advance s k = Ok (fst s + k, snd s).
Proof.
  intros H. unfold advance.
  replace ((0 <=? k) && (k <=? span_len s)) with true; [reflexivity|].
  symmetry. rewrite andb_true_iff, !Z.leb_le. lia.
Qed.

Lemma encs_nonempty_len (p : list byte) (ps : list (list byte)) :
  4 + len p <= len (encs (p :: ps)).
Proof.
  rewrite encs_cons, len_app, len_enc. pose proof (len_encs_nonneg ps). lia.
Qed.

Lemma read_payload (a pre post p : list byte) :
  a = pre ++ enc p ++ post -> fits p ->
  read a (len pre + 4, len pre + 4 + len p) = p.
Proof.
  intros -> Hf. unfold enc. rewrite <- app_assoc, (app_assoc pre).
  apply read_middle.
  - rewrite len_app, len_be32. lia.
  - rewrite len_app, len_be32. lia.
Qed.

Section MergeLoop.

Variable less : LessFunc.
Variable t : list byte.

Lemma mergeLoop_merges (fuel : nat) :
  forall L R a pre gap post tpre tpost start,
    a = pre ++ gap ++ encs R ++ post ->
    len pre = start -> len gap = len (encs L) ->
    t = tpre ++ encs L ++ tpost ->
    Forall fits L -> Forall fits R ->
    len a <= GoInt.max_int ->
    (List.length L + List.length R <= fuel)%nat ->
    mergeLoop fuel less t a
      (len tpre, len tpre + len (encs L))
      (start + len gap, start + len gap + len (encs R))
      start (start + len gap + len (encs R))
    = Ok (pre ++ encs (merge_list less L R) ++ post).
Proof.
  induction fuel as [|fuel IH];
    intros L R a pre gap post tpre tpost start Ha Hp Hg Ht FL FR Hm Hfuel.
  { destruct L; [|simpl in Hfuel; lia]. destruct R; [|simpl in Hfuel; lia].
    change (encs []) with (@nil byte) in *. rewrite !len_nil in *.
    rewrite mergeLoop_done by lia.
    assert (gap = []) by (apply len_zero_nil; lia).
    subst gap. now rewrite Ha. }
  pose proof (len_nonneg pre) as P0. pose proof (len_nonneg gap) as P1.
  pose proof (len_nonneg post) as P2. pose proof (len_encs_nonneg L) as P3.
  pose proof (len_encs_nonneg R) as P4. pose proof (len_nonneg tpre) as P5.
  pose proof (len_nonneg tpost) as P6.
  assert (La : len a = start + len gap + len (encs R) + len post).
  { rewrite Ha, !len_app. lia. }
  assert (Lt : len t = len tpre + len (encs L) + len tpost).
  { rewrite Ht, !len_app. lia. }
  destruct L as [|l L].
  - (* the left run is used up *)
    change (encs []) with (@nil byte) in *. rewrite len_nil in Hg.
    assert (gap = []) by (apply len_zero_nil; lia).
    subst gap. cbn [app] in Ha.
    rewrite !len_nil, !Z.add_0_r in *.
    rewrite merge_list_nil_l.
    destruct R as [|r R].
    { change (encs []) with (@nil byte) in *. rewrite len_nil, Z.add_0_r.
      rewrite mergeLoop_done by lia. now rewrite Ha. }
    pose proof (encs_nonempty_len r R) as Q. pose proof (len_nonneg r).
    cbn [mergeLoop].
    replace (start <? start + len (encs (r :: R))) with true
      by (symmetry; apply Z.ltb_lt; lia).
    replace (span_len (len tpre, len tpre) =? 0) with true
      by (symmetry; apply Z.eqb_eq; unfold span_len; cbn [fst snd]; lia).
    rewrite slice_ok by lia. cbn [bind].
    assert (Rd : read a (start, start + len (encs (r :: R))) = encs (r :: R)).
    { rewrite Ha. apply read_middle; lia. }
    rewrite Rd.
    assert (Cp : copy a (start, start + len (encs (r :: R))) (encs (r :: R))
                 = (a, len (encs (r :: R)))).
    { rewrite Ha. apply copy_middle; lia. }
    rewrite Cp.
    replace (span_len (start, start + len (encs (r :: R))) =? len (encs (r :: R)))
      with true by (symmetry; apply Z.eqb_eq; unfold span_len; cbn [fst snd]; lia).
    cbn [assert bind]. now rewrite Ha.
  - pose proof (encs_nonempty_len l L) as Ql. pose proof (len_nonneg l) as Pl.
    pose proof (len_enc l) as El.
    assert (EL : len (encs (l :: L)) = len (enc l) + len (encs L))
      by (rewrite encs_cons, len_app; lia).
    apply Forall_cons_iff in FL as (Fl & FL).
    cbn [mergeLoop].
    replace (start <? start + len gap + len (encs R)) with true
      by (symmetry; apply Z.ltb_lt; lia).
    replace (span_len (len tpre, len tpre + len (encs (l :: L))) =? 0) with false
      by (symmetry; apply Z.eqb_neq; unfold span_len; cbn [fst snd]; lia).
    destruct R as [|r R].
    + (* the right run is used up *)
      rewrite merge_list_nil_r.
      change (encs []) with (@nil byte) in *. cbn [app] in Ha.
      rewrite !len_nil, !Z.add_0_r in *.
      replace (span_len (start + len gap, start + len gap) =? 0) with true
        by (symmetry; apply Z.eqb_eq; unfold span_len; cbn [fst snd]; lia).
      rewrite slice_ok by lia.
      cbn [bind].
      assert (Rd : read t (len tpre, len tpre + len (encs (l :: L)))
                   = encs (l :: L)).
      { rewrite Ht. apply read_middle; lia. }
      rewrite Rd.
      assert (Cp : copy a (start, start + len gap) (encs (l :: L))
                   = (pre ++ encs (l :: L) ++ post, len (encs (l :: L)))).
      { rewrite Ha. apply copy_middle; lia. }
      rewrite Cp.
      replace (span_len (len tpre, len tpre + len (encs (l :: L)))
               =? len (encs (l :: L)))
        with true by (symmetry; apply Z.eqb_eq; unfold span_len; cbn [fst snd]; lia).
      reflexivity.
    + pose proof (encs_nonempty_len r R) as Qr. pose proof (len_nonneg r) as Pr.
      pose proof (len_enc r) as Er.
      assert (ER : len (encs (r :: R)) = len (enc r) + len (encs R))
        by (rewrite encs_cons, len_app; lia).
      apply Forall_cons_iff in FR as (Fr & FR).
      replace (span_len (start + len gap,
                         start + len gap + len (encs (r :: R))) =? 0)
        with false
        by (symmetry; apply Z.eqb_neq; unfold span_len; cbn [fst snd]; lia).
      (* the two records at the heads *)
      assert (Ht' : t = tpre ++ enc l ++ (encs L ++ tpost)).
      { rewrite Ht, encs_cons. now rewrite <- app_assoc. }
      assert (Ha' : a = (pre ++ gap) ++ enc r ++ (encs R ++ post)).
      { rewrite Ha, encs_cons. now rewrite <- !app_assoc. }
      rewrite (rawSlice_record t tpre (encs L ++ tpost) l _ Ht')
        by (cbn [fst snd]; first [reflexivity | assumption | lia]).
      cbn [bind].
      rewrite (rawSlice_record a (pre ++ gap) (encs R ++ post) r _ Ha')
        by (cbn [fst snd]; rewrite ?len_app; first [assumption | lia]).
      cbn [bind].
      rewrite !advance_ok by (unfold span_len; cbn [fst snd]; lia).
      cbn [bind fst snd].
      rewrite (read_payload t tpre (encs L ++ tpost) l Ht' Fl).
      rewrite (read_payload a (pre ++ gap) (encs R ++ post) r Ha' Fr).
      rewrite merge_list_cons.
      rewrite slice_ok by lia. cbn [bind].
      destruct (less l r).
      * (* copyLeft *)
        rewrite (read_record t tpre (encs L ++ tpost) l Ht').
        rewrite copy_tail by (rewrite ?len_enc; lia).
        replace (span_len (len tpre, len tpre + 4 + len l) =? len (enc l))
          with true
          by (symmetry; apply Z.eqb_eq; unfold span_len; rewrite len_enc;
              cbn [fst snd]; lia).
        cbn [assert bind fst snd]. unfold span_len. cbn [fst snd].
        replace (len tpre + 4 + len l - len tpre) with (len (enc l))
          by (rewrite len_enc; lia).
        rewrite add_small by (rewrite len_enc; int_range; lia).
        set (gap' := drop (len (enc l)) gap).
        assert (Lg' : len gap' = len (encs L)).
        { subst gap'. rewrite len_drop, len_enc.
          rewrite encs_cons, len_app, len_enc in Hg. llia. }
        assert (Ea : take start a ++ enc l ++ drop (start + len (enc l)) a
                     = (pre ++ enc l) ++ gap' ++ encs (r :: R) ++ post).
        { rewrite Ha, <- Hp, take_app_exact.
          rewrite drop_app_ge by lia.
          replace (len pre + len (enc l) - len pre) with (len (enc l)) by lia.
          rewrite drop_app_le by (rewrite len_enc; lia).
          now rewrite <- !app_assoc. }
        rewrite Ea.
        specialize (IH L (r :: R) _ (pre ++ enc l) gap' post (tpre ++ enc l) tpost
                      (start + len (enc l)) eq_refl).
        rewrite !len_app in IH.
        replace (len tpre + len (enc l) + len (encs L))
          with (len tpre + len (encs (l :: L))) in IH
          by (rewrite encs_cons, len_app; lia).
        replace (start + len (enc l) + len gap') with (start + len gap) in IH
          by lia.
        rewrite IH.
        -- rewrite encs_cons. now rewrite <- !app_assoc.
        -- lia.
        -- exact Lg'.
        -- rewrite Ht, encs_cons. now rewrite <- !app_assoc.
        -- exact FL.
        -- now constructor.
        -- lia.
        -- simpl in Hfuel |- *. lia.
      * (* copyRight *)
        rewrite (read_record a (pre ++ gap) (encs R ++ post) r Ha').
        rewrite copy_tail by (rewrite ?len_enc; lia).
        replace (span_len (len (pre ++ gap), len (pre ++ gap) + 4 + len r)
                 =? len (enc r))
          with true
          by (symmetry; apply Z.eqb_eq; unfold span_len; rewrite len_enc;
              cbn [fst snd]; lia).
        cbn [assert bind fst snd]. unfold span_len. cbn [fst snd].
        replace (len (pre ++ gap) + 4 + len r - len (pre ++ gap))
          with (len (enc r)) by (rewrite len_enc; lia).
        rewrite add_small by (rewrite len_enc; int_range; lia).
        set (gap' := drop (len (enc r)) (gap ++ enc r)).
        assert (Lg' : len gap' = len (encs (l :: L))).
        { subst gap'. rewrite len_drop, len_app. llia. }
        assert (Ea : take start a ++ enc r ++ drop (start + len (enc r)) a
                     = (pre ++ enc r) ++ gap' ++ encs R ++ post).
        { rewrite Ha, <- Hp, take_app_exact.
          rewrite drop_app_ge by lia.
          replace (len pre + len (enc r) - len pre) with (len (enc r)) by lia.
          rewrite encs_cons, <- (app_assoc (enc r)), (app_assoc gap).
          rewrite drop_app_le by (rewrite len_app; lia).
          now rewrite <- !app_assoc. }
        rewrite Ea.
        specialize (IH (l :: L) R _ (pre ++ enc r) gap' post tpre tpost
                      (start + len (enc r)) eq_refl).
        rewrite !len_app in IH.
        replace (start + len (enc r) + len gap' + len (encs R))
          with (start + len gap + len (encs (r :: R))) in IH
          by (rewrite encs_cons, len_app; lia).
        replace (start + len (enc r) + len gap')
          with (start + len gap + len (enc r)) in IH by lia.
        rewrite IH.
        -- rewrite encs_cons. now rewrite <- !app_assoc.
        -- lia.
        -- exact Lg'.
        -- exact Ht.
        -- now constructor.
        -- exact FR.
        -- lia.
        -- simpl in Hfuel |- *. lia.
Qed.

End MergeLoop.

Lemma len_encs_merge (less : LessFunc) (L R : list (list byte)) :
  len (encs (merge_list less L R)) = len (encs L) + len (encs R).
Proof.
  rewrite <- (len_encs_perm _ _ (merge_list_perm less L R)).
  now rewrite encs_app, len_app.
Qed.

(** [merge] on two adjacent runs [L] and [R] of the region: it returns, and
    the two runs have become their merge; the bytes around them stay. *)
Lemma merge_merges (s : sortHelper.t) (B lo : Z) (pre post : list byte)
    (L R : list (list byte)) :
  bytes (sortHelper.b s) = pre ++ encs L ++ encs R ++ post ->
  len pre = lo ->
  Forall fits L -> Forall fits R ->
  len (bytes (sortHelper.b s)) <= GoInt.max_int ->
  scratch B (sortHelper.tmp s) -> 1 + len (encs L) <= B ->
  7 * B <= GoInt.max_int ->
  exists s',
    merge s (lo, lo + len (encs L))
      (lo + len (encs L), lo + len (encs L) + len (encs R))
      lo (lo + len (encs L) + len (encs R)) = Ok s' /\
    bytes (sortHelper.b s') = pre ++ encs (merge_list (sortHelper.less s) L R) ++ post /\
    kept s s' /\ scratch B (sortHelper.tmp s').
Proof.
  intros Hb Hp FL FR Hm Ht Hroom HB.
  pose proof (len_encs_nonneg L) as P3. pose proof (len_encs_nonneg R) as P4.
  pose proof (len_nonneg pre) as P0. pose proof (len_nonneg post) as P2.
  unfold merge, span_len. cbn [fst snd].
  replace (lo + len (encs L) - lo) with (len (encs L)) by lia.
  replace (lo + len (encs L) + len (encs R) - (lo + len (encs L)))
    with (len (encs R)) by lia.
  destruct (len (encs L) =? 0) eqn:EL; zbool.
  { assert (L = []) by (apply len_encs_zero; lia). subst L.
    exists s. cbn [orb]. split; [reflexivity|]. rewrite merge_list_nil_l.
    split; [exact Hb|]. split; [apply kept_refl|exact Ht]. }
  destruct (len (encs R) =? 0) eqn:ER; zbool.
  { assert (R = []) by (apply len_encs_zero; lia). subst R.
    exists s. cbn [orb]. split; [reflexivity|]. rewrite merge_list_nil_r.
    split; [exact Hb|]. split; [apply kept_refl|exact Ht]. }
  cbn [orb].
  assert (Rd : read (bytes (sortHelper.b s)) (lo, lo + len (encs L)) = encs L).
  { rewrite Hb. apply read_middle; lia. }
  rewrite Rd.
  destruct (scratch_Reset B _ Ht) as (Ht0 & O0).
  destruct (Write_scratch B (Reset (sortHelper.tmp s)) (encs L) Ht0)
    as (t1 & W & S1 & O1 & T1); [lia|exact HB|].
  rewrite W. cbn [bind].
  rewrite O0 in O1, T1.
  assert (Lt : offset t1 <= len (bytes t1)).
  { destruct S1 as (V1 & _). apply (valid_len t1 V1). }
  rewrite slice_ok by lia. cbn [bind].
  set (tpre := take 1 (bytes (Reset (sortHelper.tmp s)))) in *.
  assert (Lp : len tpre = 1).
  { subst tpre. destruct Ht0 as (V0 & _). destruct (valid_len _ V0) as (_ & L0 & _).
    rewrite len_take. lia. }
  assert (Et : bytes t1 = tpre ++ encs L ++ drop (offset t1) (bytes t1)).
  { rewrite app_assoc, <- T1. symmetry. apply take_drop_id. }
  pose proof (mergeLoop_merges (sortHelper.less s) (bytes t1)
                (Z.to_nat (lo + len (encs L) + len (encs R) - lo))
                L R (bytes (sortHelper.b s)) pre (encs L) post tpre
                (drop (offset t1) (bytes t1)) lo Hb Hp eq_refl Et FL FR Hm) as M.
  rewrite Lp in M. rewrite O1.
  rewrite M.
  2:{ pose proof (len_encs_ge L). pose proof (len_encs_ge R). lia. }
  cbn [bind]. eexists. split; [reflexivity|].
  cbn [sortHelper.b sortHelper.tmp sortHelper.less set_b set_tmp].
  assert (Nb : buf (sortHelper.b s) <> None).
  { apply bytes_not_nil. intros E. rewrite E in Hb.
    apply (f_equal (@len byte)) in Hb. rewrite !len_app, len_nil in Hb. lia. }
  split; [now apply bytes_store|]. split; [|exact S1].
  unfold kept. cbn [sortHelper.b sortHelper.offsets sortHelper.less set_b set_tmp].
  split; [|split; reflexivity].
  apply same_frame_store. rewrite Hb, !len_app, len_encs_merge. lia.
Qed.

(** ** The merge over the chunks *)

Lemma index_zero (x : Z) (l : list Z) : index (x :: l) 0 = Ok x.
Proof.
  unfold index. rewrite len_cons. pose proof (len_nonneg l).
  replace ((0 <? 0) || (1 + len l <=? 0)) with false; [reflexivity|].
  symmetry. apply orb_false_iff. split; [reflexivity|apply Z.leb_gt; lia].
Qed.

Lemma index_succ (x : Z) (l : list Z) (k : Z) :
  0 <= k -> index (x :: l) (k + 1) = index l k.
Proof.
  intros H. unfold index. rewrite len_cons.
  replace (k + 1 <? 0) with false by (symmetry; apply Z.ltb_ge; lia).
  replace (k <? 0) with false by (symmetry; apply Z.ltb_ge; lia).
  cbn [orb].
  replace (1 + len l <=? k + 1) with (len l <=? k).
  2:{ destruct (len l <=? k) eqn:E; symmetry; zbool;
      [apply Z.leb_le|apply Z.leb_gt]; lia. }
  destruct (len l <=? k); [reflexivity|].
  replace (Z.to_nat (k + 1)) with (S (Z.to_nat k)) by lia. reflexivity.
Qed.

Lemma concat_encs_app (G H : list (list (list byte))) :
  encs (List.concat (G ++ H)) = encs (List.concat G) ++ encs (List.concat H).
Proof. now rewrite concat_app, encs_app. Qed.

Lemma index_boundaries (G1 : list (list (list byte))) :
  forall o G2,
    index (boundaries o (G1 ++ G2)) (len G1) = Ok (o + len (encs (List.concat G1))).
Proof.
  induction G1 as [|g G1 IH]; intros o G2.
  - cbn [app List.concat]. change (encs []) with (@nil byte).
    rewrite !len_nil, Z.add_0_r. destruct G2; apply index_zero.
  - cbn [app boundaries List.concat]. rewrite len_cons, encs_app, len_app.
    replace (1 + len G1) with (len G1 + 1) by lia.
    rewrite index_succ by apply len_nonneg.
    rewrite IH. f_equal. lia.
Qed.

Lemma Forall_concat {A : Type} (P : A -> Prop) (G : list (list A)) :
  Forall (Forall P) G -> Forall P (List.concat G).
Proof.
  induction 1 as [|g G Hg HG IH]; [constructor|].
  cbn [List.concat]. apply Forall_app. now split.
Qed.

Lemma len_firstn_skipn {A : Type} (m : nat) (l : list A) :
  (m <= List.length l)%nat ->
  len (firstn m l) = Z.of_nat m /\ len (skipn m l) = len l - Z.of_nat m.
Proof.
  intros H. unfold len. rewrite length_firstn, length_skipn. lia.
Qed.

(** [sort] over the chunks [G2], which lie between the chunks [G1] and
    [G3]: it returns, the range of [G2] holds a rearrangement of its records,
    in order when each chunk was and the comparison is a strict weak
    ordering; the bytes around the range stay. *)
Lemma sort_sorts (fuel : nat) :
  forall (G1 G2 G3 : list (list (list byte))) (s : sortHelper.t)
         (pre post : list byte) (o0 B : Z),
    sortHelper.offsets s = boundaries o0 (G1 ++ G2 ++ G3) ->
    bytes (sortHelper.b s) = pre ++ encs (List.concat G2) ++ post ->
    len pre = o0 + len (encs (List.concat G1)) -> 0 <= o0 ->
    Forall (Forall fits) G2 ->
    len (bytes (sortHelper.b s)) <= GoInt.max_int ->
    len G1 + len G2 <= GoInt.max_int ->
    scratch B (sortHelper.tmp s) -> 1 + len (encs (List.concat G2)) <= B ->
    7 * B <= GoInt.max_int ->
    (List.length G2 < fuel)%nat ->
    exists s' qs,
      sort fuel s (len G1) (len G1 + len G2)
      = Ok (s', (len pre, len pre + len (encs (List.concat G2)))) /\
      bytes (sortHelper.b s') = pre ++ encs qs ++ post /\
      Permutation (List.concat G2) qs /\
      (strict_weak_order (sortHelper.less s) ->
       Forall (nondecreasing (sortHelper.less s)) G2 ->
       nondecreasing (sortHelper.less s) qs) /\
      kept s s' /\ scratch B (sortHelper.tmp s').
Proof.
  induction fuel as [|fuel IH];
    intros G1 G2 G3 s pre post o0 B Ho Hb Hp H0 Hf Hm Hn Ht Hroom HB Hfuel;
    [lia|].
  pose proof (len_nonneg G1) as N1. pose proof (len_nonneg G2) as N2.
  pose proof (len_nonneg pre) as P0. pose proof (len_nonneg post) as P2.
  pose proof (len_encs_nonneg (List.concat G2)) as P3.
  assert (Lb : len (bytes (sortHelper.b s))
               = len pre + len (encs (List.concat G2)) + len post).
  { rewrite Hb, !len_app. lia. }
  cbn [sort].
  replace (len G1 <=? len G1 + len G2) with true
    by (symmetry; apply Z.leb_le; lia).
  cbn [assert bind].
  assert (Ehl : len G1 + len G2 -i len G1 = len G2)
    by (rewrite sub_small by (int_range; lia); lia).
  rewrite Ehl.
  assert (Q2 : 0 <= Z.quot (len G2) 2 <= len G2).
  { split; [apply Z.quot_pos; lia|].
    rewrite Z.quot_div_nonneg by lia. apply Z.div_le_upper_bound; lia. }
  rewrite add_small by (int_range; lia).
  (* the two boundaries *)
  assert (Ilo : index (boundaries o0 (G1 ++ G2 ++ G3)) (len G1) = Ok (len pre)).
  { rewrite index_boundaries. now rewrite Hp. }
  assert (Ihi : index (boundaries o0 (G1 ++ G2 ++ G3)) (len G1 + len G2)
                = Ok (len pre + len (encs (List.concat G2)))).
  { rewrite (app_assoc G1 G2 G3), <- (len_app G1 G2), index_boundaries.
    rewrite concat_encs_app, len_app, Hp. f_equal. lia. }
  rewrite Ho, Ilo, Ihi. cbn [bind].
  destruct (len G1 =? len G1 + Z.quot (len G2) 2) eqn:Emid; zbool.
  - (* one chunk, or none: nothing to merge *)
    rewrite slice_ok by lia. cbn [bind].
    exists s, (List.concat G2). split; [reflexivity|]. split; [exact Hb|].
    split; [apply Permutation_refl|]. split; [|split; [apply kept_refl|exact Ht]].
    intros _ Hs.
    assert (L1 : len G2 <= 1).
    { rewrite Z.quot_div_nonneg in Emid by lia.
      destruct (Z_le_gt_dec (len G2) 1) as [L|L]; [exact L|].
      assert (1 <= len G2 / 2) by (apply Z.div_le_lower_bound; lia). lia. }
    destruct G2 as [|g [|g' G2]].
    + constructor.
    + cbn [List.concat]. rewrite app_nil_r. now apply Forall_inv in Hs.
    + rewrite !len_cons in L1. pose proof (len_nonneg G2). lia.
  - (* two halves *)
    set (m := Z.to_nat (Z.quot (len G2) 2)).
    assert (Hm1 : (1 <= m < List.length G2)%nat).
    { subst m. unfold len in *. rewrite Z.quot_div_nonneg in * by lia.
      assert (Z.of_nat (List.length G2) / 2 < Z.of_nat (List.length G2)).
      { apply Z.div_lt_upper_bound; lia. }
      lia. }
    assert (Em : Z.quot (len G2) 2 = Z.of_nat m) by (subst m; lia).
    rewrite Em in *.
    set (A := firstn m G2). set (C := skipn m G2).
    assert (EG : G2 = A ++ C) by (symmetry; apply firstn_skipn).
    destruct (len_firstn_skipn m G2 ltac:(lia)) as (LA & LC).
    fold A in LA. fold C in LC.
    assert (FA : Forall (Forall fits) A /\ Forall (Forall fits) C).
    { rewrite EG in Hf. now apply Forall_app in Hf. }
    destruct FA as (FA & FC).
    assert (EE : encs (List.concat G2)
                 = encs (List.concat A) ++ encs (List.concat C)).
    { rewrite EG at 1. apply concat_encs_app. }
    pose proof (len_encs_nonneg (List.concat A)) as PA.
    pose proof (len_encs_nonneg (List.concat C)) as PC.
    assert (LE : len (encs (List.concat G2))
                 = len (encs (List.concat A)) + len (encs (List.concat C))).
    { rewrite EE, len_app. lia. }
    (* the left half *)
    destruct (IH G1 A (C ++ G3) s pre (encs (List.concat C) ++ post) o0 B)
      as (s1 & qa & S1 & B1 & Pa & Sa & K1 & T1); try assumption; try lia.
    { rewrite Ho, EG, <- app_assoc. reflexivity. }
    { rewrite Hb, EE, <- app_assoc. reflexivity. }
    { unfold len in LA |- *. lia. }
    rewrite <- LA. rewrite S1. cbn [bind].
    destruct K1 as (F1 & O1 & L1).
    assert (La : len (encs qa) = len (encs (List.concat A)))
      by (symmetry; now apply len_encs_perm).
    (* the right half *)
    destruct (IH (G1 ++ A) C G3 s1 (pre ++ encs qa) post o0 B)
      as (s2 & qc & S2 & B2 & Pc & Sc & K2 & T2); try assumption; try lia.
    { rewrite O1, Ho, EG, <- !app_assoc. reflexivity. }
    { rewrite B1, <- app_assoc. reflexivity. }
    { rewrite len_app, concat_encs_app, len_app. lia. }
    { destruct F1 as (_ & _ & _ & _ & _ & _ & F7 & _). rewrite F7. exact Hm. }
    { rewrite len_app. lia. }
    { unfold len in LC |- *. lia. }
    rewrite len_app in S2.
    replace (len G1 + len A + len C) with (len G1 + len G2) in S2 by lia.
    rewrite S2. cbn [bind].
    destruct K2 as (F2 & O2 & L2).
    assert (Lc : len (encs qc) = len (encs (List.concat C)))
      by (symmetry; now apply len_encs_perm).
    (* the merge *)
    assert (Fqa : Forall fits qa)
      by (apply (Permutation_Forall Pa); now apply Forall_concat).
    assert (Fqc : Forall fits qc)
      by (apply (Permutation_Forall Pc); now apply Forall_concat).
    assert (Hm2 : len (bytes (sortHelper.b s2)) <= GoInt.max_int).
    { destruct F1 as (_ & _ & _ & _ & _ & _ & F7 & _).
      destruct F2 as (_ & _ & _ & _ & _ & _ & F7' & _). rewrite F7', F7. exact Hm. }
    destruct (merge_merges s2 B (len pre) pre post qa qc)
      as (s3 & M & B3 & K3 & T3); try assumption; try lia.
    { rewrite B2, <- app_assoc. reflexivity. }
    rewrite <- La.
    replace (len pre + len (encs (List.concat G2)))
      with (len pre + len (encs qa) + len (encs qc)) by lia.
    rewrite len_app, <- Lc.
    rewrite M. cbn [bind].
    assert (L3 : len (bytes (sortHelper.b s3)) = len (bytes (sortHelper.b s))).
    { destruct F1 as (_ & _ & _ & _ & _ & _ & F7 & _).
      destruct F2 as (_ & _ & _ & _ & _ & _ & F7' & _).
      destruct K3 as ((_ & _ & _ & _ & _ & _ & F7'' & _) & _). lia. }
    rewrite slice_ok by lia. cbn [bind].
    exists s3, (merge_list (sortHelper.less s2) qa qc).
    split; [reflexivity|]. split; [exact B3|].
    split.
    { rewrite EG, concat_app.
      eapply Permutation_trans; [|apply merge_list_perm].
      now apply Permutation_app. }
    split.
    { intros Swo Hs. rewrite EG in Hs. apply Forall_app in Hs as (HsA & HsC).
      rewrite L2, L1. apply merge_list_sorted; [exact Swo| |].
      - now apply Sa.
      - rewrite L1 in Sc. now apply Sc. }
    split; [|exact T3].
    eapply kept_trans; [|exact K3].
    eapply kept_trans; [split; [exact F1|split; [exact O1|exact L1]]|].
    split; [exact F2|split; [exact O2|exact L2]].
Qed.

(** ** The chunks of a range *)

Lemma len_encs_nil : len (encs []) = 0.
Proof. reflexivity. Qed.

Lemma chunks_done (fuel : nat) (b : Buffer) (next end_ count : Z) (acc : list Z) :
  next = 0 \/ end_ <= next -> chunks fuel b next end_ count acc = Ok acc.
Proof.
  intros H.
  assert (E : negb (next =? 0) && (next <? end_) = false).
  { destruct (next =? 0) eqn:Z0; [reflexivity|]. zbool.
    destruct (next <? end_) eqn:L; [|reflexivity]. zbool. lia. }
  destruct fuel; cbn [chunks]; now rewrite E.
Qed.

Lemma boundaries_head (o : Z) (gs : list (list (list byte))) :
  boundaries o gs = o :: tl (boundaries o gs).
Proof. destruct gs; reflexivity. Qed.

Lemma boundaries_perm (gs gs' : list (list (list byte))) :
  Forall2 (fun g g' => Permutation g g') gs gs' ->
  forall o, boundaries o gs = boundaries o gs'.
Proof.
  induction 1 as [|g g' gs gs' P F IH]; intros o; [reflexivity|].
  cbn [boundaries]. rewrite (len_encs_perm g g' P). now rewrite IH.
Qed.

Lemma concat_perm (gs gs' : list (list (list byte))) :
  Forall2 (fun g g' => Permutation g g') gs gs' ->
  Permutation (List.concat gs) (List.concat gs').
Proof.
  induction 1 as [|g g' gs gs' P F IH]; [constructor|].
  cbn [List.concat]. now apply Permutation_app.
Qed.

Lemma len_boundaries (gs : list (list (list byte))) :
  forall o, len (boundaries o gs) = len gs + 1.
Proof.
  induction gs as [|g gs IH]; intros o; [reflexivity|].
  cbn [boundaries]. rewrite !len_cons, IH. lia.
Qed.

(** The boundaries but the last are below the last, when no chunk is
    empty. *)
Lemma boundaries_front (gs : list (list (list byte))) :
  forall o, Forall (fun g => g <> []) gs ->
  exists front,
    boundaries o gs = front ++ [o + len (encs (List.concat gs))] /\
    Forall (fun x => x < o + len (encs (List.concat gs))) front.
Proof.
  induction gs as [|g gs IH]; intros o Hne.
  - exists []. cbn [boundaries List.concat].
    rewrite len_encs_nil, Z.add_0_r. split; [reflexivity|constructor].
  - apply Forall_cons_iff in Hne as (Hg & Hne).
    destruct (IH (o + len (encs g)) Hne) as (front & E & F).
    exists (o :: front). cbn [boundaries List.concat].
    rewrite encs_app, len_app, E, Z.add_assoc. split; [reflexivity|].
    pose proof (len_encs_ge g) as G. pose proof (len_encs_nonneg (List.concat gs)).
    assert (0 < len (encs g)).
    { destruct g; [congruence|]. simpl List.length in G. lia. }
    constructor; [lia|].
    revert F. apply Forall_impl. intros x Hx. lia.
Qed.

Lemma index_ok (l : list Z) (i : Z) :
  0 <= i < len l -> exists x, index l i = Ok x /\ In x l.
Proof.
  intros H. unfold index.
  replace ((i <? 0) || (len l <=? i)) with false.
  2:{ symmetry. apply orb_false_iff. split; [apply Z.ltb_ge|apply Z.leb_gt]; lia. }
  destruct (nth_error l (Z.to_nat i)) as [x|] eqn:E.
  - exists x. split; [reflexivity|]. eapply nth_error_In. exact E.
  - apply nth_error_None in E. unfold len in H. lia.
Qed.

Section Chunks.

Variable b : Buffer.
Variable end_ : Z.
Hypothesis Hend : end_ <= offset b.
Hypothesis Hmax : offset b <= GoInt.max_int.

(** The loop that samples the offsets cuts the records into chunks, none
    empty, and returns the start of each. *)
Lemma chunks_groups (ps : list (list byte)) :
  forall fuel pre post off count acc,
    bytes b = pre ++ encs ps ++ post -> len pre = off -> 0 < off ->
    off + len (encs ps) = end_ -> Forall fits ps ->
    (List.length ps <= fuel)%nat ->
    exists first gs offs,
      ps = first ++ List.concat gs /\ Forall (fun g => g <> []) gs /\
      (Z.rem count 1024 = 0 -> ps <> [] -> first = []) /\
      chunks fuel b off end_ count acc = Ok offs /\
      offs ++ [end_] = acc ++ boundaries (off + len (encs first)) gs.
Proof.
  induction ps as [|p ps IH];
    intros fuel pre post off count acc Hb Hp H0 He Hf Hfuel.
  - rewrite len_encs_nil in He.
    exists [], [], acc. rewrite chunks_done by lia.
    rewrite len_encs_nil.
    cbn [boundaries]. replace (off + 0) with end_ by lia.
    repeat split; try reflexivity; try constructor.
  - destruct fuel as [|fuel]; [simpl in Hfuel; lia|].
    rewrite encs_cons, <- app_assoc in Hb.
    rewrite encs_cons, len_app, len_enc in He.
    pose proof (len_nonneg p) as P0. pose proof (len_encs_nonneg ps) as P1.
    apply Forall_cons_iff in Hf as (Fp & Fps). subst off.
    cbn [chunks].
    assert (E : negb (len pre =? 0) && (len pre <? end_) = true).
    { destruct (len pre =? 0) eqn:Z0; zbool; [lia|].
      destruct (_ <? _) eqn:L; zbool; [reflexivity|lia]. }
    rewrite E.
    rewrite (Slice_record b pre (encs ps ++ post) p (len pre) Hb eq_refl Fp)
      by lia.
    cbn [bind].
    set (acc' := if Z.rem count 1024 =? 0 then acc ++ [len pre] else acc).
    destruct (len pre + 4 + len p >=? offset b) eqn:G; zbool.
    + (* the last record of the buffer *)
      assert (ps = []) by (apply len_encs_zero; lia). subst ps.
      rewrite len_encs_nil in He.
      rewrite chunks_done by (now left).
      subst acc'. destruct (Z.rem count 1024 =? 0) eqn:R; zbool.
      * exists [], [[p]], (acc ++ [len pre]).
        split; [reflexivity|]. split; [repeat constructor; discriminate|].
        split; [reflexivity|]. split; [reflexivity|].
        rewrite len_encs_nil, Z.add_0_r.
        cbn [boundaries]. rewrite <- app_assoc. cbn [app].
        do 3 f_equal. change (encs [p]) with (enc p ++ []).
        rewrite app_nil_r, len_enc. lia.
      * exists [p], [], acc.
        split; [reflexivity|]. split; [constructor|].
        split; [intros; contradiction|]. split; [reflexivity|].
        cbn [boundaries]. do 2 f_equal. change (encs [p]) with (enc p ++ []).
        rewrite app_nil_r, len_enc. lia.
    + destruct (IH fuel (pre ++ enc p) post (len pre + 4 + len p) (count +i 1) acc')
        as (first & gs & offs & Eps & Hne & _ & Hc & Ho).
      * now rewrite <- app_assoc.
      * rewrite len_app, len_enc. lia.
      * lia.
      * lia.
      * exact Fps.
      * simpl in Hfuel. lia.
      * rewrite Hc. subst acc'.
        destruct (Z.rem count 1024 =? 0) eqn:R; zbool.
        -- exists [], ((p :: first) :: gs), offs.
           split; [cbn [app List.concat]; now rewrite Eps|].
           split; [constructor; [discriminate|exact Hne]|].
           split; [reflexivity|]. split; [reflexivity|].
           rewrite Ho, len_encs_nil, Z.add_0_r. cbn [boundaries].
           rewrite <- app_assoc. cbn [app]. do 3 f_equal.
           rewrite encs_cons, len_app, len_enc. lia.
        -- exists (p :: first), gs, offs.
           split; [cbn [app]; now rewrite Eps|]. split; [exact Hne|].
           split; [intros; contradiction|]. split; [reflexivity|].
           rewrite Ho. do 2 f_equal.
           rewrite encs_cons, len_app, len_enc. lia.
Qed.

End Chunks.

(** ** SortSliceBetween *)

Lemma len_groups_le (gs : list (list (list byte))) :
  Forall (fun g => g <> []) gs -> len gs <= len (encs (List.concat gs)).
Proof.
  induction 1 as [|g gs Hg Hgs IH]; [rewrite len_nil; apply len_nonneg|].
  cbn [List.concat]. rewrite encs_app, len_app, len_cons.
  pose proof (len_encs_ge g) as G.
  destruct g; [congruence|]. simpl List.length in G. lia.
Qed.

Section Sorting.

Variable sort_Slice : (Z -> Z -> bool) -> list Z -> list Z.
Variable scale : Z -> Z.
Hypothesis Hsort : sort_contract sort_Slice.
Hypothesis Hscale : scale_contract scale.

Lemma sortChunks_sorts (gs : list (list (list byte))) :
  forall (s : sortHelper.t) (pre post : list byte) (B : Z),
    bytes (sortHelper.b s) = pre ++ encs (List.concat gs) ++ post ->
    0 < len pre ->
    len pre + len (encs (List.concat gs)) <= offset (sortHelper.b s) ->
    offset (sortHelper.b s) <= GoInt.max_int ->
    Forall (Forall fits) gs ->
    scratch B (sortHelper.tmp s) -> 1 + len (encs (List.concat gs)) <= B ->
    7 * B <= GoInt.max_int ->
    exists s' gs',
      sortChunks sort_Slice s (len pre) (tl (boundaries (len pre) gs)) = Ok s' /\
      bytes (sortHelper.b s') = pre ++ encs (List.concat gs') ++ post /\
      Forall2 (fun g g' => Permutation g g') gs gs' /\
      (strict_weak_order (sortHelper.less s) ->
       Forall (nondecreasing (sortHelper.less s)) gs') /\
      kept s s' /\ scratch B (sortHelper.tmp s').
Proof.
  induction gs as [|g gs IH]; intros s pre post B Hb Hl He Hm Hf Ht Hroom HB.
  - exists s, []. cbn [boundaries tl sortChunks].
    split; [reflexivity|]. split; [exact Hb|]. split; [constructor|].
    split; [constructor|]. split; [apply kept_refl|exact Ht].
  - apply Forall_cons_iff in Hf as (Fg & Fgs).
    cbn [List.concat] in Hb, He, Hroom.
    rewrite encs_app in Hb. rewrite encs_app, len_app in He, Hroom.
    rewrite <- app_assoc in Hb.
    pose proof (len_encs_nonneg g) as P0.
    pose proof (len_encs_nonneg (List.concat gs)) as P1.
    cbn [boundaries tl]. rewrite (boundaries_head _ gs). cbn [sortChunks].
    destruct (sortSmall_sorts sort_Slice Hsort s B (len pre)
                (len pre + len (encs g)) pre (encs (List.concat gs) ++ post) g)
      as (s1 & g' & S1 & B1 & Pg & Sg & K1 & T1); try assumption; try lia;
      try reflexivity.
    rewrite S1. cbn [bind].
    pose proof K1 as (F1 & O1 & L1).
    assert (Lg : len (encs g') = len (encs g))
      by (symmetry; now apply len_encs_perm).
    destruct F1 as (F11 & _).
    destruct (IH s1 (pre ++ encs g') post B)
      as (s2 & gs' & S2 & B2 & Pgs & Sgs & K2 & T2); try assumption.
    + rewrite B1, <- app_assoc. reflexivity.
    + rewrite len_app. lia.
    + rewrite len_app, F11. lia.
    + rewrite F11. exact Hm.
    + lia.
    + rewrite len_app, Lg in S2. rewrite S2.
      exists s2, (g' :: gs'). split; [reflexivity|].
      split.
      { rewrite B2. cbn [List.concat]. rewrite encs_app, <- !app_assoc.
        reflexivity. }
      split; [now constructor|].
      split.
      { intros Swo. constructor; [now apply Sg|].
        rewrite L1 in Sgs. now apply Sgs. }
      split; [eapply kept_trans; eassumption|exact T2].
Qed.

Lemma decoded_layout (b : Buffer) (start end_ : Z) (pre post : list byte)
    (ps : list (list byte)) :
  bytes b = pre ++ encs ps ++ post -> len pre = start -> 0 < start ->
  end_ = start + len (encs ps) -> end_ <= offset b ->
  offset b <= GoInt.max_int -> Forall fits ps ->
  decoded b start end_ = Ok ps.
Proof.
  intros Hb Hp H0 He Hend Hmax Hf. unfold decoded.
  rewrite (collect_records b end_ Hend Hmax ps _ pre post start [] Hb Hp H0)
    by (try assumption; try lia; pose proof (len_encs_ge ps); lia).
  cbn [bind app]. f_equal.
  apply (payloads_at b end_ Hend Hmax).
  apply (layout_records b end_ ps pre post start); try assumption. lia.
Qed.

(** The whole of [SortSliceBetween] on a range that holds the records
    [ps]. *)
Lemma SortSliceBetween_sorts (b : Buffer) (start end_ : Z) (less : LessFunc)
    (pre post : list byte) (ps : list (list byte)) :
  bytes b = pre ++ encs ps ++ post -> len pre = start -> 0 < start ->
  end_ = start + len (encs ps) -> end_ <= offset b ->
  offset b <= GoInt.max_int -> len (bytes b) <= 2 ^ 60 ->
  Forall fits ps ->
  exists b' ps',
    SortSliceBetween sort_Slice scale b start end_ less = Ok b' /\
    bytes b' = pre ++ encs ps' ++ post /\
    Permutation ps ps' /\
    (strict_weak_order less -> nondecreasing less ps') /\
    same_frame b b'.
Proof.
  intros Hb Hp H0 He Hend Hmax Hlen Hf.
  pose proof (len_encs_nonneg ps) as P0. pose proof (len_nonneg post) as P2.
  assert (Lb : len (bytes b) = start + len (encs ps) + len post).
  { rewrite Hb, !len_app. lia. }
  unfold SortSliceBetween.
  destruct (start >=? end_) eqn:G; zbool.
  { assert (ps = []) by (apply len_encs_zero; lia). subst ps.
    exists b, []. split; [reflexivity|]. split; [exact Hb|].
    split; [constructor|]. split; [constructor|apply same_frame_refl]. }
  destruct (start =? 0) eqn:Z0; zbool; [lia|].
  assert (Hne : ps <> []).
  { intros ->. rewrite len_encs_nil in He. lia. }
  (* the chunks *)
  destruct (chunks_groups b end_ Hend Hmax ps (Z.to_nat (end_ - start)) pre post
              start 0 [] Hb Hp H0 (eq_sym He) Hf)
    as (first & gs & offs & Eps & Hgs & Hfirst & Hc & Ho).
  { pose proof (len_encs_ge ps). lia. }
  rewrite (Hfirst eq_refl Hne) in Eps, Ho. cbn [app] in Eps, Ho.
  rewrite len_encs_nil, Z.add_0_r in Ho.
  rewrite Hc. cbn [bind].
  destruct (boundaries_front gs start Hgs) as (front & Ef & Ff).
  rewrite <- Eps, <- He in Ef, Ff.
  assert (front = offs).
  { rewrite Ef in Ho. now apply app_inj_tail in Ho as (-> & _). }
  subst front.
  assert (Lo : len offs = len gs).
  { pose proof (len_boundaries gs start) as L. rewrite Ef, len_app in L.
    change (len [end_]) with 1 in L. lia. }
  assert (Ng : 1 <= len gs).
  { destruct gs; [cbn in Eps; congruence|]. rewrite len_cons.
    pose proof (len_nonneg gs). lia. }
  assert (Cg : len gs <= len (encs ps))
    by (rewrite Eps; now apply len_groups_le).
  replace (len offs >? 0) with true by (symmetry; rewrite Z.gtb_ltb; apply Z.ltb_lt; lia).
  cbn [assert bind].
  rewrite sub_small by (int_range; lia).
  destruct (index_ok offs (len offs - 1) ltac:(lia)) as (last & Il & Inl).
  rewrite Il. cbn [bind].
  rewrite Forall_forall in Ff. specialize (Ff last Inl).
  replace (negb (last =? end_)) with true
    by (symmetry; apply negb_true_iff, Z.eqb_neq; lia).
  rewrite <- Ef.
  (* the scratch buffer *)
  set (B := end_ - start + 64).
  assert (HB : 7 * B <= GoInt.max_int).
  { subst B. unfold GoInt.max_int. lia. }
  rewrite sub_small by (int_range; lia).
  assert (Q : 0 <= Z.quot (end_ - start) 2 /\ 2 * Z.quot (end_ - start) 2 <= end_ - start).
  { rewrite Z.quot_div_nonneg by lia.
    split; [apply Z.div_pos; lia|apply Z.mul_div_le; lia]. }
  destruct (Hscale (Z.quot (end_ - start) 2)) as (Sc0 & Sc1); [lia|].
  destruct (NewBuffer_scratch B (scale (Z.quot (end_ - start) 2)))
    as (tmp & Nt & St & Ot); [subst B; lia|subst B; lia|int_range; lia|].
  rewrite Nt. cbn [bind].
  (* the chunks are sorted *)
  assert (I0 : index (boundaries start gs) 0 = Ok start)
    by (rewrite boundaries_head; apply index_zero).
  rewrite I0. cbn [bind].
  assert (E1 : len (boundaries start gs) -i 1 = len gs).
  { rewrite len_boundaries. rewrite sub_small by (int_range; lia). lia. }
  rewrite E1.
  set (s0 := sortHelper.mk (boundaries start gs) b tmp less []).
  assert (Fgs : Forall (Forall fits) gs).
  { clear - Hf Eps. rewrite Eps in Hf. clear Eps.
    induction gs as [|g gs IH]; [constructor|].
    cbn [List.concat] in Hf. apply Forall_app in Hf as (Hg & Hf).
    constructor; [exact Hg|now apply IH]. }
  destruct (sortChunks_sorts gs s0 pre post B)
    as (s1 & gs' & S1 & B1 & Pgs & Sgs & K1 & T1).
  { subst s0. cbn [sortHelper.b]. now rewrite <- Eps. }
  { lia. }
  { subst s0. cbn [sortHelper.b]. rewrite <- Eps. lia. }
  { exact Hmax. }
  { exact Fgs. }
  { exact St. }
  { rewrite <- Eps. subst B. lia. }
  { exact HB. }
  rewrite Hp in S1. rewrite S1. cbn [bind].
  destruct K1 as (F1 & O1 & L1).
  subst s0. cbn [sortHelper.b sortHelper.offsets sortHelper.less] in *.
  (* and merged *)
  assert (Lgs : len gs' = len gs).
  { unfold len. f_equal. symmetry. eapply Forall2_length. exact Pgs. }
  assert (Ec : len (encs (List.concat gs')) = len (encs ps)).
  { rewrite Eps. symmetry. apply len_encs_perm. now apply concat_perm. }
  destruct (sort_sorts (List.length (boundaries start gs)) [] gs' [] s1 pre post
              start B)
    as (s2 & qs & S2 & B2 & Pq & Sq & K2 & T2).
  { rewrite O1, app_nil_r. cbn [app]. now apply boundaries_perm. }
  { exact B1. }
  { cbn [List.concat]. rewrite len_encs_nil. lia. }
  { lia. }
  { clear - Pgs Fgs. induction Pgs as [|g g' gs gs' P F IH]; [constructor|].
    apply Forall_cons_iff in Fgs as (Fg & Fgs).
    constructor; [now apply (Permutation_Forall P)|now apply IH]. }
  { destruct F1 as (_ & _ & _ & _ & _ & _ & F7 & _). rewrite F7.
    unfold GoInt.max_int. lia. }
  { rewrite len_nil, Lgs. unfold GoInt.max_int. lia. }
  { exact T1. }
  { rewrite Ec. subst B. lia. }
  { exact HB. }
  { pose proof (len_boundaries gs start) as L. unfold len in L, Lgs. lia. }
  rewrite len_nil, Z.add_0_l, Lgs in S2.
  rewrite S2. cbn [bind].
  exists (sortHelper.b s2), qs. split; [reflexivity|]. split; [exact B2|].
  split.
  { rewrite Eps. eapply Permutation_trans; [|exact Pq]. now apply concat_perm. }
  split.
  { intros Swo. rewrite L1 in Sq. apply Sq; [exact Swo|]. now apply Sgs. }
  destruct K2 as (F2 & _). eapply same_frame_trans; eassumption.
Qed.

End Sorting.

(** ** The instances used in the examples *)

Lemma insert_perm (lt : Z -> Z -> bool) (x : Z) (l : list Z) :
  Permutation (x :: l) (insert lt x l).
Proof.
  induction l as [|y l IH]; [apply Permutation_refl|].
  cbn [insert]. destruct (lt x y); [|apply Permutation_refl].
  eapply Permutation_trans; [apply perm_swap|]. now constructor.
Qed.

Lemma insert_sorted (lt : Z -> Z -> bool) (x : Z) (l : list Z) :
  strict_weak_order lt ->
  StronglySorted (fun a b => lt a b = false) l ->
  StronglySorted (fun a b => lt a b = false) (insert lt x l).
Proof.
  intros Swo. induction 1 as [|y l S IH F].
  - cbn [insert]. repeat constructor.
  - cbn [insert]. destruct (lt x y) eqn:E.
    + constructor; [exact IH|].
      apply (Permutation_Forall (insert_perm lt x l)).
      constructor; [now apply (swo_asym lt Swo)|exact F].
    + constructor; [now constructor|].
      constructor; [exact E|].
      revert F. apply Forall_impl. intros z Hz.
      now apply (swo_le_trans lt Swo z y x).
Qed.

Lemma StronglySorted_rev {A : Type} (R : A -> A -> Prop) (l : list A) :
  StronglySorted R l -> StronglySorted (fun a b => R b a) (rev l).
Proof.
  induction 1 as [|x l S IH F]; [constructor|].
  cbn [rev].
  assert (G : forall m, StronglySorted (fun a b => R b a) m ->
                        Forall (fun y => R x y) m ->
                        StronglySorted (fun a b => R b a) (m ++ [x])).
  { induction m as [|y m IHm]; intros Sm Fm.
    - repeat constructor.
    - inversion Sm; subst. inversion Fm; subst. cbn [app].
      constructor; [now apply IHm|].
      apply Forall_app. split; [assumption|]. now repeat constructor. }
  apply G; [exact IH|]. now apply Forall_rev.
Qed.

Lemma insertionSort_contract : sort_contract insertionSort.
Proof.
  intros lt l. unfold insertionSort.
  assert (G : forall l acc,
             Permutation (rev l ++ acc)
               (fold_left (fun acc x => insert lt x acc) l acc) /\
             (strict_weak_order lt ->
              StronglySorted (fun a b => lt a b = false) acc ->
              StronglySorted (fun a b => lt a b = false)
                (fold_left (fun acc x => insert lt x acc) l acc))).
  { clear l. induction l as [|x l IH]; intros acc.
    - split; [apply Permutation_refl|auto].
    - cbn [fold_left rev]. destruct (IH (insert lt x acc)) as (P & S). split.
      + eapply Permutation_trans; [|exact P].
        rewrite <- app_assoc. cbn [app].
        apply Permutation_app_head. apply insert_perm.
      + intros Swo Sa. apply S; [exact Swo|]. now apply insert_sorted. }
  destruct (G l []) as (P & S). split.
  - rewrite app_nil_r in P.
    eapply Permutation_trans; [apply Permutation_rev|].
    eapply Permutation_trans; [exact P|apply Permutation_rev].
  - intros Swo. unfold nondecreasing.
    apply (StronglySorted_rev (fun a b => lt a b = false)).
    apply S; [exact Swo|constructor].
Qed.

Lemma scale11_contract : scale_contract scale11.
Proof.
  intros x Hx. unfold scale11. rewrite Z.quot_div_nonneg by lia.
  split; [apply Z.div_pos; lia|apply Z.div_le_upper_bound; lia].
Qed.

Lemma to_N_inj (x y : byte) : Byte.to_N x = Byte.to_N y -> x = y.
Proof.
  intros H. pose proof (Byte.of_to_N x) as Hx. pose proof (Byte.of_to_N y) as Hy.
  rewrite H in Hx. congruence.
Qed.

Lemma lex_less_irrefl (a : list byte) : lex_less a a = false.
Proof.
  induction a as [|x a IH]; [reflexivity|].
  cbn [lex_less]. now rewrite N.ltb_irrefl.
Qed.

Lemma lex_less_trans (a : list byte) :
  forall b c, lex_less a b = true -> lex_less b c = true -> lex_less a c = true.
Proof.
  induction a as [|x a IH]; intros [|y b] [|z c] H1 H2; try discriminate;
    try reflexivity.
  cbn [lex_less] in *.
  destruct (N.ltb_spec (Byte.to_N x) (Byte.to_N y)) as [L1|L1];
    destruct (N.ltb_spec (Byte.to_N y) (Byte.to_N z)) as [L2|L2];
    destruct (N.ltb_spec (Byte.to_N x) (Byte.to_N z)) as [L3|L3];
    try reflexivity; try lia.
  - destruct (N.ltb_spec (Byte.to_N z) (Byte.to_N y)); [discriminate|lia].
  - destruct (N.ltb_spec (Byte.to_N y) (Byte.to_N x)); [discriminate|lia].
  - destruct (N.ltb_spec (Byte.to_N y) (Byte.to_N x)) as [L4|L4]; [discriminate|].
    destruct (N.ltb_spec (Byte.to_N z) (Byte.to_N y)) as [L5|L5]; [discriminate|].
    destruct (N.ltb_spec (Byte.to_N z) (Byte.to_N x)) as [L6|L6]; [lia|].
    eapply IH; eassumption.
Qed.

Lemma lex_less_total (a : list byte) :
  forall b, lex_less a b = false -> lex_less b a = false -> a = b.
Proof.
  induction a as [|x a IH]; intros [|y b] H1 H2; try discriminate;
    [reflexivity|].
  cbn [lex_less] in *.
  destruct (N.ltb_spec (Byte.to_N x) (Byte.to_N y)) as [L1|L1]; [discriminate|].
  destruct (N.ltb_spec (Byte.to_N y) (Byte.to_N x)) as [L2|L2]; [discriminate|].
  assert (x = y) by (apply to_N_inj; lia). subst y.
  f_equal. now apply IH.
Qed.

Lemma lex_less_total_order : strict_total_order lex_less.
Proof.
  split; [split; [|split]|].
  - apply lex_less_irrefl.
  - intros x y z. apply lex_less_trans.
  - intros x y z H1 H2 H3 H4.
    assert (x = y) by now apply lex_less_total.
    assert (y = z) by now apply lex_less_total.
    subst. now rewrite lex_less_irrefl.
  - apply lex_less_total.
Qed.

Lemma key_less_weak_order : strict_weak_order key_less.
Proof.
  unfold key_less. split; [|split].
  - intros x. apply N.ltb_irrefl.
  - intros x y z H1 H2. apply N.ltb_lt in H1, H2. apply N.ltb_lt. lia.
  - intros x y z H1 H2 H3 H4. apply N.ltb_ge in H1, H2, H3, H4.
    split; apply N.ltb_ge; lia.
Qed.

(** ** Sorting *)

(** C1: on a range [start, end) of a buffer that holds length-prefixed
    records, read by walking from [start] to [end], with a comparison that is
    a strict weak ordering, [SortSliceBetween] returns; the payloads then read
    on the same walk are non-decreasing and are a rearrangement of those read
    before; the range has the length it had, and the bytes around it and the
    other fields of the buffer are as they were. *)
Theorem SortSliceBetween_correct
    (sort_Slice : (Z -> Z -> bool) -> list Z -> list Z) (scale : Z -> Z)
    (b : Buffer) (start end_ : Z) (less : LessFunc)
    (pre post : list byte) (ps : list (list byte)) :
  sort_contract sort_Slice -> scale_contract scale ->
  bytes b = pre ++ encs ps ++ post -> len pre = start -> 0 < start ->
  end_ = start + len (encs ps) -> end_ <= offset b ->
  offset b <= GoInt.max_int -> len (bytes b) <= 2 ^ 60 ->
  Forall fits ps -> strict_weak_order less ->
  decoded b start end_ = Ok ps /\
  exists b' ps',
    SortSliceBetween sort_Slice scale b start end_ less = Ok b' /\
    decoded b' start end_ = Ok ps' /\
    nondecreasing less ps' /\ Permutation ps ps' /\
    bytes b' = pre ++ encs ps' ++ post /\
    len (encs ps') = end_ - start /\ same_frame b b'.
Proof.
  intros Hsort Hscale Hb Hp H0 He Hend Hmax Hlen Hf Swo.
  split; [now apply (decoded_layout b start end_ pre post ps)|].
  destruct (SortSliceBetween_sorts sort_Slice scale Hsort Hscale b start end_ less
              pre post ps Hb Hp H0 He Hend Hmax Hlen Hf)
    as (b' & ps' & S & Hb' & P & Sd & F).
  exists b', ps'. split; [exact S|].
  assert (L : len (encs ps') = len (encs ps))
    by (symmetry; now apply len_encs_perm).
  pose proof F as (F1 & _).
  split.
  { apply (decoded_layout b' start end_ pre post ps'); try assumption.
    - lia.
    - rewrite F1. exact Hend.
    - rewrite F1. exact Hmax.
    - now apply (Permutation_Forall P). }
  split; [now apply Sd|]. split; [exact P|]. split; [exact Hb'|].
  split; [lia|exact F].
Qed.

Lemma SortSliceBetween_correct_witness :
  exists b' ps',
    SortSliceBetween insertionSort scale11
      (mkBuffer
         (Some ([x00] ++ encs [[x62; x61]; [x61]; [x63]] ++ [x00; x00]))
         17 19 100 None UseCalloc [])
      1 17 lex_less = Ok b' /\
    nondecreasing lex_less ps' /\
    Permutation [[x62; x61]; [x61]; [x63]] ps' /\
    bytes b' = [x00] ++ encs ps' ++ [x00; x00].
Proof.
  destruct (SortSliceBetween_correct insertionSort scale11
              (mkBuffer
                 (Some ([x00] ++ encs [[x62; x61]; [x61]; [x63]] ++ [x00; x00]))
                 17 19 100 None UseCalloc [])
              1 17 lex_less [x00] [x00; x00] [[x62; x61]; [x61]; [x63]]
              insertionSort_contract scale11_contract)
    as (_ & b' & ps' & S & _ & Sd & P & Hb & _).
  - reflexivity.
  - reflexivity.
  - lia.
  - reflexivity.
  - simpl. lia.
  - vm_compute. discriminate.
  - vm_compute. discriminate.
  - repeat constructor.
  - apply lex_less_total_order.
  - exists b', ps'. repeat split; assumption.
Defined.

Lemma same_frame_eq (b b' : Buffer) :
  same_frame b b' -> bytes b' = bytes b -> b' = b.
Proof.
  unfold same_frame, bytes.
  intros (A1 & A2 & A3 & A4 & A5 & A6 & _ & A8) E.
  destruct b as [[a|] ? ? ? ? ? ?], b' as [[a'|] ? ? ? ? ? ?]; simpl in *;
    subst; try reflexivity.
  - destruct A8 as (_ & A8). specialize (A8 eq_refl). discriminate.
  - destruct A8 as (A8 & _). specialize (A8 eq_refl). discriminate.
Qed.

(** C9, as the code has it: when the comparison is a strict total order on
    payloads and the records of the range are in non-decreasing order,
    [SortSliceBetween] returns and the buffer is as it was, the bytes of the
    range included. *)
Theorem sorted_range_unchanged
    (sort_Slice : (Z -> Z -> bool) -> list Z -> list Z) (scale : Z -> Z)
    (b : Buffer) (start end_ : Z) (less : LessFunc)
    (pre post : list byte) (ps : list (list byte)) :
  sort_contract sort_Slice -> scale_contract scale ->
  bytes b = pre ++ encs ps ++ post -> len pre = start -> 0 < start ->
  end_ = start + len (encs ps) -> end_ <= offset b ->
  offset b <= GoInt.max_int -> len (bytes b) <= 2 ^ 60 ->
  Forall fits ps -> strict_total_order less -> nondecreasing less ps ->
  SortSliceBetween sort_Slice scale b start end_ less = Ok b /\
  forall b', SortSliceBetween sort_Slice scale b start end_ less = Ok b' ->
             read (bytes b') (start, end_) = read (bytes b) (start, end_).
Proof.
  intros Hsort Hscale Hb Hp H0 He Hend Hmax Hlen Hf Tot Hs.
  destruct (SortSliceBetween_sorts sort_Slice scale Hsort Hscale b start end_ less
              pre post ps Hb Hp H0 He Hend Hmax Hlen Hf)
    as (b' & ps' & S & Hb' & P & Sd & F).
  assert (E : ps = ps').
  { apply (sorted_perm_unique less Tot); try assumption.
    apply Sd. apply Tot. }
  subst ps'.
  assert (Eb : b' = b) by (apply same_frame_eq; [exact F|congruence]).
  subst b'. split; [exact S|].
  intros b'' S'. congruence.
Qed.

Lemma sorted_range_unchanged_witness :
  SortSliceBetween insertionSort scale11
    (mkBuffer
       (Some ([x00] ++ encs [[x61]; [x62; x61]; [x63]] ++ [x00; x00]))
       17 19 100 None UseCalloc [])
    1 17 lex_less
  = Ok (mkBuffer
          (Some ([x00] ++ encs [[x61]; [x62; x61]; [x63]] ++ [x00; x00]))
          17 19 100 None UseCalloc []).
Proof.
  apply (proj1 (sorted_range_unchanged insertionSort scale11
                  (mkBuffer
                     (Some ([x00] ++ encs [[x61]; [x62; x61]; [x63]] ++ [x00; x00]))
                     17 19 100 None UseCalloc [])
                  1 17 lex_less [x00] [x00; x00] [[x61]; [x62; x61]; [x63]]
                  insertionSort_contract scale11_contract
                  eq_refl eq_refl ltac:(lia) eq_refl ltac:(simpl; lia)
                  ltac:(vm_compute; discriminate) ltac:(vm_compute; discriminate)
                  ltac:(repeat constructor) lex_less_total_order
                  ltac:(repeat constructor))).
Defined.

Lemma same_key_sorted (k : N) (l : list (list byte)) :
  Forall (fun p => key p = k) l -> nondecreasing key_less l.
Proof.
  unfold nondecreasing. induction 1 as [|p l Hp Hl IH]; constructor.
  - exact IH.
  - revert Hl. apply Forall_impl. intros q Hq. unfold key_less.
    rewrite Hp, Hq. apply N.ltb_irrefl.
Qed.

(** C9 as stated fails for a comparison that is a strict weak ordering and
    not a total one.  The 1025 records below all have the key 1, so they are
    in order under [key_less]; the last one differs from the others in its
    second byte.  It is alone in the second chunk, and [merge], which takes
    the right record unless the left one is less, puts it first. *)
Lemma sorted_range_counterexample :
  strict_weak_order key_less /\
  nondecreasing key_less (repeat [x01; x00] 1024 ++ [[x01; x01]]) /\
  exists b0 b b',
    NewBuffer 0 = Ok b0 /\
    writeAll b0 (repeat [x01; x00] 1024 ++ [[x01; x01]]) = Ok b /\
    SortSliceBetween insertionSort scale11 b 1 (offset b) key_less = Ok b' /\
    Slice b 1 = Ok (Some [x01; x00], 7) /\
    Slice b' 1 = Ok (Some [x01; x01], 7) /\
    read (bytes b') (1, offset b) <> read (bytes b) (1, offset b).
Proof.
  split; [exact key_less_weak_order|]. split.
  { apply (same_key_sorted 2%N). apply Forall_app. split.
    - apply Forall_forall. intros p Hp. apply repeat_spec in Hp. now subst p.
    - now repeat constructor. }
  eexists. eexists. eexists.
  split; [vm_compute; reflexivity|].
  split; [vm_compute; reflexivity|].
  split; [vm_compute; reflexivity|].
  split; [vm_compute; reflexivity|].
  split; [vm_compute; reflexivity|].
  vm_compute. intros H. discriminate H.
Qed.

(** * Further properties of the buffer *)

(** ** Reading without the cursor: [First] and [Data] *)

(** X1: [First(n)] is bounded by the length of the region, not by the write
    cursor.  It returns an error exactly when [n] exceeds that length, the
    first [n] bytes of the region (the reserved byte 0 among them) when
    [0 <= n <= len(b.buf)], and panics on a negative [n]; the cursor plays
    no part. *)
Theorem First_reads_region (b : Buffer) (n : Z) :
  ((exists e, First b n = Ok (inr e)) <-> len (bytes b) < n) /\
  (0 <= n <= len (bytes b) -> First b n = Ok (inl (take n (bytes b)))) /\
  (n < 0 -> First b n = Fail bounds) /\
  (forall o, First (set_offset b o) n = First b n).
Proof.
  unfold First.
  split; [|split; [|split]].
  - destruct (len (bytes b) <? n) eqn:G; zbool.
    + split; [intros _; lia|intros _; eexists; reflexivity].
    + split; [|lia]. intros (e & H).
      destruct (slice (bytes b) 0 n); discriminate.
  - intros H. destruct (len (bytes b) <? n) eqn:G; zbool; [lia|].
    rewrite slice_ok by lia. cbn [bind]. unfold read, span_len. cbn [fst snd].
    rewrite drop_nonpos by lia. now rewrite Z.sub_0_r.
  - intros H. pose proof (len_nonneg (bytes b)) as L.
    destruct (len (bytes b) <? n) eqn:G; zbool; [lia|].
    unfold slice.
    destruct (0 <=? n) eqn:G'; zbool; [lia|]. reflexivity.
  - reflexivity.
Qed.

Lemma First_reads_region_witness :
  First (mkBuffer (Some [x00; x01; x02]) 1 3 3 None UseCalloc []) 2
  = Ok (inl [x00; x01]).
Proof.
  apply (proj1 (proj2 (First_reads_region
           (mkBuffer (Some [x00; x01; x02]) 1 3 3 None UseCalloc []) 2))).
  vm_compute. split; discriminate.
Defined.

(** X2: [Data(offset)] panics when the offset is beyond the current size;
    otherwise it is [b.buf[offset:b.curSz]]: all the bytes from the offset
    to the current size, written or not, whatever the cursor, and a panic of
    the slice expression when the offset is negative or the region is
    shorter than the current size. *)
Theorem Data_reads_to_current_size (b : Buffer) (off : Z) :
  (off > curSz b -> Data b off = Fail (Panic "offset beyond current size")) /\
  (0 <= off <= curSz b -> curSz b <= len (bytes b) ->
     Data b off = Ok (take (curSz b - off) (drop off (bytes b))) /\
     len (take (curSz b - off) (drop off (bytes b))) = curSz b - off) /\
  (off <= curSz b -> off < 0 \/ len (bytes b) < curSz b ->
     Data b off = Fail bounds) /\
  (forall o, Data (set_offset b o) off = Data b off).
Proof.
  unfold Data.
  split; [|split; [|split]].
  - intros H. destruct (off >? curSz b) eqn:G; zbool; [reflexivity|lia].
  - intros H1 H2. destruct (off >? curSz b) eqn:G; zbool; [lia|].
    rewrite slice_ok by lia. cbn [bind]. split; [reflexivity|].
    rewrite len_take, len_drop. lia.
  - intros H1 H2. destruct (off >? curSz b) eqn:G; zbool; [lia|].
    unfold slice.
    destruct (0 <=? off) eqn:G1; zbool; [|reflexivity].
    destruct (off <=? curSz b) eqn:G2; zbool; [|reflexivity].
    destruct (curSz b <=? len (bytes b)) eqn:G3; zbool; [lia|reflexivity].
  - reflexivity.
Qed.

Lemma Data_reads_to_current_size_witness :
  Data (mkBuffer (Some [x00; x01; x02; x03]) 2 3 4 None UseCalloc []) 1
  = Fail (Panic "offset beyond current size") \/
  Data (mkBuffer (Some [x00; x01; x02; x03]) 2 3 4 None UseCalloc []) 1
  = Ok [x01; x02].
Proof.
  right.
  apply (proj1 (proj2 (Data_reads_to_current_size
           (mkBuffer (Some [x00; x01; x02; x03]) 2 3 4 None UseCalloc []) 1)));
    vm_compute; try split; discriminate.
Defined.

(** ** The length prefix *)

Lemma Uint32_range (s : list byte) (v : Z) : Uint32 s = Ok v -> 0 <= v < 2 ^ 32.
Proof.
  destruct s as [|b0 [|b1 [|b2 [|b3 s]]]]; try discriminate.
  cbn [Uint32]. set (e := Z.lor _ _). intros [= <-]. subst e.
  pose proof (Z_of_byte_range b0) as B0. pose proof (Z_of_byte_range b1) as B1.
  pose proof (Z_of_byte_range b2) as B2. pose proof (Z_of_byte_range b3) as B3.
  rewrite !Z.shiftl_mul_pow2 by lia.
  rewrite (lor_mul_low (Z_of_byte b0) (Z_of_byte b1 * 2 ^ 16) 24) by lia.
  replace (Z_of_byte b0 * 2 ^ 24 + Z_of_byte b1 * 2 ^ 16)
    with ((Z_of_byte b0 * 2 ^ 8 + Z_of_byte b1) * 2 ^ 16) by lia.
  rewrite (lor_mul_low _ (Z_of_byte b2 * 2 ^ 8) 16) by lia.
  replace ((Z_of_byte b0 * 2 ^ 8 + Z_of_byte b1) * 2 ^ 16 + Z_of_byte b2 * 2 ^ 8)
    with (((Z_of_byte b0 * 2 ^ 8 + Z_of_byte b1) * 2 ^ 8 + Z_of_byte b2) * 2 ^ 8)
    by lia.
  rewrite (lor_mul_low _ (Z_of_byte b3) 8) by lia.
  lia.
Qed.

(** X3: [writeLen(sz)] stores [uint32(sz)], the size modulo 2^32, as four
    big-endian bytes at the cursor and moves the cursor by 4: read back with
    [binary.BigEndian.Uint32] it is [sz mod 2^32], for every [sz]; the bytes
    below the cursor are not touched. *)
Theorem writeLen_stores_uint32 (b b' : Buffer) (sz : Z) :
  valid b -> writeLen b sz = Ok b' ->
  offset b' = offset b + 4 /\
  take (offset b) (bytes b') = take (offset b) (bytes b) /\
  Uint32 (drop (offset b) (bytes b')) = Ok (sz mod 2 ^ 32).
Proof.
  intros V H.
  destruct (writeLen_valid b b' sz V H) as (V' & Eo & Et).
  destruct (valid_len b V) as (_ & Lo & _).
  destruct V as ((O0 & _) & _).
  assert (Lp : len (take (offset b) (bytes b)) = offset b).
  { rewrite len_take. lia. }
  assert (Eb : bytes b'
               = take (offset b) (bytes b)
                 ++ be32 (GoInt.to_uint32 sz) ++ drop (offset b') (bytes b')).
  { rewrite <- (take_drop_id (offset b') (bytes b')) at 1.
    rewrite Et. now rewrite <- app_assoc. }
  split; [exact Eo|]. split.
  - rewrite Eb. rewrite <- Lp at 1. now rewrite take_app_exact.
  - rewrite Eb. rewrite <- Lp at 1. rewrite drop_app_exact.
    apply Uint32_be32. unfold GoInt.to_uint32. apply Z.mod_pos_bound. lia.
Qed.

Lemma writeLen_stores_uint32_witness :
  exists b',
    writeLen (mkBuffer (Some (repeat x00 8)) 1 8 100 None UseCalloc []) (2 ^ 32 + 5)
    = Ok b' /\
    Uint32 (drop 1 (bytes b')) = Ok 5.
Proof.
  eexists. split; [vm_compute; reflexivity|].
  refine (proj2 (proj2 (writeLen_stores_uint32
            (mkBuffer (Some (repeat x00 8)) 1 8 100 None UseCalloc []) _
            (2 ^ 32 + 5) _ _))).
  - unfold valid. simpl.
    repeat split; try (vm_compute; discriminate).
    exists (repeat x00 8). split; reflexivity.
  - vm_compute. reflexivity.
Defined.

(** ** Walking the records *)

(** X4: whatever the region holds, a call of [Slice] that returns has moved
    on: the next offset is 0, or it lies at least 4 bytes after the offset
    asked and before the cursor.  The nil slice comes back exactly at or
    past the cursor, and a payload is shorter than 2^32 bytes.  A loop that
    follows the offsets until 0 therefore ends. *)
Theorem Slice_advances (b : Buffer) (off next : Z) (r : option (list byte)) :
  GoInt.in_int off -> Slice b off = Ok (r, next) ->
  (next = 0 \/ off + 4 <= next < offset b) /\
  (r = None <-> off >= offset b) /\
  (forall p, r = Some p -> len p < 2 ^ 32 /\ off + 4 + len p <= len (bytes b)).
Proof.
  intros Hi H. unfold Slice in H.
  destruct (off >=? offset b) eqn:G; zbool.
  { injection H as <- <-. split; [now left|]. split; [split; [lia|reflexivity]|].
    discriminate. }
  destruct (slice (bytes b) off (len (bytes b))) as [t|] eqn:S1; cbn [bind] in H;
    [|discriminate].
  apply slice_inv in S1 as (-> & S1 & _).
  destruct (Uint32 _) as [sz|] eqn:U; cbn [bind] in H; [|discriminate].
  apply Uint32_range in U.
  destruct (slice (bytes b) (off +i 4) (off +i 4 +i sz)) as [res|] eqn:S2;
    cbn [bind] in H; [|discriminate].
  apply slice_inv in S2 as (-> & S2 & S3).
  assert (A1 : off +i 4 = off + 4).
  { apply add_nonneg_exact; unfold GoInt.in_int, GoInt.max_int in *; lia. }
  rewrite A1 in *.
  assert (A2 : off + 4 +i sz = off + 4 + sz).
  { apply add_nonneg_exact; unfold GoInt.in_int, GoInt.max_int in *; try lia.
    pose proof (wrap_in_int (off + 4)) as W. fold (off +i 4) in W.
    rewrite A1 in W. unfold GoInt.in_int, GoInt.max_int in W. lia. }
  rewrite A2 in *.
  injection H as <- <-.
  split; [|split].
  - destruct (off + 4 + sz >=? offset b) eqn:G2; zbool; [now left|right; lia].
  - split; [discriminate|lia].
  - intros p [= <-]. unfold read, span_len. cbn [fst snd].
    rewrite len_take, len_drop. lia.
Qed.

Lemma Slice_advances_witness :
  exists r next,
    Slice (mkBuffer (Some [x00; x00; x00; x00; x01; x07; x00]) 7 7 7 None
             UseCalloc []) 1 = Ok (r, next) /\
    (next = 0 \/ 1 + 4 <= next < 7).
Proof.
  eexists. eexists. split; [vm_compute; reflexivity|].
  refine (proj1 (Slice_advances
            (mkBuffer (Some [x00; x00; x00; x00; x01; x07; x00]) 7 7 7 None
               UseCalloc []) 1 _ _ _ _)).
  - split; vm_compute; discriminate.
  - vm_compute. reflexivity.
Defined.

(** ** Writing *)

Lemma read_app_front (x y rest : list byte) (lo : Z) :
  0 <= lo <= len x ->
  read (x ++ y ++ rest) (lo, len x + len y) = read x (lo, len x) ++ y.
Proof.
  intros H. pose proof (len_nonneg y) as Y0.
  unfold read, span_len. cbn [fst snd].
  rewrite drop_app_le by lia.
  rewrite take_app_ge by (rewrite len_drop; lia).
  rewrite len_drop.
  replace (len x + len y - lo - (len x - Z.min (Z.max 0 lo) (len x)))
    with (len y) by lia.
  rewrite take_app_exact.
  now rewrite (take_all (len x - lo)) by (rewrite len_drop; lia).
Qed.

(** X5: [Write(p)] appends.  On a buffer in use it returns [len(p)], moves
    the cursor by as much, and [Bytes()] afterwards is [Bytes()] before
    followed by [p].  It panics when [p] does not fit under the maximum
    size, and on an off-heap buffer it returns whenever [p] fits. *)
Theorem Write_appends (b : Buffer) (p bs : list byte) :
  bounded b -> len p <= GoInt.max_int -> Bytes b = Ok bs ->
  (forall b' k, Write b p = Ok (b', k) ->
     k = len p /\ offset b' = offset b + len p /\ Bytes b' = Ok (bs ++ p)) /\
  (maxSz b - offset b < len p ->
     Write b p = Fail (Panic "Buffer max size exceeded")) /\
  (bufType b = UseCalloc -> offset b + len p <= maxSz b ->
     2 * curSz b + len p <= GoInt.max_int ->
     exists b', Write b p = Ok (b', len p)).
Proof.
  intros B Hn Hb. pose proof (len_nonneg p) as P0.
  assert (K : forall b' k, Write b p = Ok (b', k) ->
     k = len p /\ offset b' = offset b + len p /\ Bytes b' = Ok (bs ++ p)).
  { intros b' k H.
    destruct (Write_bounded b b' p k B Hn H) as (B' & Eo & Ek & _ & Eb & Et).
    split; [exact Ek|]. split; [exact Eo|].
    destruct B as (V & O1 & _). destruct B' as (V' & _).
    destruct (valid_len b V) as (_ & Lo & _).
    destruct (valid_len b' V') as (_ & Lo' & _).
    unfold Bytes in *.
    rewrite slice_ok in Hb by lia. cbn [bind] in Hb. injection Hb as <-.
    rewrite slice_ok by lia. cbn [bind]. f_equal.
    assert (Lt : len (take (offset b) (bytes b)) = offset b).
    { rewrite len_take. lia. }
    rewrite Et in Eb. rewrite Eb, Eo.
    replace (offset b + len p)
      with (len (take (offset b) (bytes b)) + len p) at 2 by lia.
    rewrite read_app_front by lia.
    rewrite Lt. now rewrite read_take by lia. }
  split; [exact K|]. split.
  - intros M. destruct B as (V & O1 & O2).
    destruct (valid_len b V) as (Nb & _).
    destruct (buf b) as [old|] eqn:E; [|congruence].
    unfold Write. rewrite (Grow_unfold_some b (len p) old E).
    destruct V as (_ & Hc & Hm & _).
    assert (S1 : maxSz b -i offset b = maxSz b - offset b).
    { apply sub_small. int_range. lia. }
    rewrite S1.
    destruct (maxSz b - offset b <? len p) eqn:G; zbool; [reflexivity|lia].
  - intros T R1 R2. destruct B as (V & O1 & O2).
    destruct (Grow_ok b (len p) V T) as (b1 & G & _); try lia.
    pose proof G as G'.
    apply Grow_valid in G' as (V1 & Eo & _); [|exact V|int_range; lia].
    destruct (valid_len b1 V1) as (_ & Lo & _).
    assert (W : exists b' k, Write b p = Ok (b', k)).
    { unfold Write. rewrite G. cbn [bind].
      rewrite slice_ok by (destruct V1 as ((? & ?) & _); lia). cbn [bind].
      destruct (copy _ _ _) as [a n]. eexists. eexists. reflexivity. }
    destruct W as (b' & k & W). exists b'.
    destruct (K b' k W) as (-> & _). exact W.
Qed.

Lemma Write_appends_witness :
  exists b' k,
    Write (mkBuffer (Some [x00; x61; x00; x00]) 2 4 100 None UseCalloc []) [x62; x63]
    = Ok (b', k) /\
    k = 2 /\ offset b' = 4 /\ Bytes b' = Ok [x61; x62; x63].
Proof.
  eexists. eexists. split; [vm_compute; reflexivity|].
  refine (proj1 (Write_appends
            (mkBuffer (Some [x00; x61; x00; x00]) 2 4 100 None UseCalloc [])
            [x62; x63] [x61] _ _ _) _ _ _).
  - unfold bounded, valid. simpl.
    repeat split; try (vm_compute; discriminate).
    exists [x00; x61; x00; x00]. split; reflexivity.
  - vm_compute. discriminate.
  - vm_compute. reflexivity.
  - vm_compute. reflexivity.
Defined.

(** X6: the bytes of a buffer filled through [SliceAllocate] are the
    records one after the other, each a 4-byte big-endian length followed by
    its payload: [Bytes()] is their concatenation, and [Len()] is one more
    than its length. *)
Theorem Bytes_are_the_records (sz mx : Z) (t : BufferType) (b0 b : Buffer)
    (ps : list (list byte)) :
  GoInt.in_int sz -> GoInt.in_int mx ->
  NewBufferWith sz mx t = Ok (inl b0) ->
  Forall (fun p => len p <= GoInt.max_int) ps ->
  writeAll b0 ps = Ok b ->
  Bytes b = Ok (encs ps) /\ Len b = 1 + len (encs ps).
Proof.
  intros Hs Hm N F W.
  destruct (writeAll_layout sz mx t b0 b ps Hs Hm N F W)
    as (V & Eo & pre & post & Eb & Lp).
  destruct (valid_len b V) as (_ & Lo & _).
  pose proof (len_encs_nonneg ps) as P0.
  split; [|exact Eo].
  unfold Bytes. rewrite slice_ok by lia. cbn [bind]. f_equal.
  rewrite Eb, Eo. apply read_middle; lia.
Qed.

Lemma Bytes_are_the_records_witness :
  exists b0 b,
    NewBufferWith 0 0 UseCalloc = Ok (inl b0) /\
    writeAll b0 [[x61; x62]; []] = Ok b /\
    Bytes b = Ok [x00; x00; x00; x02; x61; x62; x00; x00; x00; x00].
Proof.
  eexists. eexists. split; [vm_compute; reflexivity|].
  split; [vm_compute; reflexivity|].
  refine (proj1 (Bytes_are_the_records 0 0 UseCalloc _ _ [[x61; x62]; []]
            _ _ _ _ _)).
  - split; vm_compute; discriminate.
  - split; vm_compute; discriminate.
  - vm_compute. reflexivity.
  - repeat constructor; vm_compute; discriminate.
  - vm_compute. reflexivity.
Defined.

Lemma SliceAllocateOffset_unfold (b : Buffer) (sz : Z) :
  SliceAllocateOffset b sz
  = ('(b', s) <- SliceAllocate b sz ;; Ok (b', s, offset b' -i sz -i 4)).
Proof.
  unfold SliceAllocateOffset, SliceAllocate.
  destruct (Grow b (4 +i sz)) as [b1|]; cbn [bind]; [|reflexivity].
  destruct (writeLen b1 sz) as [b2|]; cbn [bind]; [|reflexivity].
  destruct (Allocate b2 sz) as [[b3 s]|]; reflexivity.
Qed.

(** X7: [SliceAllocateOffset(sz)] returns the offset of the record it has
    made: the cursor before the call.  [Slice] at that offset returns the
    slice that was handed out, with 0 for the next offset since the record
    is the last; once the caller has filled the slice with a payload,
    [Slice] returns that payload. *)
Theorem SliceAllocateOffset_then_Slice (b b' : Buffer) (sz off : Z) (s : span) :
  valid b -> 0 <= sz < 2 ^ 32 ->
  SliceAllocateOffset b sz = Ok (b', s, off) ->
  off = offset b /\ s = (off + 4, off + 4 + sz) /\ offset b' = off + 4 + sz /\
  Slice b' off = Ok (Some (read (bytes b') s), 0) /\
  (forall p, len p = sz -> Slice (fill b' s p) off = Ok (Some p, 0)).
Proof.
  intros V Hsz H. rewrite SliceAllocateOffset_unfold in H.
  destruct (SliceAllocate b sz) as [[b1 s1]|] eqn:A; cbn [bind] in H;
    [|discriminate].
  injection H as <- <- <-.
  apply SliceAllocate_valid in A as (V1 & Eo & -> & L & Tk);
    [|exact V|int_range; lia].
  destruct (valid_len b V) as (_ & Lo & _).
  assert (O0 : 0 <= offset b) by apply V.
  assert (M1 : offset b1 <= GoInt.max_int) by (destruct V1 as (? & ? & _); lia).
  assert (E1 : offset b1 -i sz -i 4 = offset b).
  { rewrite Eo. rewrite (sub_small (offset b + 4 + sz) sz) by (int_range; lia).
    rewrite sub_small by (int_range; lia). lia. }
  rewrite E1.
  assert (Lt : len (take (offset b) (bytes b)) = offset b).
  { rewrite len_take. lia. }
  assert (U : GoInt.to_uint32 sz = sz).
  { unfold GoInt.to_uint32. apply Z.mod_small. lia. }
  rewrite U in Tk.
  assert (Eb : bytes b1 = take (offset b) (bytes b) ++ be32 sz
                            ++ drop (offset b + 4) (bytes b1)).
  { rewrite <- (take_drop_id (offset b + 4) (bytes b1)) at 1.
    rewrite Tk. now rewrite <- app_assoc. }
  assert (Ld : len (drop (offset b + 4) (bytes b1)) = len (bytes b1) - (offset b + 4)).
  { rewrite len_drop. lia. }
  split; [reflexivity|]. split; [reflexivity|]. split; [exact Eo|]. split.
  - rewrite (Slice_at b1 _ _ (offset b) sz Eb Lt) by lia.
    destruct (offset b + 4 + sz >=? offset b1) eqn:G; zbool; [|lia].
    do 3 f_equal. unfold read, span_len. cbn [fst snd]. f_equal. lia.
  - intros p Hp. unfold fill.
    rewrite copy_exact by lia. cbn [fst].
    set (a := take (offset b + 4) (bytes b1) ++ p
                ++ drop (offset b + 4 + sz) (bytes b1)).
    assert (La : len a = len (bytes b1)).
    { subst a. rewrite !len_app, len_take, len_drop. llia. }
    pose proof (same_frame_store b1 a La) as F.
    assert (Ba : bytes (store b1 a) = a)
      by (apply bytes_store; apply (valid_len b1 V1)).
    assert (Fp : fits p) by (unfold fits; lia).
    assert (Ea : bytes (store b1 a)
                 = take (offset b) (bytes b) ++ enc p
                   ++ drop (offset b + 4 + sz) (bytes b1)).
    { rewrite Ba. subst a. rewrite Tk. unfold enc.
      rewrite (to_uint32_fits p Fp), Hp. now rewrite <- !app_assoc. }
    destruct F as (F1 & _).
    rewrite (Slice_record (store b1 a) _ _ p (offset b) Ea Lt Fp)
      by (rewrite F1; lia).
    rewrite F1.
    destruct (offset b + 4 + len p >=? offset b1) eqn:G; zbool; [reflexivity|lia].
Qed.

Lemma SliceAllocateOffset_then_Slice_witness :
  exists b' s off,
    SliceAllocateOffset (mkBuffer (Some (repeat x00 16)) 1 16 100 None UseCalloc []) 2
    = Ok (b', s, off) /\
    off = 1 /\ Slice (fill b' s [x61; x62]) off = Ok (Some [x61; x62], 0).
Proof.
  eexists. eexists. eexists. split; [vm_compute; reflexivity|].
  match goal with
  | |- _ /\ Slice (fill ?b' ?s _) ?off = _ =>
      destruct (SliceAllocateOffset_then_Slice
                  (mkBuffer (Some (repeat x00 16)) 1 16 100 None UseCalloc [])
                  b' 2 off s) as (T1 & _ & _ & _ & T5)
  end.
  - unfold valid. simpl.
    repeat split; try (vm_compute; discriminate).
    exists (repeat x00 16). split; reflexivity.
  - vm_compute. split; [discriminate|reflexivity].
  - vm_compute. reflexivity.
  - split; [reflexivity|]. apply T5. reflexivity.
Defined.

(** ** Writing in place *)

Lemma drop_drop {A : Type} (n m : Z) (l : list A) :
  0 <= n -> 0 <= m -> drop n (drop m l) = drop (m + n) l.
Proof.
  intros Hn Hm. unfold drop. rewrite skipn_skipn. f_equal. lia.
Qed.

(** X8: a call of [WriteAt] that returns no error has written all of [p] at
    the offset and nothing else ([len(p)] is returned, the bytes before and
    after are as they were, the cursor and the sizes stay), and [ReadAt] of
    [len(p)] bytes at the same offset returns [p]. *)
Theorem WriteAt_then_ReadAt (b b' : Buffer) (p : list byte) (off k : Z) :
  buf b <> None -> GoInt.in_int off ->
  len (bytes b) <= 2 ^ 62 -> len p < 2 ^ 62 ->
  WriteAt b p off = Ok (b', k, None) ->
  k = len p /\
  bytes b' = take off (bytes b) ++ p ++ drop (off + len p) (bytes b) /\
  offset b' = offset b /\ curSz b' = curSz b /\
  ReadAt b' (len p) off = Ok (inl p).
Proof.
  intros Nb Hi Lb Lp H. pose proof (len_nonneg p) as P0.
  pose proof (WriteAt_frame b b' p off k None H) as F.
  unfold WriteAt in H.
  destruct (off +i len p >? len (bytes b)) eqn:G; zbool; [discriminate|].
  destruct (slice _ _ _) as [d|] eqn:S; cbn [bind] in H; [|discriminate].
  apply slice_inv in S as (-> & S1 & S2).
  assert (A : off +i len p = off + len p) by (apply add_small; int_range; lia).
  rewrite A in G.
  rewrite copy_tail in H by lia.
  injection H as <- <-.
  rewrite bytes_store by exact Nb.
  destruct F as (F1 & F2 & _).
  split; [reflexivity|]. split; [reflexivity|].
  split; [exact F1|]. split; [exact F2|].
  unfold ReadAt. rewrite bytes_store by exact Nb.
  set (a := take off (bytes b) ++ p ++ drop (off + len p) (bytes b)).
  assert (La : len a = len (bytes b)).
  { subst a. rewrite !len_app, len_take, len_drop. lia. }
  rewrite A, La.
  destruct (off + len p >? len (bytes b)) eqn:G'; zbool; [lia|].
  rewrite slice_ok by lia. cbn [bind]. do 2 f_equal.
  subst a. apply read_middle; rewrite len_take; lia.
Qed.

Lemma WriteAt_then_ReadAt_witness :
  exists b' k,
    WriteAt (mkBuffer (Some [x00; x01; x02; x03]) 2 4 4 None UseCalloc [])
      [x61; x62] 2 = Ok (b', k, None) /\
    k = 2 /\ bytes b' = [x00; x01; x61; x62] /\ ReadAt b' 2 2 = Ok (inl [x61; x62]).
Proof.
  eexists. eexists. split; [vm_compute; reflexivity|].
  match goal with
  | |- ?k = _ /\ bytes ?b' = _ /\ _ =>
      destruct (WriteAt_then_ReadAt
                  (mkBuffer (Some [x00; x01; x02; x03]) 2 4 4 None UseCalloc [])
                  b' [x61; x62] 2 k) as (T1 & T2 & _ & _ & T5)
  end.
  - simpl. intros E. discriminate E.
  - split; vm_compute; discriminate.
  - vm_compute. discriminate.
  - vm_compute. reflexivity.
  - vm_compute. reflexivity.
  - split; [exact T1|]. split; [exact T2|exact T5].
Defined.

(** X9: a call of [WriteSliceAt] that returns no error has laid the record
    of [p] at the offset: its 4-byte big-endian length, then [p], the rest
    of the region being as it was.  When the offset is below the cursor,
    [Slice] at that offset returns [p]; the next offset is the end of the
    record, or 0 when that is at or past the cursor. *)
Theorem WriteSliceAt_then_Slice (b b' : Buffer) (p : list byte) (off k : Z) :
  buf b <> None -> GoInt.in_int off -> len (bytes b) <= 2 ^ 62 -> fits p ->
  WriteSliceAt b p off = Ok (b', k, None) ->
  k = len p /\
  bytes b' = take off (bytes b) ++ enc p ++ drop (off + 4 + len p) (bytes b) /\
  offset b' = offset b /\ curSz b' = curSz b /\
  (off < offset b ->
   Slice b' off
   = Ok (Some p, if off + 4 + len p >=? offset b then 0 else off + 4 + len p)).
Proof.
  intros Nb Hi Lb Fp H. pose proof (len_nonneg p) as P0.
  unfold fits in Fp.
  pose proof (WriteSliceAt_frame b b' p off k None H) as F.
  unfold WriteSliceAt in H.
  destruct (off +i 4 +i len p >? len (bytes b)) eqn:G; zbool; [discriminate|].
  destruct (slice (bytes b) off (off +i 4)) as [h|] eqn:S; cbn [bind] in H;
    [|discriminate].
  apply slice_inv in S as (-> & S1 & S2).
  assert (A1 : off +i 4 = off + 4).
  { apply add_nonneg_exact; int_range; lia. }
  rewrite A1 in *.
  assert (A2 : off + 4 +i len p = off + 4 + len p).
  { apply add_small. int_range. lia. }
  rewrite A2 in *.
  unfold PutUint32 in H. unfold span_len in H at 1. cbn [fst snd] in H.
  destruct (off + 4 - off <? 4) eqn:G4; zbool; [lia|]. cbn [bind] in H.
  rewrite copy_exact in H by (rewrite len_be32; lia). cbn [fst] in H.
  rewrite (to_uint32_fits p Fp) in H.
  set (a1 := take off (bytes b) ++ be32 (len p) ++ drop (off + 4) (bytes b)) in H.
  assert (L1 : len a1 = len (bytes b)).
  { subst a1. rewrite !len_app, len_take, len_be32, len_drop. lia. }
  rewrite slice_ok in H by lia. cbn [bind] in H.
  rewrite copy_tail in H by lia.
  injection H as <- <-.
  rewrite bytes_store by exact Nb.
  assert (T1 : take (off + 4) a1 = take off (bytes b) ++ be32 (len p)).
  { subst a1. rewrite <- (len_be32 (len p)) at 1. apply take_extend. lia. }
  assert (D1 : drop (off + 4 + len p) a1 = drop (off + 4 + len p) (bytes b)).
  { subst a1. rewrite app_assoc.
    rewrite drop_app_ge by (rewrite len_app, len_take, len_be32; lia).
    rewrite len_app, len_take, len_be32.
    replace (off + 4 + len p - (Z.min (Z.max 0 off) (len (bytes b)) + 4))
      with (len p) by lia.
    rewrite drop_drop by lia. reflexivity. }
  rewrite T1, D1 in F |- *.
  assert (E : (take off (bytes b) ++ be32 (len p)) ++ p
                ++ drop (off + 4 + len p) (bytes b)
              = take off (bytes b) ++ enc p ++ drop (off + 4 + len p) (bytes b)).
  { unfold enc. rewrite (to_uint32_fits p Fp). now rewrite <- !app_assoc. }
  rewrite E in F |- *.
  destruct F as (F1 & F2 & _).
  split; [reflexivity|]. split; [reflexivity|].
  split; [exact F1|]. split; [exact F2|].
  intros Ho.
  set (bb := store b _).
  assert (Eb : bytes bb = take off (bytes b) ++ be32 (len p)
                            ++ (p ++ drop (off + 4 + len p) (bytes b))).
  { subst bb. rewrite bytes_store by exact Nb. rewrite <- E.
    now rewrite <- !app_assoc. }
  assert (Lt : len (take off (bytes b)) = off) by (rewrite len_take; lia).
  rewrite (Slice_at bb _ _ off (len p) Eb Lt); try lia.
  - rewrite take_app_exact. subst bb. now rewrite F1.
  - rewrite len_app. pose proof (len_nonneg (drop (off + 4 + len p) (bytes b))). lia.
  - subst bb. now rewrite F1.
  - int_range. lia.
Qed.

Lemma WriteSliceAt_then_Slice_witness :
  exists b' k,
    WriteSliceAt (mkBuffer (Some (repeat x00 8)) 8 8 8 None UseCalloc [])
      [x61; x62] 1 = Ok (b', k, None) /\
    k = 2 /\ Slice b' 1 = Ok (Some [x61; x62], 7).
Proof.
  eexists. eexists. split; [vm_compute; reflexivity|].
  match goal with
  | |- ?k = _ /\ Slice ?b' _ = _ =>
      destruct (WriteSliceAt_then_Slice
                  (mkBuffer (Some (repeat x00 8)) 8 8 8 None UseCalloc [])
                  b' [x61; x62] 1 k) as (T1 & _ & _ & _ & T5)
  end.
  - simpl. intros E. discriminate E.
  - split; vm_compute; discriminate.
  - vm_compute. discriminate.
  - vm_compute. reflexivity.
  - vm_compute. reflexivity.
  - split; [exact T1|]. apply T5. vm_compute. reflexivity.
Defined.

(** ** Reuse and growth *)

(** X10: after [Reset] the region is reused as it is: a [Write] that leaves
    the buffer short of its current size makes no allocation, changes no
    size, and [Bytes()] is then what was written. *)
Theorem Reset_then_Write_reuses (b : Buffer) (p : list byte) :
  bounded b -> 1 + len p < curSz b -> 1 + len p <= maxSz b ->
  exists b',
    Write (Reset b) p = Ok (b', len p) /\
    Bytes b' = Ok p /\ Len b' = 1 + len p /\
    calls b' = calls b /\ curSz b' = curSz b /\
    len (bytes b') = len (bytes b).
Proof.
  intros (V & O1 & O2) R1 R2. pose proof (len_nonneg p) as P0.
  destruct (valid_len b V) as (Nb & Lo & Lc & Lm).
  assert (Lr : 1 + len p <= len (bytes b)).
  { destruct V as (? & ? & ? & K). destruct (bufType b).
    - rewrite Lc by reflexivity. lia.
    - rewrite Lm by reflexivity. lia.
    - contradiction. }
  destruct V as (Hc & Hx & Hm & _).
  destruct (buf b) as [old|] eqn:E; [|congruence].
  assert (Bo : bytes b = old) by (unfold bytes; now rewrite E).
  unfold Write.
  rewrite (Grow_unfold_some (Reset b) (len p) old) by exact E.
  cbn [Reset set_offset maxSz offset curSz].
  rewrite (sub_small (maxSz b) 1) by (int_range; lia).
  rewrite (sub_small (curSz b) 1) by (int_range; lia).
  destruct (maxSz b - 1 <? len p) eqn:G1; zbool; [lia|].
  destruct (curSz b - 1 >? len p) eqn:G2; zbool; [|lia].
  cbn [bind].
  change (bytes (Reset b)) with (bytes b).
  change (offset (Reset b)) with 1.
  rewrite slice_ok by lia. cbn [bind].
  rewrite copy_tail by lia.
  rewrite (add_small 1 (len p)) by (int_range; lia).
  eexists. split; [reflexivity|].
  unfold store, Reset. cbn [buf set_offset]. rewrite E.
  unfold Bytes, Len. cbn [set_offset set_buf bytes buf offset calls curSz].
  set (a := take 1 (bytes b) ++ p ++ drop (1 + len p) (bytes b)).
  assert (La : len a = len (bytes b)).
  { subst a. rewrite !len_app, len_take, len_drop. lia. }
  rewrite slice_ok by lia. cbn [bind].
  split; [|repeat split; assumption].
  f_equal. subst a. apply read_middle; rewrite len_take; lia.
Qed.

Lemma Reset_then_Write_reuses_witness :
  exists b',
    Write (Reset (mkBuffer (Some [x00; x61; x62; x63]) 4 4 100 None UseCalloc
                    [CallCalloc 4])) [x64]
    = Ok (b', 1) /\
    Bytes b' = Ok [x64] /\ calls b' = [CallCalloc 4].
Proof.
  destruct (Reset_then_Write_reuses
              (mkBuffer (Some [x00; x61; x62; x63]) 4 4 100 None UseCalloc
                 [CallCalloc 4]) [x64]) as (b' & T1 & T2 & _ & T4 & _).
  - unfold bounded, valid. simpl.
    repeat split; try (vm_compute; discriminate).
    exists [x00; x61; x62; x63]. split; reflexivity.
  - vm_compute. reflexivity.
  - vm_compute. discriminate.
  - exists b'. split; [exact T1|]. split; [exact T2|exact T4].
Defined.

Lemma growBy_gt (c n : Z) :
  1 <= c <= GoInt.max_int -> 0 <= n < 2 ^ 30 -> 0 <= c +i growBy c n ->
  n < growBy c n.
Proof.
  intros Hc Hn P. unfold growBy in *. cbv zeta in *.
  destruct (Z_le_gt_dec 0 (c +i n)) as [Q|Q].
  - rewrite (add_nonneg_exact c n) in * by (int_range; lia).
    destruct (c + n >? 2 ^ 30) eqn:G1; zbool.
    + destruct (n >? 2 ^ 30) eqn:G2; zbool; lia.
    + destruct (n >? c + n) eqn:G2; zbool; lia.
  - destruct (c +i n >? 2 ^ 30) eqn:G1; zbool; [lia|].
    destruct (n >? c +i n) eqn:G2; zbool; lia.
Qed.

(** X11: [Grow(n)] with [n] below 1 GiB makes room once.  After a call that
    returns, a second [Grow(n)] changes nothing, and [Allocate(n)] only moves
    the cursor: no allocation, no truncation, the region and the sizes as
    [Grow] left them. *)
Theorem Grow_makes_room_once (b b' : Buffer) (n : Z) :
  valid b -> 1 <= curSz b -> GoInt.in_int n -> n < 2 ^ 30 ->
  Grow b n = Ok b' ->
  Grow b' n = Ok b' /\
  (0 <= n ->
   Allocate b' n
   = Ok (set_offset b' (offset b + n), (offset b, offset b + n))).
Proof.
  intros V C1 Hn Hs H.
  pose proof H as H'.
  apply Grow_valid in H' as (V' & Eo & Em & Et & Ec & _ & _ & R1 & R2);
    [|exact V|exact Hn].
  destruct (valid_len b' V') as (Nb' & Lo' & Lc' & Lm').
  assert (G2 : Grow b' n = Ok b').
  { apply Grow_inv in H as (old & E & G & [(G1 & ->)|(G1 & _ & _ & _ & Ec' & Hx)]).
    - rewrite (Grow_unfold_some b n old E).
      destruct (maxSz b -i offset b <? n) eqn:K1; zbool; [lia|].
      destruct (curSz b -i offset b >? n) eqn:K2; zbool; [reflexivity|lia].
    - destruct (buf b') as [new|] eqn:E'; [|congruence].
      rewrite (Grow_unfold_some b' n new E'). rewrite Em, Eo.
      destruct (maxSz b -i offset b <? n) eqn:K1; zbool; [lia|].
      destruct V as ((O0 & O1) & Hc & Hm & Hk).
      assert (S1 : curSz b -i offset b = curSz b - offset b).
      { apply sub_small. int_range. lia. }
      assert (N0 : 0 <= n) by lia.
      assert (P : 0 <= curSz b') by (destruct V' as ((? & ?) & _); lia).
      assert (Gt : n < growBy (curSz b) n).
      { apply growBy_gt; lia. }
      pose proof (growBy_in_int (curSz b) n Hn) as Gi.
      assert (Ex : curSz b' = curSz b + growBy (curSz b) n).
      { rewrite Ec' in P |- *. apply add_nonneg_exact; [lia|int_range; lia|exact P]. }
      assert (S2 : curSz b' -i offset b = curSz b' - offset b).
      { apply sub_small. destruct V' as (_ & Hc' & _). int_range. lia. }
      rewrite S2.
      destruct (curSz b' - offset b >? n) eqn:K2; zbool; [reflexivity|lia]. }
  split; [exact G2|].
  intros N0. unfold Allocate. rewrite G2. cbn [bind].
  specialize (R1 N0).
  assert (A : offset b' +i n = offset b + n).
  { rewrite Eo. apply add_small. destruct V' as (_ & Hc' & _).
    destruct V as ((? & ?) & _). int_range. lia. }
  rewrite A. cbn [offset set_offset].
  change (bytes (set_offset b' (offset b + n))) with (bytes b').
  assert (Room : offset b + n <= len (bytes b')).
  { destruct (bufType b') eqn:T.
    - rewrite Lc' by reflexivity. lia.
    - rewrite Lm' by reflexivity. rewrite Em.
      destruct V as ((O0 & _) & _ & _ & Hk). rewrite <- Et in Hk.
      destruct Hk as (a & _ & _ & Lo & _). apply R2. lia.
    - destruct V' as (_ & _ & _ & K). now rewrite T in K. }
  rewrite Eo. rewrite slice_ok; [reflexivity| |exact Room].
  destruct V as ((? & ?) & _). lia.
Qed.

Lemma Grow_makes_room_once_witness :
  exists b',
    Grow (mkBuffer (Some [x00; x61; x62; x63]) 4 4 100 None UseCalloc []) 3 = Ok b' /\
    curSz b' = 11 /\ Grow b' 3 = Ok b'.
Proof.
  eexists. split; [vm_compute; reflexivity|]. split; [reflexivity|].
  refine (proj1 (Grow_makes_room_once
            (mkBuffer (Some [x00; x61; x62; x63]) 4 4 100 None UseCalloc []) _ 3
            _ _ _ _ _)).
  - unfold valid. simpl.
    repeat split; try (vm_compute; discriminate).
    exists [x00; x61; x62; x63]. split; reflexivity.
  - vm_compute. discriminate.
  - split; vm_compute; discriminate.
  - vm_compute. reflexivity.
  - vm_compute. reflexivity.
Defined.

(** ** Allocation *)

(** X12: [Allocate(n)] and [AllocateOffset(n)] do the same to the buffer:
    the slice of the one starts at the offset returned by the other, the
    cursor before the call, and is [n] bytes long; it lies inside the
    region, past every byte written before, and those bytes are as they
    were. *)
Theorem Allocate_hands_out_the_tail (b b' : Buffer) (n : Z) (s : span) :
  valid b -> 0 <= n <= GoInt.max_int -> Allocate b n = Ok (b', s) ->
  s = (offset b, offset b + n) /\ offset b' = offset b + n /\
  snd s <= len (bytes b') /\
  take (offset b) (bytes b') = take (offset b) (bytes b) /\
  AllocateOffset b n = Ok (b', offset b).
Proof.
  intros V Hn H.
  destruct (Allocate_valid b b' n s V Hn H) as (V' & Eo & Es & L & Tk).
  split; [exact Es|]. split; [exact Eo|].
  split; [rewrite Es; exact L|]. split; [exact Tk|].
  unfold Allocate in H. unfold AllocateOffset.
  destruct (Grow b n) as [b1|] eqn:G; cbn [bind] in *; [|discriminate].
  destruct (slice _ _ _) as [s'|]; cbn [bind] in H; [|discriminate].
  injection H as <- _. cbn [offset set_offset] in *.
  do 2 f_equal.
  rewrite Eo. rewrite sub_small; [lia|].
  destruct V as ((? & ?) & ? & _). int_range. lia.
Qed.

Lemma Allocate_hands_out_the_tail_witness :
  exists b',
    Allocate (mkBuffer (Some (repeat x00 8)) 3 8 100 None UseCalloc []) 2
    = Ok (b', (3, 5)) /\
    AllocateOffset (mkBuffer (Some (repeat x00 8)) 3 8 100 None UseCalloc []) 2
    = Ok (b', 3).
Proof.
  eexists. split; [vm_compute; reflexivity|].
  refine (proj2 (proj2 (proj2 (proj2 (Allocate_hands_out_the_tail
            (mkBuffer (Some (repeat x00 8)) 3 8 100 None UseCalloc []) _ 2 (3, 5)
            _ _ _))))).
  - unfold valid. simpl.
    repeat split; try (vm_compute; discriminate).
    exists (repeat x00 8). split; reflexivity.
  - split; vm_compute; discriminate.
  - vm_compute. reflexivity.
Defined.

(** ** Sorting *)

(** X13: whatever the comparison, the sort of the offsets and the content of
    the region, a call of [SortSliceBetween] or [SortSlice] that returns has
    moved bytes of the region and nothing else: the cursor, the sizes, the
    length of the region, the file and the record of allocations of the
    buffer are as before. *)
Theorem SortSliceBetween_moves_bytes_only
    (sort_Slice : (Z -> Z -> bool) -> list Z -> list Z) (scale : Z -> Z)
    (b b' : Buffer) (less : LessFunc) :
  (forall start end_,
     SortSliceBetween sort_Slice scale b start end_ less = Ok b' \/
     SortSlice sort_Slice scale b less = Ok b' ->
     offset b' = offset b /\ curSz b' = curSz b /\ maxSz b' = maxSz b /\
     fd b' = fd b /\ bufType b' = bufType b /\ calls b' = calls b /\
     len (bytes b') = len (bytes b)).
Proof.
  intros start end_ [H|H].
  - apply SortSliceBetween_frame in H.
    destruct H as (H1 & H2 & H3 & H4 & H5 & H6 & H7 & _).
    repeat split; assumption.
  - unfold SortSlice in H. apply SortSliceBetween_frame in H.
    destruct H as (H1 & H2 & H3 & H4 & H5 & H6 & H7 & _).
    repeat split; assumption.
Qed.

Lemma SortSliceBetween_moves_bytes_only_witness :
  exists b',
    SortSliceBetween insertionSort scale11
      (mkBuffer (Some ([x00] ++ encs [[x62]; [x61]])) 11 11 100 None UseCalloc
         [CallCalloc 11]) 1 11 (fun _ _ => true) = Ok b' /\
    offset b' = 11 /\ calls b' = [CallCalloc 11].
Proof.
  eexists. split; [vm_compute; reflexivity|].
  match goal with
  | |- offset ?b' = _ /\ _ =>
      destruct (SortSliceBetween_moves_bytes_only insertionSort scale11
                  (mkBuffer (Some ([x00] ++ encs [[x62]; [x61]])) 11 11 100 None
                     UseCalloc [CallCalloc 11]) b' (fun _ _ => true) 1 11)
        as (T1 & _ & _ & _ & _ & T6 & _)
  end.
  - left. vm_compute. reflexivity.
  - split; [exact T1|exact T6].
Defined.

(** X14: write, sort, read.  The records written into a new buffer and then
    sorted with [SortSlice] under a strict weak ordering are read back by
    repeated [Slice] as a rearrangement of what was written, in
    non-decreasing order; the length of the buffer is as before. *)
Theorem write_sort_read
    (sort_Slice : (Z -> Z -> bool) -> list Z -> list Z) (scale : Z -> Z)
    (sz mx : Z) (t : BufferType) (b0 b : Buffer) (less : LessFunc)
    (ps : list (list byte)) :
  sort_contract sort_Slice -> scale_contract scale ->
  GoInt.in_int sz -> GoInt.in_int mx ->
  NewBufferWith sz mx t = Ok (inl b0) ->
  Forall fits ps -> writeAll b0 ps = Ok b ->
  len (bytes b) <= 2 ^ 60 -> strict_weak_order less ->
  exists b' tr,
    SortSlice sort_Slice scale b less = Ok b' /\
    readAll b' = Ok tr /\
    Permutation ps (payloads tr) /\ nondecreasing less (payloads tr) /\
    Len b' = Len b.
Proof.
  intros Hsort Hscale Hs Hm N F W L60 O.
  destruct (writeAll_layout sz mx t b0 b ps Hs Hm N (fits_max_int ps F) W)
    as (V & Eo & pre & post & Eb & Lp).
  assert (M : offset b <= GoInt.max_int) by (destruct V as (? & ? & _); lia).
  destruct (SortSliceBetween_sorts sort_Slice scale Hsort Hscale b 1 (offset b)
              less pre post ps Eb Lp ltac:(lia) ltac:(lia) ltac:(lia) M L60 F)
    as (b' & ps' & S & Eb' & P & Srt & Fr).
  specialize (Srt O).
  destruct Fr as (Fo & _).
  assert (Fp : Forall fits ps').
  { rewrite Forall_forall in *. intros x Hx. apply F.
    eapply Permutation_in; [apply Permutation_sym; exact P|exact Hx]. }
  assert (Le : len (encs ps') = len (encs ps))
    by (symmetry; now apply len_encs_perm).
  exists b'. unfold SortSlice, readAll, Len. rewrite S, Fo.
  destruct ps' as [|q qs].
  - exists [(None, 0)].
    rewrite len_encs_nil in Le.
    split; [reflexivity|]. split.
    + replace (offset b) with 1 by lia.
      change (Z.to_nat 1) with 1%nat. cbn [traverse].
      unfold Slice. rewrite Fo. replace (offset b) with 1 by lia. reflexivity.
    + split; [exact P|]. split; [exact Srt|reflexivity].
  - exists (trace 1 (q :: qs)).
    split; [reflexivity|]. split.
    + apply traverse_records with (pre := pre) (post := post); try assumption.
      * discriminate.
      * rewrite Fo. lia.
      * rewrite Fo. exact M.
      * pose proof (len_encs_ge (q :: qs)). lia.
    + rewrite payloads_trace. split; [exact P|]. split; [exact Srt|reflexivity].
Qed.

Lemma write_sort_read_witness :
  exists b0 b,
    NewBufferWith 0 0 UseCalloc = Ok (inl b0) /\
    writeAll b0 [[x62]; [x61; x61]; [x61]] = Ok b /\
    exists b' tr,
      SortSlice insertionSort scale11 b lex_less = Ok b' /\
      readAll b' = Ok tr /\
      Permutation [[x62]; [x61; x61]; [x61]] (payloads tr) /\
      nondecreasing lex_less (payloads tr) /\
      Len b' = Len b.
Proof.
  eexists. eexists. split; [vm_compute; reflexivity|].
  split; [vm_compute; reflexivity|].
  refine (write_sort_read insertionSort scale11 0 0 UseCalloc _ _ lex_less
            [[x62]; [x61; x61]; [x61]]
            insertionSort_contract scale11_contract _ _ _ _ _ _
            (proj1 lex_less_total_order)).
  - split; vm_compute; discriminate.
  - split; vm_compute; discriminate.
  - vm_compute. reflexivity.
  - repeat constructor.
  - vm_compute. reflexivity.
  - vm_compute. discriminate.
Defined.

(** X15: [rawSlice] cuts the record at the head of a slice: the 4-byte
    length and as many bytes of payload as it says, even when the slice
    given is shorter than the record, the array behind it being long
    enough.  On a slice of fewer than 4 bytes it panics. *)
Theorem rawSlice_cuts_one_record :
  (forall (a pre post p : list byte) (s : span),
     a = pre ++ enc p ++ post -> fits p ->
     fst s = len pre -> fst s + 4 <= snd s -> snd s <= len a ->
     rawSlice a s = Ok (len pre, len pre + 4 + len p) /\
     read a (len pre, len pre + 4 + len p) = enc p) /\
  (forall (a : list byte) (s : span),
     span_len s < 4 -> rawSlice a s = Fail index_range).
Proof.
  split.
  - intros a pre post p s Ha Fp H1 H2 H3. split.
    + now apply rawSlice_record with (post := post).
    + now apply read_record with (post := post).
  - intros a s H. unfold rawSlice.
    assert (L : len (read a s) < 4).
    { unfold read. rewrite len_take.
      pose proof (len_nonneg (drop (fst s) a)). lia. }
    destruct (read a s) as [|b0 [|b1 [|b2 [|b3 l]]]]; try reflexivity.
    exfalso. rewrite !len_cons in L. pose proof (len_nonneg l). lia.
Qed.

Lemma rawSlice_cuts_one_record_witness :
  rawSlice ([x00] ++ enc [x61; x62] ++ [x07]) (1, 5) = Ok (1, 7) /\
  rawSlice ([x00] ++ enc [x61; x62] ++ [x07]) (1, 4) = Fail index_range.
Proof.
  split.
  - refine (proj1 (proj1 rawSlice_cuts_one_record _ [x00] [x07] [x61; x62] (1, 5)
                     eq_refl _ _ _ _)).
    + vm_compute. reflexivity.
    + reflexivity.
    + vm_compute. discriminate.
    + vm_compute. discriminate.
  - apply (proj2 rawSlice_cuts_one_record). vm_compute. reflexivity.
Defined.

(** X16: [merge] joins two adjacent runs of records in place.  With the
    left run staged in the scratch buffer, the two runs are replaced by
    their merge, in which a record of the left run goes first only when it
    is less than the record of the right run: a rearrangement of the two
    runs, in order when both runs were and the comparison is a strict weak
    ordering.  The bytes around the runs and the cursor are as before. *)
Theorem merge_joins_two_runs (s : sortHelper.t) (B lo : Z) (pre post : list byte)
    (L R : list (list byte)) :
  bytes (sortHelper.b s) = pre ++ encs L ++ encs R ++ post ->
  len pre = lo ->
  Forall fits L -> Forall fits R ->
  len (bytes (sortHelper.b s)) <= GoInt.max_int ->
  scratch B (sortHelper.tmp s) -> 1 + len (encs L) <= B ->
  7 * B <= GoInt.max_int ->
  exists s',
    merge s (lo, lo + len (encs L))
      (lo + len (encs L), lo + len (encs L) + len (encs R))
      lo (lo + len (encs L) + len (encs R)) = Ok s' /\
    bytes (sortHelper.b s')
    = pre ++ encs (merge_list (sortHelper.less s) L R) ++ post /\
    Permutation (L ++ R) (merge_list (sortHelper.less s) L R) /\
    (strict_weak_order (sortHelper.less s) ->
     nondecreasing (sortHelper.less s) L -> nondecreasing (sortHelper.less s) R ->
     nondecreasing (sortHelper.less s) (merge_list (sortHelper.less s) L R)) /\
    offset (sortHelper.b s') = offset (sortHelper.b s).
Proof.
  intros Hb Hp FL FR Hm Hs HB H7.
  destruct (merge_merges s B lo pre post L R Hb Hp FL FR Hm Hs HB H7)
    as (s' & M & Eb & K & _).
  exists s'. split; [exact M|]. split; [exact Eb|].
  split; [apply merge_list_perm|].
  split; [intros O SL SR; now apply merge_list_sorted|].
  destruct K as ((Fo & _) & _). exact Fo.
Qed.

Lemma merge_joins_two_runs_witness :
  exists s',
    merge (sortHelper.mk [1; 16]
             (mkBuffer (Some ([x00] ++ encs [[x61]; [x63]] ++ encs [[x62]] ++ []))
                16 16 100 None UseCalloc [])
             (mkBuffer (Some (repeat x00 64)) 1 64 GoInt.max_int None UseCalloc [])
             lex_less [])
      (1, 11) (11, 16) 1 16 = Ok s' /\
    bytes (sortHelper.b s') = [x00] ++ encs [[x61]; [x62]; [x63]] ++ [].
Proof.
  destruct (merge_joins_two_runs
              (sortHelper.mk [1; 16]
                 (mkBuffer (Some ([x00] ++ encs [[x61]; [x63]] ++ encs [[x62]] ++ []))
                    16 16 100 None UseCalloc [])
                 (mkBuffer (Some (repeat x00 64)) 1 64 GoInt.max_int None UseCalloc [])
                 lex_less [])
              64 1 [x00] [] [[x61]; [x63]] [[x62]]) as (s' & T1 & T2 & _).
  - reflexivity.
  - reflexivity.
  - repeat constructor.
  - repeat constructor.
  - vm_compute. discriminate.
  - unfold scratch, valid. simpl.
    repeat split; try (vm_compute; discriminate).
    exists (repeat x00 64). split; reflexivity.
  - vm_compute. discriminate.
  - vm_compute. discriminate.
  - exists s'. split; [exact T1|exact T2].
Defined.

(** X17: [sortSmall] sorts one chunk of records in place: the records
    between the two offsets are replaced by a rearrangement of themselves,
    in non-decreasing order when the comparison is a strict weak ordering;
    the bytes around the chunk and the cursor are as before. *)
Theorem sortSmall_sorts_a_chunk
    (sort_Slice : (Z -> Z -> bool) -> list Z -> list Z)
    (s : sortHelper.t) (B l r : Z) (pre post : list byte) (g : list (list byte)) :
  sort_contract sort_Slice ->
  bytes (sortHelper.b s) = pre ++ encs g ++ post ->
  len pre = l -> 0 < l -> r = l + len (encs g) ->
  r <= offset (sortHelper.b s) -> offset (sortHelper.b s) <= GoInt.max_int ->
  Forall fits g ->
  scratch B (sortHelper.tmp s) -> 1 + len (encs g) <= B ->
  7 * B <= GoInt.max_int ->
  exists s' g',
    sortSmall sort_Slice s l r = Ok s' /\
    bytes (sortHelper.b s') = pre ++ encs g' ++ post /\
    Permutation g g' /\
    (strict_weak_order (sortHelper.less s) -> nondecreasing (sortHelper.less s) g') /\
    offset (sortHelper.b s') = offset (sortHelper.b s).
Proof.
  intros Hsort Hb Hp Hl Hr He Hm Fg Hs HB H7.
  destruct (sortSmall_sorts sort_Slice Hsort s B l r pre post g
              Hb Hp Hl Hr He Hm Fg Hs HB H7)
    as (s' & g' & S & Eb & P & O & K & _).
  exists s', g'. split; [exact S|]. split; [exact Eb|]. split; [exact P|].
  split; [exact O|]. destruct K as ((Fo & _) & _). exact Fo.
Qed.

Lemma sortSmall_sorts_a_chunk_witness :
  exists s' g',
    sortSmall insertionSort
      (sortHelper.mk [1; 16]
         (mkBuffer (Some ([x00] ++ encs [[x63]; [x61]; [x62]] ++ []))
            16 16 100 None UseCalloc [])
         (mkBuffer (Some (repeat x00 64)) 1 64 GoInt.max_int None UseCalloc [])
         lex_less [])
      1 16 = Ok s' /\
    bytes (sortHelper.b s') = [x00] ++ encs g' ++ [] /\
    Permutation [[x63]; [x61]; [x62]] g' /\
    nondecreasing lex_less g'.
Proof.
  destruct (sortSmall_sorts_a_chunk insertionSort
              (sortHelper.mk [1; 16]
                 (mkBuffer (Some ([x00] ++ encs [[x63]; [x61]; [x62]] ++ []))
                    16 16 100 None UseCalloc [])
                 (mkBuffer (Some (repeat x00 64)) 1 64 GoInt.max_int None UseCalloc [])
                 lex_less [])
              64 1 16 [x00] [] [[x63]; [x61]; [x62]] insertionSort_contract)
    as (s' & g' & T1 & T2 & T3 & T4 & _).
  - reflexivity.
  - reflexivity.
  - reflexivity.
  - reflexivity.
  - vm_compute. discriminate.
  - vm_compute. discriminate.
  - repeat constructor.
  - unfold scratch, valid. simpl.
    repeat split; try (vm_compute; discriminate).
    exists (repeat x00 64). split; reflexivity.
  - vm_compute. discriminate.
  - vm_compute. discriminate.
  - exists s', g'. split; [exact T1|]. split; [exact T2|]. split; [exact T3|].
    apply T4. apply lex_less_total_order.
Defined.

(** X18: [sort] merges the chunks.  With the offsets of the chunks in
    [s.offsets], [sort(0, len(offsets)-1)] returns the slice of the whole
    range and leaves there a rearrangement of the records of all the
    chunks, in non-decreasing order when each chunk was and the comparison
    is a strict weak ordering. *)
Theorem sort_merges_the_chunks (fuel : nat) (s : sortHelper.t)
    (G : list (list (list byte))) (pre post : list byte) (B : Z) :
  sortHelper.offsets s = boundaries (len pre) G ->
  bytes (sortHelper.b s) = pre ++ encs (List.concat G) ++ post ->
  Forall (Forall fits) G ->
  len (bytes (sortHelper.b s)) <= GoInt.max_int ->
  len G <= GoInt.max_int ->
  scratch B (sortHelper.tmp s) -> 1 + len (encs (List.concat G)) <= B ->
  7 * B <= GoInt.max_int ->
  (List.length G < fuel)%nat ->
  exists s' qs,
    sort fuel s 0 (len G)
    = Ok (s', (len pre, len pre + len (encs (List.concat G)))) /\
    bytes (sortHelper.b s') = pre ++ encs qs ++ post /\
    Permutation (List.concat G) qs /\
    (strict_weak_order (sortHelper.less s) ->
     Forall (nondecreasing (sortHelper.less s)) G ->
     nondecreasing (sortHelper.less s) qs) /\
    offset (sortHelper.b s') = offset (sortHelper.b s).
Proof.
  intros Ho Hb Fg Hm HG Hs HB H7 Hf.
  pose proof (len_nonneg pre) as P0.
  destruct (sort_sorts fuel [] G [] s pre post (len pre) B) as
    (s' & qs & S & Eb & P & O & K & _); try assumption.
  - cbn [app]. now rewrite app_nil_r.
  - cbn [List.concat]. rewrite len_encs_nil. lia.
  - change (len (@nil (list (list byte)))) with 0 in S. rewrite Z.add_0_l in S.
    exists s', qs. split; [exact S|]. split; [exact Eb|]. split; [exact P|].
    split; [exact O|]. destruct K as ((Fo & _) & _). exact Fo.
Qed.

Lemma sort_merges_the_chunks_witness :
  exists s' qs,
    sort 3
      (sortHelper.mk [1; 6; 11]
         (mkBuffer (Some ([x00] ++ encs [[x62]; [x61]] ++ []))
            11 11 100 None UseCalloc [])
         (mkBuffer (Some (repeat x00 64)) 1 64 GoInt.max_int None UseCalloc [])
         lex_less [])
      0 2 = Ok (s', (1, 11)) /\
    bytes (sortHelper.b s') = [x00] ++ encs qs ++ [] /\
    Permutation [[x62]; [x61]] qs /\
    nondecreasing lex_less qs.
Proof.
  destruct (sort_merges_the_chunks 3
              (sortHelper.mk [1; 6; 11]
                 (mkBuffer (Some ([x00] ++ encs [[x62]; [x61]] ++ []))
                    11 11 100 None UseCalloc [])
                 (mkBuffer (Some (repeat x00 64)) 1 64 GoInt.max_int None UseCalloc [])
                 lex_less [])
              [[[x62]]; [[x61]]] [x00] [] 64)
    as (s' & qs & T1 & T2 & T3 & T4 & _).
  - reflexivity.
  - reflexivity.
  - repeat constructor.
  - vm_compute. discriminate.
  - vm_compute. discriminate.
  - unfold scratch, valid. simpl.
    repeat split; try (vm_compute; discriminate).
    exists (repeat x00 64). split; reflexivity.
  - vm_compute. discriminate.
  - vm_compute. discriminate.
  - simpl. lia.
  - exists s', qs. split; [exact T1|]. split; [exact T2|]. split; [exact T3|].
    apply T4; [apply lex_less_total_order|].
    repeat constructor.
Defined.

(** ** Mapped files *)




(** ** Negative sizes *)

(** X20: a negative size is not refused.  On a buffer in use [Allocate(n)]
    with [n < 0] always panics, in [Grow] or on the slice it returns, while
    [AllocateOffset(n)] returns the old cursor and moves the cursor back by
    [-n] whenever the guard of [Grow] lets it pass. *)
Theorem negative_size_allocations (b : Buffer) (n : Z) :
  valid b -> GoInt.in_int n -> n < 0 ->
  is_panic (Allocate b n) = true /\
  (maxSz b -i offset b >= n ->
   AllocateOffset b n = Ok (set_offset b (offset b + n), offset b)).
Proof.
  intros V Hn N.
  destruct (valid_len b V) as (Nb & Lo & _).
  destruct V as ((O0 & O1) & Hc & Hm & _).
  destruct (buf b) as [old|] eqn:E; [|congruence].
  assert (S1 : curSz b -i offset b = curSz b - offset b).
  { apply sub_small. int_range. lia. }
  assert (A : offset b +i n = offset b + n).
  { apply add_small. int_range. lia. }
  assert (G : maxSz b -i offset b >= n -> Grow b n = Ok b).
  { intros M. rewrite (Grow_unfold_some b n old E).
    destruct (maxSz b -i offset b <? n) eqn:K1; zbool; [lia|].
    rewrite S1. destruct (curSz b - offset b >? n) eqn:K2; zbool; [reflexivity|lia]. }
  split.
  - unfold Allocate.
    destruct (Z_lt_ge_dec (maxSz b -i offset b) n) as [M|M].
    + rewrite (Grow_unfold_some b n old E).
      destruct (maxSz b -i offset b <? n) eqn:K1; zbool; [reflexivity|lia].
    + rewrite (G M). cbn [bind offset set_offset]. rewrite A.
      unfold slice.
      destruct (offset b <=? offset b + n) eqn:K; zbool; [lia|].
      now rewrite andb_false_r.
  - intros M. unfold AllocateOffset. rewrite (G M). cbn [bind offset set_offset].
    rewrite A. do 2 f_equal.
    rewrite sub_small; [lia|]. int_range. lia.
Qed.

Lemma negative_size_allocations_witness :
  is_panic (Allocate (mkBuffer (Some (repeat x00 8)) 3 8 100 None UseCalloc []) (-2))
  = true /\
  AllocateOffset (mkBuffer (Some (repeat x00 8)) 3 8 100 None UseCalloc []) (-2)
  = Ok (mkBuffer (Some (repeat x00 8)) 1 8 100 None UseCalloc [], 3).
Proof.
  destruct (negative_size_allocations
              (mkBuffer (Some (repeat x00 8)) 3 8 100 None UseCalloc []) (-2))
    as (T1 & T2).
  - unfold valid. simpl.
    repeat split; try (vm_compute; discriminate).
    exists (repeat x00 8). split; reflexivity.
  - split; vm_compute; discriminate.
  - reflexivity.
  - split; [exact T1|]. apply T2. vm_compute. discriminate.
Defined.

(** ** Allocations and releases *)

Lemma live_app (cs cs' : list call) : live (cs ++ cs') = live cs + live cs'.
Proof.
  induction cs as [|c cs IH]; cbn [app live]; [lia|].
  destruct c; rewrite ?IH; lia.
Qed.

Lemma evolves_trans (b1 b2 b3 : Buffer) :
  evolves b1 b2 -> evolves b2 b3 -> evolves b1 b3.
Proof.
  induction 1 as [b|b b1 b' n G E IH|b b1 b' F E IH]; intros H.
  - exact H.
  - eapply ev_grow; [exact G|now apply IH].
  - eapply ev_fields; [exact F|now apply IH].
Qed.

Lemma evolves_Grow (b b' : Buffer) (n : Z) : Grow b n = Ok b' -> evolves b b'.
Proof. intros G. eapply ev_grow; [exact G|apply ev_refl]. Qed.

Lemma evolves_fields (b b' : Buffer) : same_fields b b' -> evolves b b'.
Proof. intros F. eapply ev_fields; [exact F|apply ev_refl]. Qed.

Lemma evolves_frame (b b' : Buffer) : same_frame b b' -> evolves b b'.
Proof.
  intros (_ & C & M & F & T & K & _). apply evolves_fields.
  repeat split; assumption.
Qed.

Lemma evolves_store (b : Buffer) (a : list byte) : evolves b (store b a).
Proof.
  apply evolves_fields. unfold store. destruct (buf b); repeat split; reflexivity.
Qed.

Lemma evolves_set_offset (b : Buffer) (o : Z) : evolves b (set_offset b o).
Proof. apply evolves_fields. repeat split; reflexivity. Qed.

Lemma Allocate_evolves (b b' : Buffer) (n : Z) (s : span) :
  Allocate b n = Ok (b', s) -> evolves b b'.
Proof.
  unfold Allocate. intros H.
  destruct (Grow b n) as [b1|] eqn:G; cbn [bind] in H; [|discriminate].
  destruct (slice _ _ _); cbn [bind] in H; [|discriminate].
  injection H as <- _.
  eapply evolves_trans; [eapply evolves_Grow; exact G|apply evolves_set_offset].
Qed.

Lemma writeLen_evolves (b b' : Buffer) (sz : Z) : writeLen b sz = Ok b' -> evolves b b'.
Proof.
  unfold writeLen. intros H.
  destruct (Allocate b 4) as [[b1 s]|] eqn:A; cbn [bind] in H; [|discriminate].
  destruct (PutUint32 _ _ _); cbn [bind] in H; [|discriminate].
  injection H as <-.
  eapply evolves_trans; [eapply Allocate_evolves; exact A|apply evolves_store].
Qed.

Lemma SliceAllocate_evolves (b b' : Buffer) (sz : Z) (s : span) :
  SliceAllocate b sz = Ok (b', s) -> evolves b b'.
Proof.
  unfold SliceAllocate. intros H.
  destruct (Grow b _) as [b1|] eqn:G; cbn [bind] in H; [|discriminate].
  destruct (writeLen b1 sz) as [b2|] eqn:W; cbn [bind] in H; [|discriminate].
  eapply evolves_trans; [eapply evolves_Grow; exact G|].
  eapply evolves_trans; [eapply writeLen_evolves; exact W|].
  eapply Allocate_evolves; exact H.
Qed.

Lemma step_evolves sort_Slice scale (b b' : Buffer) (o : op) :
  step sort_Slice scale b o = Ok b' -> evolves b b'.
Proof.
  destruct o; cbn [step]; intros H.
  - eapply evolves_Grow; exact H.
  - destruct (Allocate b n) as [[b1 s]|] eqn:A; cbn [bind] in H; [|discriminate].
    injection H as <-. eapply Allocate_evolves; exact A.
  - unfold AllocateOffset in H.
    destruct (Grow b n) as [b1|] eqn:G; cbn [bind] in H; [|discriminate].
    injection H as <-.
    eapply evolves_trans; [eapply evolves_Grow; exact G|apply evolves_set_offset].
  - destruct (SliceAllocate b sz) as [[b1 s]|] eqn:A; cbn [bind] in H;
      [|discriminate].
    injection H as <-. eapply SliceAllocate_evolves; exact A.
  - rewrite SliceAllocateOffset_unfold in H.
    destruct (SliceAllocate b sz) as [[b1 s]|] eqn:A; cbn [bind] in H;
      [|discriminate].
    injection H as <-. eapply SliceAllocate_evolves; exact A.
  - unfold Write in H.
    destruct (Grow b _) as [b1|] eqn:G; cbn [bind] in H; [|discriminate].
    destruct (slice _ _ _); cbn [bind] in H; [|discriminate].
    destruct (copy _ _ _) as [a' k']. injection H as <-.
    eapply evolves_trans; [eapply evolves_Grow; exact G|].
    eapply evolves_trans; [apply evolves_store|apply evolves_set_offset].
  - destruct (WriteAt b p off) as [[[b1 k] r]|] eqn:A; cbn [bind] in H;
      [|discriminate].
    injection H as <-. apply evolves_frame. eapply WriteAt_frame; exact A.
  - destruct (WriteSliceAt b p off) as [[[b1 k] r]|] eqn:A; cbn [bind] in H;
      [|discriminate].
    injection H as <-. apply evolves_frame. eapply WriteSliceAt_frame; exact A.
  - injection H as <-. apply evolves_set_offset.
  - apply evolves_frame. eapply SortSliceBetween_frame; exact H.
  - apply evolves_frame. unfold SortSlice in H.
    eapply SortSliceBetween_frame; exact H.
Qed.

(** A property kept by [Grow] and by the changes of cursor and bytes holds
    in every state a buffer goes through, once it holds of the buffers that
    [NewBufferWith] returns. *)
Lemma reachable_keeps (P : Buffer -> Prop) sort_Slice scale :
  (forall sz mx t b, NewBufferWith sz mx t = Ok (inl b) -> P b) ->
  (forall b n b', Grow b n = Ok b' -> P b -> P b') ->
  (forall b b', same_fields b b' -> P b -> P b') ->
  forall b, reachable sort_Slice scale b -> P b.
Proof.
  intros P0 Pg Pf b R.
  induction R as [sz mx t b Hs Hm N|b b' o R IH Hz S].
  - eapply P0; exact N.
  - apply step_evolves in S. clear R Hz.
    induction S as [b|b b1 b' n G E IH'|b b1 b' F E IH'].
    + exact IH.
    + apply IH'. eapply Pg; [exact G|exact IH].
    + apply IH'. eapply Pf; [exact F|exact IH].
Qed.

Lemma NewBufferWith_inv (sz mx : Z) (t : BufferType) (b : Buffer) :
  NewBufferWith sz mx t = Ok (inl b) ->
  let sz' := if sz =? 0 then smallBufferSize else sz in
  let mx' := if mx =? 0 then GoInt.max_int32 else mx in
  offset b = 1 /\ curSz b = sz' /\ maxSz b = mx' /\ bufType b = t /\
  ((t = UseCalloc /\ fd b = None /\ calls b = [CallCalloc sz']) \/
   (t = UseMmap /\ fd b = Some (mkFile sz') /\
    calls b = [CallTruncate sz'; CallMmap mx'])).
Proof.
  intros N sz' mx'. unfold NewBufferWith in N. fold sz' mx' in N.
  destruct t; cbn [bind] in N.
  - destruct (Calloc _) as [a|]; cbn [bind] in N; [|discriminate].
    destruct a; [discriminate|]. injection N as <-.
    repeat split. left. repeat split.
  - unfold Truncate in N. destruct (sz' <? 0); cbn [bind] in N; [discriminate|].
    destruct (Mmap _ _ _) as [a|]; cbn [bind] in N; [|discriminate].
    destruct a; [discriminate|]. injection N as <-.
    repeat split. right. repeat split.
  - discriminate.
Qed.

(** X21: no region is leaked and none is freed twice.  In every state a
    buffer built by [NewBufferWith] goes through, an off-heap buffer holds
    exactly one region obtained from [Calloc] and not yet freed ([Grow]
    frees the region it replaces) and a mapped buffer holds none; however
    [Release] ends, there is none afterwards.  [Release] of an off-heap
    buffer returns no error; [Release] of a mapped buffer returns, with an
    error exactly when one of its four system calls fails. *)
Theorem one_live_region
    (sort_Slice : (Z -> Z -> bool) -> list Z -> list Z) (scale : Z -> Z)
    (b : Buffer) :
  reachable sort_Slice scale b ->
  live (calls b) = (match bufType b with UseCalloc => 1 | _ => 0 end) /\
  (forall fails b' e, Release fails b = Ok (b', e) -> live (calls b') = 0) /\
  (bufType b = UseCalloc ->
   forall fails, exists b', Release fails b = Ok (b', None)) /\
  (bufType b = UseMmap ->
   forall fails, exists b' e,
     Release fails b = Ok (b', e) /\
     (e = None <-> forall c, fails c = false)).
Proof.
  intros R.
  assert (K : live (calls b) = match bufType b with UseCalloc => 1 | _ => 0 end).
  { revert b R. apply reachable_keeps.
    - intros sz mx t b N.
      destruct (NewBufferWith_inv sz mx t b N)
        as (_ & _ & _ & T & [(-> & _ & C)|(-> & _ & C)]);
        rewrite T, C; reflexivity.
    - intros b n b' G H.
      apply Grow_inv in G as (old & E & G & [(G1 & ->)|(G1 & _ & _ & Et & _ & Hx)]);
        [exact H|].
      rewrite Et. destruct (bufType b).
      + destruct Hx as (_ & _ & _ & _ & ->). rewrite live_app, H. reflexivity.
      + destruct Hx as (_ & _ & _ & _ & ->). rewrite live_app, H. reflexivity.
      + destruct Hx as (_ & _ & ->). exact H.
    - intros b b' (_ & _ & _ & T & C) H. now rewrite T, C. }
  apply (reachable_bounded sort_Slice scale) in R. destruct R as (V & _).
  split; [exact K|]. split; [|split].
  - intros fails b' e H. unfold Release in H.
    destruct (bufType b).
    + injection H as <- _. unfold log_calls. cbn [calls].
      rewrite live_app, K. reflexivity.
    + destruct (fd b); [|discriminate].
      destruct (fails SysMunmap); [|destruct (fails SysTruncate);
        [|destruct (fails SysClose); [|destruct (fails SysRemove)]]];
        injection H as <- _; unfold log_calls; cbn [calls];
        rewrite live_app, K; reflexivity.
    + injection H as <- _. exact K.
  - intros T fails. unfold Release. rewrite T. eexists. reflexivity.
  - intros T fails. unfold Release. rewrite T.
    destruct V as (_ & _ & _ & Hk). rewrite T in Hk.
    destruct Hk as (a & _ & _ & _ & F).
    destruct (fd b) as [f|]; [|congruence].
    destruct (fails SysMunmap) eqn:F1.
    { eexists. eexists. split; [reflexivity|].
      split; [discriminate|]. intros A. rewrite A in F1. discriminate. }
    destruct (fails SysTruncate) eqn:F2.
    { eexists. eexists. split; [reflexivity|].
      split; [discriminate|]. intros A. rewrite A in F2. discriminate. }
    destruct (fails SysClose) eqn:F3.
    { eexists. eexists. split; [reflexivity|].
      split; [discriminate|]. intros A. rewrite A in F3. discriminate. }
    destruct (fails SysRemove) eqn:F4.
    { eexists. eexists. split; [reflexivity|].
      split; [discriminate|]. intros A. rewrite A in F4. discriminate. }
    eexists. eexists. split; [reflexivity|].
    split; [|reflexivity]. intros _ c. destruct c; assumption.
Qed.

Lemma one_live_region_witness :
  live [CallCalloc 4; CallCalloc 18; CallFree] = 1 /\
  exists b',
    Release (fun _ => false)
      (mkBuffer (Some (repeat x00 18)) 1 18 100 None UseCalloc
         [CallCalloc 4; CallCalloc 18; CallFree]) = Ok (b', None) /\
    live (calls b') = 0.
Proof.
  assert (R0 : reachable insertionSort scale11
                 (mkBuffer (Some (repeat x00 4)) 1 4 100 None UseCalloc
                    [CallCalloc 4])).
  { apply reach_new with (sz := 4) (mx := 100) (t := UseCalloc).
    - split; vm_compute; discriminate.
    - split; vm_compute; discriminate.
    - vm_compute. reflexivity. }
  assert (R1 : reachable insertionSort scale11
                 (mkBuffer (Some (repeat x00 18)) 1 18 100 None UseCalloc
                    [CallCalloc 4; CallCalloc 18; CallFree])).
  { apply reach_step with
      (b := mkBuffer (Some (repeat x00 4)) 1 4 100 None UseCalloc [CallCalloc 4])
      (o := OpGrow 10).
    - exact R0.
    - split; vm_compute; discriminate.
    - vm_compute. reflexivity. }
  destruct (one_live_region insertionSort scale11 _ R1) as (T1 & T2 & T3 & _).
  split; [exact T1|].
  destruct (T3 eq_refl (fun _ => false)) as (b' & T4).
  exists b'. split; [exact T4|]. exact (T2 _ _ _ T4).
Defined.

(** X23: the file under a mapped buffer follows the current size, and the
    mapping stays.  In every state a mapped buffer built by [NewBufferWith]
    goes through, the file has been truncated to exactly the current size
    (each growth truncates it again), and the region is the one mapped at
    the start, as long as the maximum size. *)
Theorem mapped_file_follows_size
    (sort_Slice : (Z -> Z -> bool) -> list Z -> list Z) (scale : Z -> Z)
    (b : Buffer) :
  reachable sort_Slice scale b -> bufType b = UseMmap ->
  (exists f, fd b = Some f /\ fsize f = curSz b) /\
  len (bytes b) = maxSz b.
Proof.
  intros R T. split.
  - revert T. change (file_sized b). revert b R. apply reachable_keeps.
    + intros sz mx t b N T.
      destruct (NewBufferWith_inv sz mx t b N)
        as (_ & C & _ & T' & [(-> & _)|(_ & F & _)]); [congruence|].
      eexists. split; [exact F|]. rewrite C. reflexivity.
    + intros b n b' G H T'.
      pose proof G as G'.
      apply Grow_inv in G' as (old & E & _ & [(_ & ->)|(_ & _ & _ & Et & _)]);
        [exact (H T')|].
      rewrite Et in T'.
      rewrite (Grow_unfold_some b n old E) in G.
      destruct (maxSz b -i offset b <? n); [discriminate|].
      destruct (curSz b -i offset b >? n).
      { injection G as <-. exact (H T'). }
      cbv zeta in G. cbn [bufType set_curSz] in G. rewrite T' in G.
      cbn [fd set_curSz curSz] in G.
      destruct (fd b) as [f|]; [|discriminate].
      unfold Truncate in G.
      destruct (_ <? 0); [discriminate|].
      injection G as <-. eexists. split; reflexivity.
    + intros b b' (F & C & _ & T' & _) H T''.
      rewrite F, C. apply H. congruence.
  - apply (reachable_bounded sort_Slice scale) in R. destruct R as (V & _).
    destruct (valid_len b V) as (_ & _ & _ & Lm). exact (Lm T).
Qed.

Lemma mapped_file_follows_size_witness :
  (exists f, fd (mkBuffer (Some (repeat x00 100)) 1 18 100 (Some (mkFile 18))
                   UseMmap [CallTruncate 4; CallMmap 100; CallTruncate 18])
             = Some f /\ fsize f = 18) /\
  len (repeat x00 100) = 100.
Proof.
  assert (R0 : reachable insertionSort scale11
                 (mkBuffer (Some (repeat x00 100)) 1 4 100 (Some (mkFile 4)) UseMmap
                    [CallTruncate 4; CallMmap 100])).
  { apply reach_new with (sz := 4) (mx := 100) (t := UseMmap).
    - split; vm_compute; discriminate.
    - split; vm_compute; discriminate.
    - vm_compute. reflexivity. }
  assert (R1 : reachable insertionSort scale11
                 (mkBuffer (Some (repeat x00 100)) 1 18 100 (Some (mkFile 18)) UseMmap
                    [CallTruncate 4; CallMmap 100; CallTruncate 18])).
  { apply reach_step with
      (b := mkBuffer (Some (repeat x00 100)) 1 4 100 (Some (mkFile 4)) UseMmap
              [CallTruncate 4; CallMmap 100])
      (o := OpGrow 10).
    - exact R0.
    - split; vm_compute; discriminate.
    - vm_compute. reflexivity. }
  exact (mapped_file_follows_size insertionSort scale11 _ R1 eq_refl).
Defined.

(** ** Writing into a buffer without a maximum *)

Lemma scratch_same_frame (B : Z) (t t' : Buffer) :
  scratch B t -> same_frame t t' -> scratch B t'.
Proof.
  intros (V & T & M & C & O) F.
  pose proof (valid_same_frame t t' V F) as V'.
  destruct F as (F1 & F2 & F3 & _ & F5 & _).
  unfold scratch. rewrite F1, F2, F3, F5.
  split; [exact V'|]. split; [exact T|]. split; [exact M|].
  split; [exact C|exact O].
Qed.

Lemma Grow_scratch (B : Z) (t : Buffer) (n : Z) :
  scratch B t -> 0 <= n -> offset t + n <= B -> 7 * B <= GoInt.max_int ->
  exists t', Grow t n = Ok t' /\ scratch B t' /\ offset t' = offset t /\
             offset t + n <= len (bytes t').
Proof.
  intros (V & T & M & C & O) Hn Hr HB.
  destruct (Grow_ok_room t n V T) as (t' & G & C1); try (int_range; lia).
  exists t'. split; [exact G|].
  pose proof G as G'. apply Grow_type in G' as (Et & Em).
  apply Grow_valid in G as (V' & Eo & _ & _ & _ & _ & _ & R1 & _);
    [|exact V|int_range; lia].
  specialize (R1 Hn).
  destruct (valid_len t' V') as (_ & _ & Lc & _).
  rewrite Et, T in Lc. specialize (Lc eq_refl).
  split; [|split; [exact Eo|lia]].
  unfold scratch. rewrite Et, Em, Eo.
  split; [exact V'|]. split; [exact T|]. split; [exact M|].
  split; [lia|exact O].
Qed.

Lemma Allocate_scratch (B : Z) (t : Buffer) (n : Z) :
  scratch B t -> 0 <= n -> offset t + n <= B -> 7 * B <= GoInt.max_int ->
  exists t', Allocate t n = Ok (t', (offset t, offset t + n)) /\
             scratch B t' /\ offset t' = offset t + n.
Proof.
  intros S Hn Hr HB.
  destruct (Grow_scratch B t n S Hn Hr HB) as (t1 & G & (V1 & T1 & M1 & C1 & O1) & Eo & L).
  unfold Allocate. rewrite G. cbn [bind].
  assert (A : offset t1 +i n = offset t + n).
  { rewrite Eo. apply add_small. int_range. lia. }
  rewrite A. cbn [offset set_offset].
  change (bytes (set_offset t1 (offset t + n))) with (bytes t1).
  rewrite Eo. rewrite slice_ok by lia. cbn [bind].
  eexists. split; [reflexivity|]. split; [|reflexivity].
  split.
  - apply valid_set_offset_room; [exact V1| |rewrite T1; discriminate].
    destruct (valid_len t1 V1) as (_ & _ & Lc & _). rewrite (Lc T1) in L. lia.
  - cbn [bufType maxSz curSz offset set_offset].
    split; [exact T1|]. split; [exact M1|]. split; [exact C1|lia].
Qed.

Lemma writeRecord_scratch (B : Z) (t : Buffer) (p : list byte) :
  scratch B t -> offset t + 4 + len p <= B -> 7 * B <= GoInt.max_int ->
  exists t', writeRecord t p = Ok t' /\ scratch B t' /\
             offset t' = offset t + 4 + len p.
Proof.
  intros S Hr HB. pose proof (len_nonneg p) as P0.
  assert (O1 : 1 <= offset t) by apply S.
  unfold writeRecord, SliceAllocate.
  rewrite (add_small 4 (len p)) by (int_range; lia).
  destruct (Grow_scratch B t (4 + len p) S) as (t1 & G & S1 & E1 & _); try lia.
  rewrite G. cbn [bind].
  unfold writeLen.
  destruct (Allocate_scratch B t1 4 S1) as (t2 & A2 & S2 & E2); try lia.
  rewrite A2. cbn [bind].
  unfold PutUint32, span_len. cbn [fst snd].
  destruct (offset t1 + 4 - offset t1 <? 4) eqn:K; zbool; [lia|]. cbn [bind].
  set (a := fst (copy (bytes t2) (offset t1, offset t1 + 4)
                   (be32 (GoInt.to_uint32 (len p))))).
  assert (L2 : offset t2 <= len (bytes t2)).
  { destruct S2 as (V2 & _). apply (valid_len t2 V2). }
  assert (La : len a = len (bytes t2)).
  { subst a. apply len_copy; cbn [fst snd]; lia. }
  pose proof (scratch_same_frame B t2 (store t2 a) S2 (same_frame_store t2 a La))
    as S3.
  assert (E3 : offset (store t2 a) = offset t2)
    by apply (same_frame_store t2 a La).
  destruct (Allocate_scratch B (store t2 a) (len p) S3) as (t4 & A4 & S4 & E4);
    try lia.
  rewrite A4. cbn [bind]. eexists. split; [reflexivity|].
  unfold fill.
  set (a' := fst (copy (bytes t4) _ p)).
  assert (L4 : offset t4 <= len (bytes t4)).
  { destruct S4 as (V4 & _). apply (valid_len t4 V4). }
  assert (La' : len a' = len (bytes t4)).
  { subst a'. apply len_copy; cbn [fst snd]; lia. }
  split.
  - eapply scratch_same_frame; [exact S4|apply same_frame_store; exact La'].
  - destruct (same_frame_store t4 a' La') as (F1 & _). rewrite F1. lia.
Qed.

Lemma writeAll_scratch (B : Z) (ps : list (list byte)) :
  forall t, scratch B t -> offset t + len (encs ps) <= B ->
            7 * B <= GoInt.max_int ->
  exists t', writeAll t ps = Ok t' /\ scratch B t' /\
             offset t' = offset t + len (encs ps).
Proof.
  induction ps as [|p ps IH]; intros t S Hr HB.
  - exists t. rewrite len_encs_nil. split; [reflexivity|]. split; [exact S|lia].
  - rewrite encs_cons, len_app, len_enc in *.
    pose proof (len_encs_nonneg ps) as P0.
    destruct (writeRecord_scratch B t p S) as (t1 & W & S1 & E1); try lia.
    destruct (IH t1 S1) as (t' & W' & S' & E'); try lia.
    exists t'. cbn [writeAll]. rewrite W. cbn [bind].
    split; [exact W'|]. split; [exact S'|lia].
Qed.

(** X22: writing records into a buffer made by [NewBuffer] does not fail:
    no call panics, whatever the payloads, and the region stays within
    three times the larger of the initial size, 64, and the bytes
    written. *)
Theorem writing_never_fails (B sz : Z) (ps : list (list byte)) :
  0 <= sz <= B -> 64 <= B -> 1 + len (encs ps) <= B -> 7 * B <= GoInt.max_int ->
  exists b0 b,
    NewBuffer sz = Ok b0 /\ writeAll b0 ps = Ok b /\
    Len b = 1 + len (encs ps) /\ curSz b <= 3 * B /\
    len (bytes b) = curSz b.
Proof.
  intros Hs H64 Hr HB.
  destruct (NewBuffer_scratch B sz Hs H64) as (b0 & N & S0 & E0); [lia|].
  destruct (writeAll_scratch B ps b0 S0) as (b & W & S & E); try lia.
  exists b0, b. split; [exact N|]. split; [exact W|].
  split; [unfold Len; lia|].
  destruct S as (V & T & _ & C & _). split; [exact C|].
  destruct (valid_len b V) as (_ & _ & Lc & _). exact (Lc T).
Qed.

Lemma writing_never_fails_witness :
  exists b0 b,
    NewBuffer 4 = Ok b0 /\ writeAll b0 [[x61; x62]; [x63]] = Ok b /\
    Len b = 1 + len (encs [[x61; x62]; [x63]]) /\ curSz b <= 3 * 64.
Proof.
  destruct (writing_never_fails 64 4 [[x61; x62]; [x63]])
    as (b0 & b & T1 & T2 & T3 & T4 & _).
  - split; vm_compute; discriminate.
  - vm_compute. discriminate.
  - vm_compute. discriminate.
  - vm_compute. discriminate.
  - exists b0, b. split; [exact T1|]. split; [exact T2|]. split; [exact T3|exact T4].
Defined.
